(** * Batched query orchestration (executeBatchedQuerySmart and friends)

    A shallow embedding of the batch orchestrator of the repository
    (strategy selection, the three executors, the backward compatible
    wrappers) and of the stand-alone parallel helper of
    [performance-test.ts], followed by the properties checked against it.

    Modelling conventions.

    - JS numbers that the code uses as sizes and indices are integers,
      modelled as [Z]; [ids.length] is [Z.of_nat (length ids)].
    - A promise returned by the caller's [queryFn] is a record: how it
      settles (fulfilled with a result array, or rejected with an error)
      and after how long ([latency], counted from the call).  Latencies fix
      the completion order of calls that are started together.  Every
      promise settles; [queryFn] returns a promise (it does not throw
      synchronously) and is a function of the batch it receives.
    - An [async] function is a computation in the [Async] monad: it may
      not terminate ([None], the loops that can spin take fuel), and when
      it terminates it yields the trace of lookup events it caused and the
      settlement of the promise it returned.
    - A spread call [f(...xs)] passes every element of [xs] as an argument;
      the engine throws a RangeError when there are more of them than it
      accepts.  That bound and the error thrown are the [Engine] the code
      runs on. *)

From Stdlib Require Import ZArith List Lia Bool.
From Stdlib Require String DecimalString.
Import ListNotations.
Import String.StringSyntax.
Delimit Scope string_scope with string.
Local Open Scope Z_scope.

(** ** The array built-ins the code relies on *)

Module JsArray.
Section Ops.
Context {A : Type}.

Definition length (l : list A) : Z := Z.of_nat (List.length l).

(** [Array.prototype.slice(start, end)]: negative positions count from
    the end, positions are clamped to [0 .. length], and an empty
    range gives the empty array. *)
Definition slice (l : list A) (start end_ : Z) : list A :=
    let len := length l in
    let k := if start <? 0 then Z.max (len + start) 0 else Z.min start len in
    let final := if end_ <? 0 then Z.max (len + end_) 0 else Z.min end_ len in
    firstn (Z.to_nat (final - k)) (skipn (Z.to_nat k) l).

(** [batches.push(x)] *)
Definition push (l : list A) (x : A) : list A := l ++ [x].
End Ops.

(** [Array.prototype.flat()] on an array of arrays (depth 1). *)
Definition flat {A : Type} (ll : list (list A)) : list A := concat ll.
End JsArray.

(** ** Promises, lookup events and the [Async] monad *)

Section Promises.
Variables T U E : Type.

Inductive Settlement (A : Type) : Type :=
  | Fulfilled (v : A)
  | Rejected (e : E).

Record Promise : Type := mkPromise {
  latency : nat;
  settlement : Settlement (list U)
  }.

(** What an observer of the lookup function sees. *)
Inductive Event : Type :=
  | Invoke (batch : list T)
  | Settle (batch : list T).

Record Run (A : Type) : Type := mkRun {
  events : list Event;
  result : Settlement A
  }.

Definition Async (A : Type) : Type := option (Run A).
End Promises.

Arguments Fulfilled {E A} v.
Arguments Rejected {E A} e.
Arguments mkPromise {U E} latency settlement.
Arguments latency {U E} p.
Arguments settlement {U E} p.
Arguments Invoke {T} batch.
Arguments Settle {T} batch.
Arguments mkRun {T E A} events result.
Arguments events {T E A} r.
Arguments result {T E A} r.

(** The engine the code runs on: the largest number of arguments a call
    can be given, and the RangeError thrown when a spread exceeds it. *)
Class Engine (E : Type) : Type := mkEngine {
  maxArguments : Z;
  rangeError : E
}.

Section AsyncMonad.
Context {T E : Type}.

Definition ret {A : Type} (a : A) : Async T E A :=
  Some (mkRun [] (Fulfilled a)).

(** [throw e] *)
Definition throw {A : Type} (e : E) : Async T E A :=
  Some (mkRun [] (Rejected e)).

(** A loop that never exits. *)
Definition diverge {A : Type} : Async T E A := None.

Definition bind {A B : Type} (m : Async T E A) (k : A -> Async T E B)
  : Async T E B :=
  match m with
  | None => None
  | Some r =>
      match result r with
      | Rejected e => Some (mkRun (events r) (Rejected e))
      | Fulfilled a =>
          match k a with
          | None => None
          | Some r' => Some (mkRun (events r ++ events r') (result r'))
          end
      end
  end.

(** A pure computation that may not terminate. *)
Definition lift {A : Type} (o : option A) : Async T E A :=
  match o with
  | None => None
  | Some a => ret a
  end.

(** [results.push(...xs)]: every element of [xs] is an argument of the
    call. *)
Definition pushSpread {U : Type} {engine : Engine E}
           (results xs : list U) : Async T E (list U) :=
  if JsArray.length xs <=? maxArguments then ret (results ++ xs)
  else throw rangeError.
End AsyncMonad.

Declare Scope async_scope.
Delimit Scope async_scope with async.
Notation "x <- m ;; k" := (bind m (fun x => k))
  (at level 61, m at next level, right associativity) : async_scope.
Local Open Scope async_scope.

Section Lookup.
Context {T U E : Type}.
Variable queryFn : list T -> Promise U E.

(** A call that has been made and not yet awaited. *)
Definition Pending : Type := (list T * Promise U E)%type.

(** [queryFn(batch)]: the call is observable, its promise is returned. *)
Definition call (batch : list T) : Async T E Pending :=
  Some (mkRun [Invoke batch] (Fulfilled (batch, queryFn batch))).

(** [await p] *)
Definition await (p : Pending) : Async T E (list U) :=
  Some (mkRun [Settle (fst p)] (settlement (snd p))).

(** [batches.map(queryFn)]: every call is made, in array order, before
    anything is awaited. *)
Fixpoint mapCalls (batches : list (list T)) : Async T E (list Pending) :=
  match batches with
  | [] => ret []
  | batch :: rest =>
      p <- call batch ;;
      ps <- mapCalls rest ;;
      ret (p :: ps)
  end.

(** Calls started together settle by increasing latency; among equal
    latencies the one started first settles first. *)
Fixpoint insertByLatency (p : Pending) (l : list Pending) : list Pending :=
  match l with
  | [] => [p]
  | q :: r =>
      if (latency (snd p) <=? latency (snd q))%nat
      then p :: q :: r
      else q :: insertByLatency p r
  end.

Definition completionOrder (ps : list Pending) : list Pending :=
  fold_right insertByLatency [] ps.

Fixpoint firstRejection (ps : list Pending) : option E :=
  match ps with
  | [] => None
  | p :: r =>
      match settlement (snd p) with
      | Rejected e => Some e
      | Fulfilled _ => firstRejection r
      end
  end.

(** The value of a promise once fulfilled (the empty array stands in for
    a rejected one; it is never read in that case). *)
Definition valueOf (p : Pending) : list U :=
  match settlement (snd p) with
  | Fulfilled v => v
  | Rejected _ => []
  end.

(** [await Promise.all(ps)]: rejects with the first rejection in
    completion order; otherwise fulfils with the values in the order of
    [ps], whatever the completion order.  The trace lists the settling of
    every pending call, also of those that settle after the rejection
    that ends the wait: they were started and are not cancelled. *)
Definition awaitAll (ps : list Pending) : Async T E (list (list U)) :=
  let done := completionOrder ps in
  Some (mkRun (map (fun p => Settle (fst p)) done)
              (match firstRejection done with
               | Some e => Rejected e
               | None => Fulfilled (map valueOf ps)
               end)).
End Lookup.

(** ** The orchestrator *)

Module Enhanced.

(** SQL Server has a limit of 2100 parameters *)
Definition BATCH_SIZE : Z := 2000.

(** Default Knex mssql pool max size *)
Definition DEFAULT_MAX_POOL_SIZE : Z := 10.

Inductive Strategy : Type := auto | parallel | sequential.

Record Options : Type := mkOptions {
  batchSize : option Z;
  maxConcurrent : option Z;
  strategy : option Strategy
  }.

(** [const { x = d } = options || {}] *)
Definition field {A : Type} (options : option Options)
           (get : Options -> option A) (d : A) : A :=
  match options with
  | None => d
  | Some o => match get o with None => d | Some v => v end
  end.

Section Executors.
Context {T U E : Type} {engine : Engine E}.
Variable queryFn : list T -> Promise U E.

(** Execute all batches in parallel. *)
Definition executeParallel (batches : list (list T)) : Async T E (list U) :=
    batchResults <- (ps <- mapCalls queryFn batches ;; awaitAll ps) ;;
    ret (JsArray.flat batchResults).

(** Execute batches sequentially: the [for ... of] loop, with the
    accumulator [results]. *)
Fixpoint executeSequential_loop (batches : list (list T)) (results : list U)
    : Async T E (list U) :=
    match batches with
    | [] => ret results
    | batch :: rest =>
        batchResults <- (p <- call queryFn batch ;; await p) ;;
        results <- pushSpread results batchResults ;;
        executeSequential_loop rest results
    end.

Definition executeSequential (batches : list (list T)) : Async T E (list U) :=
    executeSequential_loop batches [].

(** Execute batches in parallel chunks of [maxConcurrent] batches: the
    [for (let i = 0; i < batches.length; i += maxConcurrent)] loop. *)
Fixpoint executeChunkedParallel_loop (fuel : nat) (batches : list (list T))
           (maxConcurrent i : Z) (results : list U) : Async T E (list U) :=
    match fuel with
    | O => diverge
    | S fuel' =>
        if i <? JsArray.length batches then
          let chunk := JsArray.slice batches i (i + maxConcurrent) in
          chunkResults <- (ps <- mapCalls queryFn chunk ;; awaitAll ps) ;;
          results <- pushSpread results (JsArray.flat chunkResults) ;;
          executeChunkedParallel_loop fuel' batches maxConcurrent
            (i + maxConcurrent) results
        else ret results
    end.

Definition executeChunkedParallel (fuel : nat) (batches : list (list T))
             (maxConcurrent : Z) : Async T E (list U) :=
    executeChunkedParallel_loop fuel batches maxConcurrent 0 [].

(** Split into batches:
    [for (let i = 0; i < ids.length; i += batchSize)
    batches.push(ids.slice(i, i + batchSize))]. *)
Fixpoint splitLoop (fuel : nat) (ids : list T) (batchSize i : Z)
           (batches : list (list T)) : option (list (list T)) :=
    match fuel with
    | O => None
    | S fuel' =>
        if i <? JsArray.length ids then
          splitLoop fuel' ids batchSize (i + batchSize)
            (JsArray.push batches (JsArray.slice ids i (i + batchSize)))
        else Some batches
    end.

Definition splitIntoBatches (fuel : nat) (ids : list T) (batchSize : Z)
    : option (list (list T)) :=
    splitLoop fuel ids batchSize 0 [].

(** Determine execution strategy. *)
Definition executionStrategy (strategy : Strategy)
             (batches : list (list T)) (maxConcurrent : Z) : Strategy :=
    match strategy with
    | auto =>
        if JsArray.length batches <=? maxConcurrent then parallel
        else sequential
    | s => s
    end.

(** The [return] statement that [executeBatchedQuerySmart] reaches. *)
Inductive TailCall : Type :=
  | ReturnEmpty
  | ReturnQuery (ids : list T)
  | CallParallel (batches : list (list T))
  | CallSequential (batches : list (list T))
  | CallChunkedParallel (batches : list (list T)) (maxConcurrent : Z).

(** The body of [executeBatchedQuerySmart] up to its [return]. *)
Definition selectCall (fuel : nat) (ids : list T) (options : option Options)
    : option TailCall :=
    let batchSize := field options batchSize BATCH_SIZE in
    let maxConcurrent := field options maxConcurrent DEFAULT_MAX_POOL_SIZE in
    let strategy := field options strategy auto in
    if JsArray.length ids =? 0 then Some ReturnEmpty
    else if JsArray.length ids <=? batchSize then Some (ReturnQuery ids)
    else
      match splitIntoBatches fuel ids batchSize with
      | None => None
      | Some batches =>
          match executionStrategy strategy batches maxConcurrent with
          | parallel => Some (CallParallel batches)
          | sequential => Some (CallSequential batches)
          | auto => Some (CallChunkedParallel batches maxConcurrent)
          end
      end.

(** What each [return] does. *)
Definition perform (fuel : nat) (c : TailCall) : Async T E (list U) :=
    match c with
    | ReturnEmpty => ret []
    | ReturnQuery ids => p <- call queryFn ids ;; await p
    | CallParallel batches => executeParallel batches
    | CallSequential batches => executeSequential batches
    | CallChunkedParallel batches maxConcurrent =>
        executeChunkedParallel fuel batches maxConcurrent
    end.

Definition executeBatchedQuerySmart (fuel : nat) (ids : list T)
             (options : option Options) : Async T E (list U) :=
    match selectCall fuel ids options with
    | None => diverge
    | Some c => perform fuel c
    end.

(** Original parallel implementation (for backward compatibility) *)
Definition executeBatchedQueryParallel (fuel : nat) (ids : list T)
    : Async T E (list U) :=
    executeBatchedQuerySmart fuel ids
      (Some (mkOptions None None (Some parallel))).

(** Original sequential implementation (for backward compatibility) *)
Definition executeBatchedQuerySequential (fuel : nat) (ids : list T)
    : Async T E (list U) :=
    executeBatchedQuerySmart fuel ids
      (Some (mkOptions None None (Some sequential))).

(** Default export *)
Definition executeBatchedQuery := executeBatchedQuerySmart.

(** The arguments of the lookup calls a [return] stands for, in the
    order in which the code derives them from the input. *)
Definition chunksOf (c : TailCall) : list (list T) :=
    match c with
    | ReturnEmpty => []
    | ReturnQuery ids => [ids]
    | CallParallel batches => batches
    | CallSequential batches => batches
    | CallChunkedParallel batches _ => batches
    end.
End Executors.
End Enhanced.

(** ** The stand-alone helper of performance-test.ts *)

Module PerformanceTest.
Definition BATCH_SIZE : Z := 2000.

Section Helper.
Context {T U E : Type}.
Variable queryFn : list T -> Promise U E.

Fixpoint splitLoop (fuel : nat) (ids : list T) (i : Z)
           (batches : list (list T)) : option (list (list T)) :=
    match fuel with
    | O => None
    | S fuel' =>
        if i <? JsArray.length ids then
          splitLoop fuel' ids (i + BATCH_SIZE)
            (JsArray.push batches (JsArray.slice ids i (i + BATCH_SIZE)))
        else Some batches
    end.

(** Original executeBatchedQuery implementation (parallel) *)
Definition executeBatchedQueryParallel (fuel : nat) (ids : list T)
    : Async T E (list U) :=
    if JsArray.length ids =? 0 then ret []
    else if JsArray.length ids <=? BATCH_SIZE then
      p <- call queryFn ids ;; await p
    else
      batches <- lift (splitLoop fuel ids 0 []) ;;
      batchResults <- (ps <- mapCalls queryFn batches ;; awaitAll ps) ;;
      ret (JsArray.flat batchResults).
End Helper.
End PerformanceTest.

(** ** Measuring a trace *)

Section Traces.
Context {T : Type}.

(** Lookup calls made and not yet settled at the end of a trace. *)
Fixpoint inFlight (evs : list (Event T)) : Z :=
  match evs with
  | [] => 0
  | Invoke _ :: r => inFlight r + 1
  | Settle _ :: r => inFlight r - 1
  end.

(** The arguments of the lookup calls of a trace, in call order. *)
Fixpoint invocations (evs : list (Event T)) : list (list T) :=
  match evs with
  | [] => []
  | Invoke b :: r => b :: invocations r
  | Settle _ :: r => invocations r
  end.

(** The largest number of calls in flight at any point of a trace that
    starts with [cur] calls in flight. *)
Fixpoint peakInFlight (cur : Z) (evs : list (Event T)) : Z :=
  match evs with
  | [] => cur
  | Invoke _ :: r => Z.max cur (peakInFlight (cur + 1) r)
  | Settle _ :: r => Z.max cur (peakInFlight (cur - 1) r)
  end.
End Traces.

(** ** The chunks a call is expected to be cut into *)

Section Chunks.
Context {T : Type}.

(** [ceil(n / s)] for a positive [s]. *)
Definition ceilDiv (n s : Z) : Z := (n + s - 1) / s.

(** The [j]-th contiguous chunk of size [batchSize]. *)
Definition chunkAt (ids : list T) (batchSize : Z) (j : nat) : list T :=
  JsArray.slice ids (Z.of_nat j * batchSize) (Z.of_nat j * batchSize + batchSize).

Definition contiguousChunks (ids : list T) (batchSize : Z) : list (list T) :=
  map (chunkAt ids batchSize)
      (seq 0 (Z.to_nat (ceilDiv (JsArray.length ids) batchSize))).

(** The arguments the lookup is expected to receive, in order: nothing for
    an empty input, the input itself when it fits one batch, its
    contiguous chunks otherwise. *)
Definition expectedChunks (ids : list T) (batchSize : Z) : list (list T) :=
  if JsArray.length ids =? 0 then []
  else if JsArray.length ids <=? batchSize then [ids]
  else contiguousChunks ids batchSize.
End Chunks.

(** ** Vocabulary of the statements *)

(** The configuration in force after the defaults are applied. *)
Definition batchSizeOf (options : option Enhanced.Options) : Z :=
  Enhanced.field options Enhanced.batchSize Enhanced.BATCH_SIZE.

Definition maxConcurrentOf (options : option Enhanced.Options) : Z :=
  Enhanced.field options Enhanced.maxConcurrent Enhanced.DEFAULT_MAX_POOL_SIZE.

Definition strategyOf (options : option Enhanced.Options) : Enhanced.Strategy :=
  Enhanced.field options Enhanced.strategy Enhanced.auto.

Section Vocabulary.
Context {T U E : Type} {engine : Engine E}.
Variable queryFn : list T -> Promise U E.

(** The calls [batches.map(queryFn)] leaves pending. *)
Definition pendingOf (batches : list (list T)) : list (@Pending T U E) :=
  map (fun b => (b, queryFn b)) batches.

Definition fulfils (batch : list T) (v : list U) : Prop :=
  settlement (queryFn batch) = Fulfilled v.

Definition rejects (batch : list T) (e : E) : Prop :=
  settlement (queryFn batch) = Rejected e.

(** The batches up to and including the first one whose lookup rejects or
    whose result is too long to be spread. *)
Fixpoint invokedPrefix (batches : list (list T)) : list (list T) :=
  match batches with
  | [] => []
  | b :: rest =>
      match settlement (queryFn b) with
      | Fulfilled v =>
          if JsArray.length v <=? maxArguments then b :: invokedPrefix rest
          else [b]
      | Rejected _ => [b]
      end
  end.

(** No result is too long to be spread. *)
Definition spreadable (vs : list (list U)) : Prop :=
  Forall (fun v => JsArray.length v <= maxArguments) vs.

(** One call at a time: each batch is invoked and settles before the next
    one is invoked. *)
Definition sequentialTrace (batches : list (list T)) : list (Event T) :=
  flat_map (fun b => [Invoke b; Settle b]) batches.

(** A run over [chunks]: its output is the concatenation, in the order of
    [chunks], of the lookup results; a rejection is that of a call that was
    made; the calls made are an initial segment of [chunks]. *)
Definition faithfulRun (chunks : list (list T)) (run : Run T E (list U)) : Prop :=
  (forall vs, Forall2 fulfils chunks vs ->
              result run = Fulfilled (concat vs)) /\
  (forall out, result run = Fulfilled out ->
               exists vs, Forall2 fulfils chunks vs /\ out = concat vs) /\
  (forall e, result run = Rejected e ->
             exists b, In b (invocations (events run)) /\ rejects b e) /\
  (exists k, invocations (events run) = firstn k chunks).

Definition callsChunkedParallel (c : @Enhanced.TailCall T) : bool :=
  match c with
  | Enhanced.CallChunkedParallel _ _ => true
  | _ => false
  end.

Definition callsSequential (c : @Enhanced.TailCall T) : bool :=
  match c with
  | Enhanced.CallSequential _ => true
  | _ => false
  end.

(** A run over [chunks] on an engine with a bound on spreads: a fulfilled
    output is the concatenation, in the order of [chunks], of the lookup
    results; it is reached when every lookup fulfils with a result that
    can be spread; the calls made are an initial segment of [chunks]; a
    rejection is that of a call that was made, or the RangeError of a
    spread of the result of a call that was made; and when a call that
    was made rejects, the run rejects with the error of such a call. *)
Definition soundRun (chunks : list (list T)) (run : Run T E (list U)) : Prop :=
  (forall vs, Forall2 fulfils chunks vs -> spreadable vs ->
              result run = Fulfilled (concat vs)) /\
  (forall out, result run = Fulfilled out ->
               exists vs, Forall2 fulfils chunks vs /\ out = concat vs) /\
  (exists k, invocations (events run) = firstn k chunks) /\
  (forall e, result run = Rejected e ->
             (exists b, In b (invocations (events run)) /\ rejects b e) \/
             (e = rangeError /\
              exists b v, In b (invocations (events run)) /\ fulfils b v /\
                          maxArguments < JsArray.length v)) /\
  (forall b e, In b (invocations (events run)) -> rejects b e ->
               exists b' e', result run = Rejected e' /\
                             In b' (invocations (events run)) /\
                             rejects b' e').
End Vocabulary.

(** ** Sample inputs *)

Module Sample.
(** A lookup over integer ids with natural-number error codes: a batch
    whose first id is negative is rejected with that id's magnitude, any
    other batch is answered with its ids times ten; the promise takes as
    long as the magnitude of the first id. *)
Definition lookup (batch : list Z) : Promise Z nat :=
  mkPromise (Z.to_nat (Z.abs (hd 0 batch)))
            (if hd 0 batch <? 0 then Rejected (Z.to_nat (- hd 0 batch))
             else Fulfilled (map (Z.mul 10) batch)).

Definition config (batchSize maxConcurrent : Z) (strategy : Enhanced.Strategy)
  : option Enhanced.Options :=
  Some (Enhanced.mkOptions (Some batchSize) (Some maxConcurrent) (Some strategy)).

(** An engine that accepts up to 125000 arguments (the order of magnitude
    of Node's) and whose RangeError is the code 0, which the sample
    lookup never uses. *)
#[global] Instance engine : Engine nat := mkEngine nat 125000 0%nat.

(** An engine that accepts two arguments only, to show a failing spread
    on short lists. *)
Definition tiny : Engine nat := mkEngine nat 2 0%nat.

(** The text a template literal gives for an integer id below 1e21:
    decimal digits, with a minus sign when negative. *)
Definition decimal (n : Z) : String.string :=
  DecimalString.NilZero.string_of_int (Z.to_int n).
End Sample.

(** ** The mock query and the test driver of performance-test.ts *)

Module PerformanceRun.

(** A row [{ id, data }] of the mock result. *)
Record Row : Type := mkRow { id : Z; data : String.string }.

(** What [runPerformanceTest] returns. *)
Record TestResult : Type := mkTestResult {
  duration : Z;
  batches : Z;
  itemCount : Z
}.

Section Mock.
Context {E : Type}.

(** The simulated query time, [50 + Math.random() * 100]: any assignment
    of delays to the calls. *)
Variable queryTime : list Z -> nat.

(** The text the template literal gives for an id (the built-in
    conversion of a number to a string). *)
Variable numberToString : Z -> String.string.

(** Mock query function that simulates a database query. *)
Definition mockDatabaseQuery (ids : list Z) : Promise Row E :=
  mkPromise (queryTime ids)
    (Fulfilled
       (map (fun id =>
               mkRow id (String.append "Data for id "%string (numberToString id)))
            ids)).

(** Run performance test; [startTime] and [endTime] are the two readings
    of [Date.now()], the console output is left out. *)
Definition runPerformanceTest (startTime endTime : Z)
           (name : String.string) (datasetSize : nat)
           (executeFn : list Z -> (list Z -> Promise Row E)
                        -> Async Z E (list Row))
  : Async Z E TestResult :=
  let ids := map (fun i => Z.of_nat i + 1) (seq 0 datasetSize) in
  let batches := ceilDiv (Z.of_nat datasetSize) PerformanceTest.BATCH_SIZE in
  result <- executeFn ids mockDatabaseQuery ;;
  let duration := endTime - startTime in
  ret (mkTestResult duration batches (JsArray.length result)).
End Mock.
End PerformanceRun.

(** ** The strategies of benchmark-batching-strategies.ts *)

Module Benchmark.

Inductive JsError : Type := RangeError.

(** The object [{ data: 'mock result' }]. *)
Record MockResult : Type := mkMockResult { data : String.string }.

(** The largest length of an array. *)
Definition MAX_ARRAY_LENGTH : Z := 4294967295.

(** [Array(n).fill(x)] for an integer [n]: a RangeError when [n] is
    negative or too large. *)
Definition arrayFill {A : Type} (n : Z) (x : A) : option (list A) :=
  if (n <? 0) || (MAX_ARRAY_LENGTH <? n) then None
  else Some (repeat x (Z.to_nat n)).

(** [simulateQuery(batchSize, delay = 100)]: the promise settles after
    [delay]; the array is built after the wait. *)
Definition simulateQuery (batchSize : Z) (delay : option nat)
  : Promise MockResult JsError :=
  let delay := match delay with Some d => d | None => 100%nat end in
  mkPromise delay
    (match arrayFill batchSize (mkMockResult "mock result"%string) with
     | Some a => Fulfilled a
     | None => Rejected RangeError
     end).

Section Strategies.
Context {T Time : Type} {engine : Engine JsError}.

(** The difference of two readings of [performance.now()]. *)
Variable elapsed : Time -> Time -> Time.

Record Outcome : Type := mkOutcome {
  results : list MockResult;
  duration : Time
}.

(** [batch => simulateQuery(batch.length)] *)
Definition query (batch : list T) : Promise MockResult JsError :=
  simulateQuery (JsArray.length batch) None.

(** Strategy 1: the loop of [sequentialExecution]. *)
Fixpoint sequentialExecution_loop (fuel : nat) (items : list T)
         (batchSize i : Z) (results : list MockResult)
  : Async T JsError (list MockResult) :=
  match fuel with
  | O => diverge
  | S fuel' =>
      if i <? JsArray.length items then
        let batch := JsArray.slice items i (i + batchSize) in
        batchResults <- (p <- call query batch ;; await p) ;;
        results <- pushSpread results batchResults ;;
        sequentialExecution_loop fuel' items batchSize (i + batchSize) results
      else ret results
  end.

Definition sequentialExecution (startTime endTime : Time) (fuel : nat)
           (items : list T) (batchSize : Z) : Async T JsError Outcome :=
  results <- sequentialExecution_loop fuel items batchSize 0 [] ;;
  let duration := elapsed endTime startTime in
  ret (mkOutcome results duration).

(** Strategy 2: split (the same loop as in the orchestrator), then all
    batches at once. *)
Definition parallelExecution (startTime endTime : Time) (fuel : nat)
           (items : list T) (batchSize : Z) : Async T JsError Outcome :=
  batches <- lift (Enhanced.splitIntoBatches fuel items batchSize) ;;
  batchResults <- (ps <- mapCalls query batches ;; awaitAll ps) ;;
  let results := JsArray.flat batchResults in
  let duration := elapsed endTime startTime in
  ret (mkOutcome results duration).

(** Strategy 3: split, then groups of [maxConcurrent = 10] batches. *)
Fixpoint chunkedParallelExecution_loop (fuel : nat) (batches : list (list T))
         (maxConcurrent i : Z) (results : list MockResult)
  : Async T JsError (list MockResult) :=
  match fuel with
  | O => diverge
  | S fuel' =>
      if i <? JsArray.length batches then
        let chunk := JsArray.slice batches i (i + maxConcurrent) in
        chunkResults <- (ps <- mapCalls query chunk ;; awaitAll ps) ;;
        results <- pushSpread results (JsArray.flat chunkResults) ;;
        chunkedParallelExecution_loop fuel' batches maxConcurrent
          (i + maxConcurrent) results
      else ret results
  end.

Definition chunkedParallelExecution (startTime endTime : Time) (fuel : nat)
           (items : list T) (batchSize : Z) (maxConcurrent : option Z)
  : Async T JsError Outcome :=
  let maxConcurrent :=
    match maxConcurrent with Some m => m | None => 10 end in
  batches <- lift (Enhanced.splitIntoBatches fuel items batchSize) ;;
  results <- chunkedParallelExecution_loop fuel batches maxConcurrent 0 [] ;;
  let duration := elapsed endTime startTime in
  ret (mkOutcome results duration).
End Strategies.
End Benchmark.

(** ** More vocabulary *)

(** The rows the mock query answers a batch of ids with. *)
Definition mockRows (numberToString : Z -> String.string) (ids : list Z)
  : list PerformanceRun.Row :=
  map (fun id =>
         PerformanceRun.mkRow id
           (String.append "Data for id "%string (numberToString id)))
      ids.

(** An engine for the benchmark that accepts up to 125000 arguments. *)
#[global] Instance benchmarkEngine : Engine Benchmark.JsError :=
  mkEngine Benchmark.JsError 125000 Benchmark.RangeError.

(** What [simulateQuery(batch.length)] resolves to. *)
Definition mockResults {T : Type} (batch : list T) : list Benchmark.MockResult :=
  repeat (Benchmark.mkMockResult "mock result"%string) (length batch).

Section MoreVocabulary.
Context {T U E : Type}.

(** At every point of the trace between 0 and [m] calls are in flight. *)
Definition inFlightWithin (m : Z) (evs : list (Event T)) : Prop :=
  forall pre post, evs = pre ++ post -> 0 <= inFlight pre <= m.

(** The pending calls are listed by non-decreasing latency. *)
Fixpoint byLatency (l : list (@Pending T U E)) : Prop :=
  match l with
  | [] => True
  | p :: r =>
      (forall q, In q r -> (latency (snd p) <= latency (snd q))%nat) /\
      byLatency r
  end.
End MoreVocabulary.

(** ** Arithmetic and list facts *)

Lemma ceilDiv_lt_iff (n s k : Z) :
  0 < s -> k * s < n <-> k < ceilDiv n s.
Proof.
  intros Hs. unfold ceilDiv.
  pose proof (Z.div_mod (n + s - 1) s ltac:(lia)) as Hdm.
  pose proof (Z.mod_pos_bound (n + s - 1) s Hs) as Hm.
  split; intros H; nia.
Qed.

Lemma ceilDiv_le_self (n s : Z) : 0 < s -> 0 <= n -> 0 <= ceilDiv n s <= n.
Proof.
  intros Hs Hn.
  pose proof (proj1 (ceilDiv_lt_iff n s (ceilDiv n s - 1) Hs)) as H1.
  pose proof (proj2 (ceilDiv_lt_iff n s n Hs)) as H2.
  pose proof (proj2 (ceilDiv_lt_iff n s (-1) Hs)) as H3.
  split.
  - destruct (Z_lt_le_dec (ceilDiv n s) 0) as [Hneg|]; [|lia].
    assert (-1 * s < n) by lia. apply ceilDiv_lt_iff in H; lia.
  - destruct (Z_lt_le_dec n (ceilDiv n s)) as [Hgt|]; [|lia].
    specialize (H2 Hgt). nia.
Qed.

Lemma firstn_app_firstn_skipn {A : Type} (a b : nat) (l : list A) :
  firstn a l ++ firstn b (skipn a l) = firstn (a + b) l.
Proof.
  revert l. induction a as [|a IH]; intros l; [reflexivity|].
  destruct l as [|x l]; simpl.
  - now rewrite firstn_nil.
  - now rewrite IH.
Qed.

Lemma firstn_incl {A : Type} (k : nat) (l : list A) (x : A) :
  In x (firstn k l) -> In x l.
Proof.
  intros H. rewrite <- (firstn_skipn k l). apply in_or_app. now left.
Qed.

Lemma slice_nonneg {A : Type} (l : list A) (a b : Z) :
  0 <= a -> 0 <= b ->
  JsArray.slice l a b =
  firstn (Z.to_nat (Z.min b (JsArray.length l) - Z.min a (JsArray.length l)))
         (skipn (Z.to_nat (Z.min a (JsArray.length l))) l).
Proof.
  intros Ha Hb. unfold JsArray.slice.
  destruct (Z.ltb_spec a 0); [lia|].
  destruct (Z.ltb_spec b 0); [lia|]. reflexivity.
Qed.

Lemma slice_length {A : Type} (l : list A) (a b : Z) :
  0 <= a <= b ->
  JsArray.length (JsArray.slice l a b) =
  Z.min b (JsArray.length l) - Z.min a (JsArray.length l).
Proof.
  intros H. rewrite slice_nonneg by lia. unfold JsArray.length.
  rewrite length_firstn, length_skipn. lia.
Qed.

Section ChunkFacts.
Context {T : Type}.
Variables (ids : list T) (batchSize : Z).
Hypothesis batchSize_pos : 0 < batchSize.

Lemma concat_chunks_prefix (n : nat) :
  concat (map (chunkAt ids batchSize) (seq 0 n)) =
  firstn (Z.to_nat (Z.min (Z.of_nat n * batchSize) (JsArray.length ids))) ids.
Proof.
  induction n as [|n IH].
  { cbn [seq map concat].
    replace (Z.to_nat _) with 0%nat by (unfold JsArray.length; lia).
    reflexivity. }
  rewrite seq_S, map_app, concat_app, IH. cbn [Nat.add map concat].
  rewrite app_nil_r. unfold chunkAt.
  assert (0 <= Z.of_nat n * batchSize) as Hn by nia.
  rewrite slice_nonneg by lia.
  rewrite firstn_app_firstn_skipn. f_equal.
  rewrite Nat2Z.inj_succ, Z.mul_succ_l.
  unfold JsArray.length. lia.
Qed.

Lemma contiguousChunks_concat :
  concat (contiguousChunks ids batchSize) = ids.
Proof.
  unfold contiguousChunks. rewrite concat_chunks_prefix.
  apply firstn_all2.
  pose proof (ceilDiv_le_self (JsArray.length ids) batchSize batchSize_pos
                ltac:(unfold JsArray.length; lia)) as Hc.
  pose proof (ceilDiv_lt_iff (JsArray.length ids) batchSize
                (ceilDiv (JsArray.length ids) batchSize) batchSize_pos) as Hk.
  unfold JsArray.length in *. rewrite Z2Nat.id by lia.
  assert (Z.of_nat (length ids)
          <= ceilDiv (Z.of_nat (length ids)) batchSize * batchSize) by lia.
  lia.
Qed.

Lemma contiguousChunks_length :
  JsArray.length (contiguousChunks ids batchSize) =
  ceilDiv (JsArray.length ids) batchSize.
Proof.
  unfold contiguousChunks, JsArray.length.
  rewrite length_map, length_seq.
  pose proof (ceilDiv_le_self (Z.of_nat (length ids)) batchSize batchSize_pos
                ltac:(lia)).
  lia.
Qed.

Lemma contiguousChunks_nth (j : nat) :
  Z.of_nat j < ceilDiv (JsArray.length ids) batchSize ->
  nth j (contiguousChunks ids batchSize) [] = chunkAt ids batchSize j.
Proof.
  intros Hj. unfold contiguousChunks.
  rewrite nth_indep with (d' := chunkAt ids batchSize 0)
    by (rewrite length_map, length_seq; lia).
  rewrite map_nth with (f := chunkAt ids batchSize).
  rewrite seq_nth by lia. reflexivity.
Qed.

Lemma chunkAt_full (j : nat) :
  Z.of_nat j < ceilDiv (JsArray.length ids) batchSize - 1 ->
  JsArray.length (chunkAt ids batchSize j) = batchSize.
Proof.
  intros Hj. unfold chunkAt. rewrite slice_length by nia.
  assert ((Z.of_nat j + 1) * batchSize < JsArray.length ids)
    by (apply ceilDiv_lt_iff; lia).
  nia.
Qed.

Lemma chunkAt_bounds (j : nat) :
  Z.of_nat j < ceilDiv (JsArray.length ids) batchSize ->
  0 < JsArray.length (chunkAt ids batchSize j) <= batchSize.
Proof.
  intros Hj. unfold chunkAt. rewrite slice_length by nia.
  assert (Z.of_nat j * batchSize < JsArray.length ids)
    by (apply ceilDiv_lt_iff; lia).
  nia.
Qed.
End ChunkFacts.

(** ** The batching loop *)

Section SplitLoop.
Context {T : Type}.
Variable ids : list T.

Lemma splitLoop_closed (batchSize : Z) (fuel k : nat) (acc : list (list T)) :
  0 < batchSize ->
  let count := Z.to_nat (ceilDiv (JsArray.length ids) batchSize) in
  (k <= count)%nat -> (count - k < fuel)%nat ->
  Enhanced.splitLoop fuel ids batchSize (Z.of_nat k * batchSize) acc =
  Some (acc ++ map (chunkAt ids batchSize) (seq k (count - k))).
Proof.
  intros Hs count. revert k acc.
  pose proof (ceilDiv_le_self (JsArray.length ids) batchSize Hs
                ltac:(unfold JsArray.length; lia)) as Hc.
  induction fuel as [|fuel IH]; intros k acc Hk Hfuel; [lia|].
  cbn [Enhanced.splitLoop].
  pose proof (ceilDiv_lt_iff (JsArray.length ids) batchSize (Z.of_nat k) Hs)
    as Hiff.
  destruct (Z.ltb_spec (Z.of_nat k * batchSize) (JsArray.length ids)) as [Hlt|Hge].
  - assert (k < count)%nat as Hk' by (subst count; lia).
    replace (Z.of_nat k * batchSize + batchSize)
      with (Z.of_nat (S k) * batchSize) by lia.
    rewrite IH by lia. unfold JsArray.push. rewrite <- app_assoc.
    replace (count - k)%nat with (S (count - S k)) by lia.
    cbn [seq map app]. unfold chunkAt at 1.
    replace (Z.of_nat (S k) * batchSize)
      with (Z.of_nat k * batchSize + batchSize) by lia.
    reflexivity.
  - assert (k = count) as -> by (subst count; lia).
    rewrite Nat.sub_diag. cbn [seq map]. now rewrite app_nil_r.
Qed.

Lemma splitIntoBatches_total (batchSize : Z) (fuel : nat) :
  0 < batchSize -> (length ids < fuel)%nat ->
  Enhanced.splitIntoBatches fuel ids batchSize =
  Some (contiguousChunks ids batchSize).
Proof.
  intros Hs Hfuel. unfold Enhanced.splitIntoBatches.
  pose proof (ceilDiv_le_self (JsArray.length ids) batchSize Hs
                ltac:(unfold JsArray.length; lia)) as Hc.
  unfold JsArray.length in Hc.
  pose proof (splitLoop_closed batchSize fuel 0 [] Hs) as H.
  cbn zeta in H. rewrite Nat.sub_0_r in H. cbn [Z.of_nat Z.mul app] in H.
  apply H; unfold JsArray.length; lia.
Qed.

(** With a non-positive step the index never reaches the end of a
    non-empty array: the loop does not exit, whatever the fuel. *)
Lemma splitLoop_spins (batchSize i : Z) (fuel : nat) (acc : list (list T)) :
  batchSize <= 0 -> i < JsArray.length ids ->
  Enhanced.splitLoop fuel ids batchSize i acc = None.
Proof.
  intros Hs. revert i acc.
  induction fuel as [|fuel IH]; intros i acc Hi; [reflexivity|].
  cbn [Enhanced.splitLoop].
  destruct (Z.ltb_spec i (JsArray.length ids)); [|lia].
  apply IH. lia.
Qed.

(** The stand-alone helper runs the same loop with the constant step. *)
Lemma splitLoop_standalone (fuel : nat) (i : Z) (acc : list (list T)) :
  PerformanceTest.splitLoop fuel ids i acc =
  Enhanced.splitLoop fuel ids PerformanceTest.BATCH_SIZE i acc.
Proof.
  revert i acc. induction fuel as [|fuel IH]; intros i acc; [reflexivity|].
  cbn [PerformanceTest.splitLoop Enhanced.splitLoop].
  destruct (i <? JsArray.length ids); [apply IH|reflexivity].
Qed.
End SplitLoop.

(** ** The executors *)

Section ExecutorFacts.
Context {T U E : Type}.
Variable queryFn : list T -> Promise U E.

Lemma mapCalls_eq (batches : list (list T)) :
  mapCalls queryFn batches =
  Some (mkRun (map Invoke batches) (Fulfilled (pendingOf queryFn batches))).
Proof.
  induction batches as [|b rest IH]; [reflexivity|].
  cbn [mapCalls]. rewrite IH. unfold call, ret.
  cbn [bind result events]. now rewrite app_nil_r.
Qed.

Lemma insertByLatency_In (p q : @Pending T U E) (l : list Pending) :
  In q (insertByLatency p l) <-> q = p \/ In q l.
Proof.
  induction l as [|x l IH]; cbn [insertByLatency].
  - simpl. intuition congruence.
  - destruct (latency (snd p) <=? latency (snd x))%nat; simpl in *; intuition.
Qed.

Lemma completionOrder_In (q : @Pending T U E) (ps : list Pending) :
  In q (completionOrder ps) <-> In q ps.
Proof.
  induction ps as [|p ps IH]; [reflexivity|].
  cbn [completionOrder fold_right]. fold (completionOrder ps).
  rewrite insertByLatency_In. simpl. intuition.
Qed.

Lemma firstRejection_Some (l : list (@Pending T U E)) (e : E) :
  firstRejection l = Some e ->
  exists p, In p l /\ settlement (snd p) = Rejected e.
Proof.
  induction l as [|p l IH]; [discriminate|].
  cbn [firstRejection]. destruct (settlement (snd p)) as [v|e'] eqn:Hp.
  - intros H. destruct (IH H) as (q & Hq & Hs). exists q. simpl. auto.
  - intros [= <-]. exists p. simpl. auto.
Qed.

Lemma firstRejection_None (l : list (@Pending T U E)) :
  firstRejection l = None <->
  (forall p, In p l -> exists v, settlement (snd p) = Fulfilled v).
Proof.
  induction l as [|p l IH]; cbn [firstRejection].
  - split; [intros _ q []|reflexivity].
  - destruct (settlement (snd p)) as [v|e] eqn:Hp.
    + rewrite IH. split.
      * intros H q [<-|Hq]; eauto.
      * intros H q Hq. apply H. now right.
    + split; [discriminate|].
      intros H. destruct (H p (or_introl eq_refl)) as [v Hv]. congruence.
Qed.

Lemma pendingOf_fulfilled (batches : list (list T)) (vs : list (list U)) :
  Forall2 (fulfils queryFn) batches vs ->
  map valueOf (pendingOf queryFn batches) = vs /\
  (forall p, In p (pendingOf queryFn batches) ->
             exists v, settlement (snd p) = Fulfilled v).
Proof.
  induction 1 as [|b v bs vs Hb _ [IH1 IH2]]; [split; [reflexivity|intros ? []]|].
  split.
  - cbn [pendingOf map]. unfold valueOf at 1. cbn [snd]. rewrite Hb.
    f_equal. exact IH1.
  - intros p [<-|Hp]; [cbn [snd]; eauto|auto].
Qed.

Lemma pendingOf_all_fulfilled (batches : list (list T)) :
  (forall p, In p (pendingOf queryFn batches) ->
             exists v, settlement (snd p) = Fulfilled v) ->
  Forall2 (fulfils queryFn) batches (map valueOf (pendingOf queryFn batches)).
Proof.
  induction batches as [|b bs IH]; intros H; [constructor|].
  cbn [pendingOf map]. constructor.
  - destruct (H (b, queryFn b) (or_introl eq_refl)) as [v Hv].
    cbn [snd] in Hv. unfold fulfils, valueOf. cbn [snd]. now rewrite Hv.
  - apply IH. intros p Hp. apply H. now right.
Qed.

Lemma pendingOf_In (batches : list (list T)) (p : @Pending T U E) :
  In p (pendingOf queryFn batches) ->
  In (fst p) batches /\ snd p = queryFn (fst p).
Proof.
  unfold pendingOf. rewrite in_map_iff. intros (b & <- & Hb). auto.
Qed.

Lemma executeParallel_eq (batches : list (list T)) :
  Enhanced.executeParallel queryFn batches =
  let done := completionOrder (pendingOf queryFn batches) in
  Some (mkRun (map Invoke batches ++ map (fun p => Settle (fst p)) done)
              (match firstRejection done with
               | Some e => Rejected e
               | None =>
                   Fulfilled (concat (map valueOf (pendingOf queryFn batches)))
               end)).
Proof.
  unfold Enhanced.executeParallel. rewrite mapCalls_eq.
  cbn [bind result events awaitAll].
  destruct (firstRejection (completionOrder (pendingOf queryFn batches)));
    cbn [bind result events ret]; [reflexivity|].
  now rewrite app_nil_r.
Qed.

(** One turn of the sequential loop. *)
Lemma executeSequential_loop_cons {engine : Engine E}
      (b : list T) (rest : list (list T)) (results : list U) :
  Enhanced.executeSequential_loop queryFn (b :: rest) results =
  match settlement (queryFn b) with
  | Rejected e => Some (mkRun [Invoke b; Settle b] (Rejected e))
  | Fulfilled v =>
      if JsArray.length v <=? maxArguments then
        match Enhanced.executeSequential_loop queryFn rest (results ++ v) with
        | None => None
        | Some r => Some (mkRun (Invoke b :: Settle b :: events r) (result r))
        end
      else Some (mkRun [Invoke b; Settle b] (Rejected rangeError))
  end.
Proof.
  cbn [Enhanced.executeSequential_loop]. unfold call, await, pushSpread.
  cbn [bind result events fst snd app].
  destruct (settlement (queryFn b)) as [v|e]; [|reflexivity].
  destruct (JsArray.length v <=? maxArguments); cbn [bind ret throw result events app];
    [|reflexivity].
  destruct (Enhanced.executeSequential_loop queryFn rest (results ++ v));
    reflexivity.
Qed.
End ExecutorFacts.


(** ** Traces *)

Section TraceFacts.
Context {T U E : Type} {engine : Engine E}.
Variable queryFn : list T -> Promise U E.

Lemma invocations_app (l1 l2 : list (Event T)) :
  invocations (l1 ++ l2) = invocations l1 ++ invocations l2.
Proof.
  induction l1 as [|[b|b] l1 IH]; cbn [app invocations]; [reflexivity| |exact IH].
  now rewrite IH.
Qed.

Lemma invocations_Invoke (batches : list (list T)) :
  invocations (map Invoke batches) = batches.
Proof.
  induction batches as [|b bs IH]; [reflexivity|].
  cbn [map invocations]. now rewrite IH.
Qed.

Lemma invocations_Settle {A : Type} (f : A -> list T) (l : list A) :
  invocations (map (fun p => Settle (f p)) l) = [].
Proof. induction l as [|p l IH]; [reflexivity|exact IH]. Qed.

Lemma invocations_sequentialTrace (batches : list (list T)) :
  invocations (sequentialTrace batches) = batches.
Proof.
  induction batches as [|b bs IH]; [reflexivity|].
  cbn [sequentialTrace flat_map app invocations].
  fold (sequentialTrace bs). now rewrite IH.
Qed.

Lemma sequentialTrace_cons (b : list T) (batches : list (list T)) :
  sequentialTrace (b :: batches) =
  Invoke b :: Settle b :: sequentialTrace batches.
Proof. reflexivity. Qed.

Lemma inFlight_app (l1 l2 : list (Event T)) :
  inFlight (l1 ++ l2) = inFlight l1 + inFlight l2.
Proof.
  induction l1 as [|[b|b] l1 IH]; cbn [app inFlight]; lia.
Qed.

(** In a one-at-a-time trace at most one call is in flight at any point. *)
Lemma inFlight_sequentialTrace (batches : list (list T))
      (pre post : list (Event T)) :
  sequentialTrace batches = pre ++ post -> 0 <= inFlight pre <= 1.
Proof.
  revert pre. induction batches as [|b bs IH]; intros pre H.
  - cbn in H. symmetry in H. apply app_eq_nil in H as [-> _]. cbn. lia.
  - cbn [sequentialTrace flat_map app] in H. fold (sequentialTrace bs) in H.
    destruct pre as [|e1 [|e2 pre]]; cbn [app] in H.
    + cbn. lia.
    + injection H as <- _. cbn. lia.
    + injection H as <- <- H. cbn [inFlight].
      specialize (IH pre H). lia.
Qed.

Lemma invokedPrefix_firstn (batches : list (list T)) :
  exists k, invokedPrefix queryFn batches = firstn k batches.
Proof.
  induction batches as [|b bs [k IH]]; [now exists 0%nat|].
  cbn [invokedPrefix]. destruct (settlement (queryFn b)) as [v|e].
  - destruct (JsArray.length v <=? maxArguments).
    + exists (S k). cbn [firstn]. now rewrite IH.
    + now exists 1%nat.
  - now exists 1%nat.
Qed.

(** Nothing past a rejecting batch is in the invoked prefix. *)
Lemma invokedPrefix_stops (batches : list (list T)) (i : nat)
      (b : list T) (e : E) :
  nth_error batches i = Some b -> rejects queryFn b e ->
  exists k, (k <= S i)%nat /\ invokedPrefix queryFn batches = firstn k batches.
Proof.
  revert i. induction batches as [|x bs IH]; intros i Hi Hb.
  - destruct i; discriminate.
  - cbn [invokedPrefix]. destruct (settlement (queryFn x)) as [v|e'] eqn:Hx.
    + destruct (JsArray.length v <=? maxArguments).
      * destruct i as [|i]; cbn [nth_error] in Hi.
        -- injection Hi as ->. unfold rejects in Hb. congruence.
        -- destruct (IH i Hi Hb) as (k & Hk & Heq).
           exists (S k). split; [lia|]. cbn [firstn]. now rewrite Heq.
      * exists 1%nat. split; [lia|reflexivity].
    + exists 1%nat. split; [lia|reflexivity].
Qed.

(** When every lookup fulfils with a result that can be spread, every
    batch is invoked. *)
Lemma invokedPrefix_all (batches : list (list T)) (vs : list (list U)) :
  Forall2 (fulfils queryFn) batches vs -> spreadable vs ->
  invokedPrefix queryFn batches = batches.
Proof.
  induction 1 as [|b v bs vs' Hb _ IH]; intros Hs; [reflexivity|].
  inversion Hs as [|? ? Hv Hs']; subst.
  cbn [invokedPrefix]. unfold fulfils in Hb. rewrite Hb.
  destruct (Z.leb_spec (JsArray.length v) maxArguments); [|lia].
  now rewrite IH.
Qed.

Lemma fulfils_no_rejection (batches : list (list T)) (vs : list (list U))
      (b : list T) (e : E) :
  Forall2 (fulfils queryFn) batches vs -> In b batches ->
  rejects queryFn b e -> False.
Proof.
  induction 1 as [|x v xs vs' Hx _ IH]; intros Hb He; [destruct Hb|].
  destruct Hb as [->|Hb]; [unfold fulfils, rejects in *; congruence|auto].
Qed.

Lemma fulfils_functional (batches : list (list T)) (vs vs' : list (list U)) :
  Forall2 (fulfils queryFn) batches vs ->
  Forall2 (fulfils queryFn) batches vs' -> vs = vs'.
Proof.
  intros H. revert vs'. induction H as [|b v bs vs0 Hb _ IH]; intros vs' H'.
  - now inversion H'.
  - inversion H' as [|? v' ? vs1 Hb' Hbs']; subst.
    unfold fulfils in *. f_equal; [congruence|now apply IH].
Qed.

Lemma fulfils_ext (queryFn' : list T -> Promise U E)
      (batches : list (list T)) (vs : list (list U)) :
  (forall b, settlement (queryFn' b) = settlement (queryFn b)) ->
  Forall2 (fulfils queryFn) batches vs ->
  Forall2 (fulfils queryFn') batches vs.
Proof.
  intros Hsame. induction 1 as [|b v bs vs' Hb _ IH]; constructor; [|exact IH].
  unfold fulfils in *. now rewrite Hsame.
Qed.
End TraceFacts.

(** ** Strategy selection *)

Section SelectFacts.
Context {T : Type}.

Lemma executionStrategy_resolved (strategy : Enhanced.Strategy)
      (batches : list (list T)) (maxConcurrent : Z) :
  Enhanced.executionStrategy strategy batches maxConcurrent = Enhanced.parallel \/
  Enhanced.executionStrategy strategy batches maxConcurrent = Enhanced.sequential.
Proof.
  unfold Enhanced.executionStrategy.
  destruct strategy; auto.
  destruct (JsArray.length batches <=? maxConcurrent); auto.
Qed.

Lemma selectCall_not_chunked (fuel : nat) (ids : list T)
      (options : option Enhanced.Options) (c : Enhanced.TailCall) :
  Enhanced.selectCall fuel ids options = Some c ->
  callsChunkedParallel c = false.
Proof.
  unfold Enhanced.selectCall.
  destruct (JsArray.length ids =? 0); [now intros [= <-]|].
  destruct (JsArray.length ids <=? _); [now intros [= <-]|].
  destruct (Enhanced.splitIntoBatches _ _ _) as [batches|]; [|discriminate].
  destruct (executionStrategy_resolved
              (Enhanced.field options Enhanced.strategy Enhanced.auto) batches
              (Enhanced.field options Enhanced.maxConcurrent
                 Enhanced.DEFAULT_MAX_POOL_SIZE)) as [-> | ->];
    now intros [= <-].
Qed.

Lemma selectCall_total (fuel : nat) (ids : list T)
      (options : option Enhanced.Options) :
  0 < Enhanced.field options Enhanced.batchSize Enhanced.BATCH_SIZE ->
  (length ids < fuel)%nat ->
  exists c, Enhanced.selectCall fuel ids options = Some c /\
            Enhanced.chunksOf c =
            expectedChunks ids
              (Enhanced.field options Enhanced.batchSize Enhanced.BATCH_SIZE).
Proof.
  intros Hs Hfuel. unfold Enhanced.selectCall, expectedChunks.
  destruct (JsArray.length ids =? 0); [now eexists|].
  destruct (JsArray.length ids <=? _); [now eexists|].
  rewrite splitIntoBatches_total by assumption.
  destruct (Enhanced.executionStrategy _ _ _); now eexists.
Qed.
End SelectFacts.

(** ** What a run of the orchestrator yields *)

Section RunFacts.
Context {T U E : Type} {engine : Engine E}.
Variable queryFn : list T -> Promise U E.

(** A run of the sequential loop: the calls made are the invoked prefix,
    one at a time; it fulfils exactly when every lookup fulfils with a
    result that can be spread, with the results appended in order. *)
Lemma executeSequential_loop_run (batches : list (list T)) (results : list U) :
  exists run,
    Enhanced.executeSequential_loop queryFn batches results = Some run /\
    events run = sequentialTrace (invokedPrefix queryFn batches) /\
    (forall vs, Forall2 (fulfils queryFn) batches vs -> spreadable vs ->
                result run = Fulfilled (results ++ concat vs)) /\
    (forall out, result run = Fulfilled out ->
                 exists vs, Forall2 (fulfils queryFn) batches vs /\
                            spreadable vs /\ out = results ++ concat vs) /\
    (forall e, result run = Rejected e ->
               exists b, In b (invokedPrefix queryFn batches) /\
                         (rejects queryFn b e \/
                          (e = rangeError /\
                           exists v, fulfils queryFn b v /\
                                     maxArguments < JsArray.length v))) /\
    (forall b e, In b (invokedPrefix queryFn batches) -> rejects queryFn b e ->
                 result run = Rejected e).
Proof.
  revert results. induction batches as [|b bs IH]; intros results.
  - eexists. split; [reflexivity|]. cbn [ret events result invokedPrefix].
    split; [reflexivity|]. repeat split.
    + intros vs Hvs _. inversion Hvs. cbn [concat]. now rewrite app_nil_r.
    + intros out [= <-]. exists []. repeat split; [constructor|constructor|].
      cbn [concat]. now rewrite app_nil_r.
    + discriminate.
    + intros b e [].
  - rewrite executeSequential_loop_cons. cbn [invokedPrefix].
    destruct (settlement (queryFn b)) as [v|e] eqn:Hb.
    + destruct (Z.leb_spec (JsArray.length v) maxArguments) as [Hle|Hgt].
      * destruct (IH (results ++ v))
          as (r & Hr & Hev & Hfwd & Hbwd & Hrej & Hinv).
        rewrite Hr. eexists. split; [reflexivity|]. cbn [events result].
        split; [now rewrite sequentialTrace_cons, Hev|]. repeat split.
        -- intros vs Hvs Hs.
           inversion Hvs as [|? v' ? vs' Hb' Hvs']; subst.
           inversion Hs as [|? ? _ Hs']; subst.
           unfold fulfils in Hb'. assert (v' = v) as -> by congruence.
           rewrite (Hfwd vs' Hvs' Hs'). cbn [concat]. now rewrite app_assoc.
        -- intros out Hout.
           destruct (Hbwd out Hout) as (vs & Hvs & Hs & ->).
           exists (v :: vs). repeat split.
           ++ now constructor.
           ++ now constructor.
           ++ cbn [concat]. now rewrite app_assoc.
        -- intros e He. destruct (Hrej e He) as (b' & Hb' & H).
           exists b'. split; [now right|exact H].
        -- intros b' e [<-|Hb'] He.
           ++ unfold rejects in He. congruence.
           ++ eauto.
      * eexists. split; [reflexivity|]. cbn [events result].
        split; [reflexivity|]. repeat split.
        -- intros vs Hvs Hs.
           inversion Hvs as [|? v' ? vs' Hb' Hvs']; subst.
           inversion Hs as [|? ? Hv' Hs']; subst.
           unfold fulfils in Hb'. assert (v' = v) as -> by congruence. lia.
        -- discriminate.
        -- intros e [= <-]. exists b. split; [now left|]. right.
           split; [reflexivity|]. exists v. now split.
        -- intros b' e [<-|[]] He. unfold rejects in He. congruence.
    + eexists. split; [reflexivity|]. cbn [events result].
      split; [reflexivity|]. repeat split.
      * intros vs Hvs _. inversion Hvs as [|? v' ? vs' Hb' Hvs']; subst.
        unfold fulfils in Hb'. congruence.
      * discriminate.
      * intros e' [= <-]. exists b. split; [now left|now left].
      * intros b' e' [<-|[]] He. unfold rejects in He. congruence.
Qed.

Lemma faithfulRun_sound (chunks : list (list T)) (run : Run T E (list U)) :
  faithfulRun queryFn chunks run -> soundRun queryFn chunks run.
Proof.
  intros (Hfwd & Hbwd & Hrej & k & Hk).
  split; [|split; [|split; [|split]]].
  - intros vs Hvs _. now apply Hfwd.
  - exact Hbwd.
  - now exists k.
  - intros e He. left. now apply Hrej.
  - intros b e Hb He. destruct (result run) as [out|e'] eqn:Hres.
    + exfalso. destruct (Hbwd out eq_refl) as (vs & Hvs & _).
      apply (fulfils_no_rejection queryFn chunks vs b e Hvs); [|exact He].
      rewrite Hk in Hb. eapply firstn_incl; eauto.
    + destruct (Hrej e' eq_refl) as (b' & Hb' & He'). eauto.
Qed.

Lemma executeSequential_sound (batches : list (list T)) :
  exists run,
    Enhanced.executeSequential queryFn batches = Some run /\
    events run = sequentialTrace (invokedPrefix queryFn batches) /\
    soundRun queryFn batches run.
Proof.
  destruct (executeSequential_loop_run batches [])
    as (run & Hrun & Hev & Hfwd & Hbwd & Hrej & Hinv).
  exists run. split; [exact Hrun|]. split; [exact Hev|].
  unfold soundRun. rewrite Hev, invocations_sequentialTrace.
  split; [|split; [|split; [|split]]].
  - exact Hfwd.
  - intros out Hout. destruct (Hbwd out Hout) as (vs & Hvs & _ & ->). eauto.
  - apply invokedPrefix_firstn.
  - intros e He. destruct (Hrej e He) as (b & Hb & [H|(-> & v & Hv & Hlen)]).
    + left. eauto.
    + right. split; [reflexivity|]. eauto.
  - intros b e Hb He. exists b, e.
    split; [now apply (Hinv b e)|split; assumption].
Qed.

Lemma executeParallel_faithful (batches : list (list T)) :
  exists run,
    Enhanced.executeParallel queryFn batches = Some run /\
    invocations (events run) = batches /\
    faithfulRun queryFn batches run.
Proof.
  rewrite executeParallel_eq. cbn zeta.
  eexists. split; [reflexivity|].
  unfold faithfulRun. cbn [events result].
  rewrite invocations_app, invocations_Invoke, invocations_Settle, app_nil_r.
  split; [reflexivity|]. repeat split.
  - intros vs Hvs. destruct (pendingOf_fulfilled queryFn batches vs Hvs) as [Hv Hall].
    assert (firstRejection (completionOrder (pendingOf queryFn batches)) = None)
      as -> by (apply firstRejection_None; intros p Hp;
                apply Hall; now apply completionOrder_In).
    now rewrite Hv.
  - intros out Hout.
    destruct (firstRejection (completionOrder (pendingOf queryFn batches)))
      eqn:Hr; [discriminate|].
    injection Hout as <-. eexists. split; [|reflexivity].
    apply pendingOf_all_fulfilled. intros p Hp.
    apply (proj1 (firstRejection_None _) Hr). now apply completionOrder_In.
  - intros e He.
    destruct (firstRejection (completionOrder (pendingOf queryFn batches)))
      eqn:Hr; [|discriminate].
    injection He as ->. apply firstRejection_Some in Hr as (p & Hp & Hs).
    apply completionOrder_In, pendingOf_In in Hp as [Hin Hq].
    exists (fst p). split; [exact Hin|]. unfold rejects. now rewrite <- Hq.
  - exists (length batches). now rewrite firstn_all.
Qed.

(** The two direct returns settle as the parallel executor does on their
    chunks: nothing is spread. *)
Lemma perform_direct (fuel : nat) (ids : list T) :
  Enhanced.perform queryFn fuel Enhanced.ReturnEmpty =
    Enhanced.executeParallel queryFn [] /\
  Enhanced.perform queryFn fuel (Enhanced.ReturnQuery ids) =
    Enhanced.executeParallel queryFn [ids].
Proof.
  split; [reflexivity|].
  cbn. unfold valueOf. cbn [snd].
  destruct (settlement (queryFn ids)); [|reflexivity].
  unfold JsArray.flat. cbn [concat]. now rewrite app_nil_r.
Qed.

(** Every return but the call of the sequential executor. *)
Lemma perform_faithful (fuel : nat) (c : Enhanced.TailCall) :
  callsChunkedParallel c = false -> callsSequential c = false ->
  exists run, Enhanced.perform queryFn fuel c = Some run /\
              invocations (events run) = Enhanced.chunksOf c /\
              faithfulRun queryFn (Enhanced.chunksOf c) run.
Proof.
  destruct c as [|ids|batches|batches|batches m]; intros Hc Hs;
    try discriminate.
  - rewrite (proj1 (perform_direct fuel [])).
    apply (executeParallel_faithful []).
  - rewrite (proj2 (perform_direct fuel ids)).
    apply (executeParallel_faithful [ids]).
  - apply (executeParallel_faithful batches).
Qed.

Lemma perform_sound (fuel : nat) (c : Enhanced.TailCall) :
  callsChunkedParallel c = false ->
  exists run, Enhanced.perform queryFn fuel c = Some run /\
              soundRun queryFn (Enhanced.chunksOf c) run.
Proof.
  intros Hc. destruct (callsSequential c) eqn:Hs.
  - destruct c as [|ids|batches|batches|batches m]; try discriminate.
    destruct (executeSequential_sound batches) as (run & Hrun & _ & H).
    exists run. split; [exact Hrun|exact H].
  - destruct (perform_faithful fuel c Hc Hs) as (run & Hrun & _ & H).
    exists run. split; [exact Hrun|now apply faithfulRun_sound].
Qed.

Lemma execute_sound (fuel : nat) (ids : list T)
      (options : option Enhanced.Options) (c : Enhanced.TailCall) :
  Enhanced.selectCall fuel ids options = Some c ->
  exists run,
    Enhanced.executeBatchedQuerySmart queryFn fuel ids options = Some run /\
    soundRun queryFn (Enhanced.chunksOf c) run.
Proof.
  intros Hc. unfold Enhanced.executeBatchedQuerySmart. rewrite Hc.
  apply perform_sound. exact (selectCall_not_chunked _ _ _ _ Hc).
Qed.

Lemma execute_faithful (fuel : nat) (ids : list T)
      (options : option Enhanced.Options) (c : Enhanced.TailCall) :
  Enhanced.selectCall fuel ids options = Some c ->
  callsSequential c = false ->
  exists run,
    Enhanced.executeBatchedQuerySmart queryFn fuel ids options = Some run /\
    invocations (events run) = Enhanced.chunksOf c /\
    faithfulRun queryFn (Enhanced.chunksOf c) run.
Proof.
  intros Hc Hs. unfold Enhanced.executeBatchedQuerySmart. rewrite Hc.
  apply perform_faithful; [|exact Hs].
  exact (selectCall_not_chunked _ _ _ _ Hc).
Qed.

(** A non-positive batch size on a non-empty input: the batching loop
    never exits, so the call neither settles nor reaches the lookup. *)
Lemma execute_spins (fuel : nat) (ids : list T)
      (options : option Enhanced.Options) :
  Enhanced.field options Enhanced.batchSize Enhanced.BATCH_SIZE <= 0 ->
  ids <> [] ->
  Enhanced.executeBatchedQuerySmart queryFn fuel ids options = None.
Proof.
  intros Hs Hne.
  assert (0 < JsArray.length ids)
    by (destruct ids; [congruence|unfold JsArray.length; cbn [length]; lia]).
  unfold Enhanced.executeBatchedQuerySmart, Enhanced.selectCall.
  destruct (Z.eqb_spec (JsArray.length ids) 0); [lia|].
  destruct (Z.leb_spec (JsArray.length ids)
              (Enhanced.field options Enhanced.batchSize Enhanced.BATCH_SIZE));
    [lia|].
  unfold Enhanced.splitIntoBatches. now rewrite splitLoop_spins.
Qed.
End RunFacts.

(** The sequential loop reads only how each lookup settles. *)
Lemma executeSequential_loop_ext {T U E : Type} {engine : Engine E}
      (queryFn queryFn' : list T -> Promise U E)
      (batches : list (list T)) (results : list U) :
  (forall b, settlement (queryFn' b) = settlement (queryFn b)) ->
  Enhanced.executeSequential_loop queryFn' batches results =
  Enhanced.executeSequential_loop queryFn batches results.
Proof.
  intros Hsame. revert results.
  induction batches as [|b bs IH]; intros results; [reflexivity|].
  rewrite !executeSequential_loop_cons, Hsame.
  destruct (settlement (queryFn b)) as [v|e]; [|reflexivity].
  now rewrite IH.
Qed.

(** Two lookups that settle alike, whatever their latencies, give the same
    fulfilled output. *)
Lemma execute_latency_independent {T U E : Type} {engine : Engine E}
      (queryFn queryFn' : list T -> Promise U E) (fuel : nat) (ids : list T)
      (options : option Enhanced.Options)
      (run run' : Run T E (list U)) (out : list U) :
  (forall b, settlement (queryFn' b) = settlement (queryFn b)) ->
  Enhanced.executeBatchedQuerySmart queryFn fuel ids options = Some run ->
  Enhanced.executeBatchedQuerySmart queryFn' fuel ids options = Some run' ->
  result run = Fulfilled out -> result run' = Fulfilled out.
Proof.
  intros Hsame Hrun Hrun' Hout.
  destruct (Enhanced.selectCall fuel ids options) as [c|] eqn:Hc.
  - destruct (callsSequential c) eqn:Hs.
    + destruct c as [|?|?|batches|? ?]; try discriminate.
      unfold Enhanced.executeBatchedQuerySmart in Hrun, Hrun'.
      rewrite Hc in Hrun, Hrun'. cbn [Enhanced.perform] in Hrun, Hrun'.
      unfold Enhanced.executeSequential in Hrun, Hrun'.
      rewrite (executeSequential_loop_ext queryFn queryFn') in Hrun'
        by exact Hsame.
      congruence.
    + destruct (execute_faithful queryFn fuel ids options c Hc Hs)
        as (r & Hr & _ & _ & Hbwd & _).
      assert (r = run) as -> by congruence.
      destruct (execute_faithful queryFn' fuel ids options c Hc Hs)
        as (r' & Hr' & _ & Hfwd' & _).
      assert (r' = run') as -> by congruence.
      destruct (Hbwd out Hout) as (vs & Hvs & ->).
      apply Hfwd'. now apply (fulfils_ext queryFn).
  - unfold Enhanced.executeBatchedQuerySmart in Hrun. rewrite Hc in Hrun.
    discriminate.
Qed.

(** ** The call selected under an explicit strategy or on overflow *)

Section SelectStrategyFacts.
Context {T : Type}.

Lemma selectCall_parallel_not_sequential
      (fuel : nat) (ids : list T) (options : option Enhanced.Options)
      (c : Enhanced.TailCall) :
  strategyOf options = Enhanced.parallel ->
  Enhanced.selectCall fuel ids options = Some c ->
  callsSequential c = false.
Proof.
  unfold strategyOf, Enhanced.selectCall. intros ->.
  destruct (JsArray.length ids =? 0); [now intros [= <-]|].
  destruct (JsArray.length ids <=? _); [now intros [= <-]|].
  destruct (Enhanced.splitIntoBatches _ _ _) as [batches|]; [|discriminate].
  cbn [Enhanced.executionStrategy]. now intros [= <-].
Qed.

(** Under 'auto', more batches than maxConcurrent select the sequential
    executor. *)
Lemma selectCall_auto_overflow
      (fuel : nat) (ids : list T) (options : option Enhanced.Options) :
  strategyOf options = Enhanced.auto ->
  0 < batchSizeOf options < JsArray.length ids ->
  (length ids < fuel)%nat ->
  maxConcurrentOf options < ceilDiv (JsArray.length ids) (batchSizeOf options) ->
  Enhanced.selectCall fuel ids options =
  Some (Enhanced.CallSequential (contiguousChunks ids (batchSizeOf options))).
Proof.
  unfold strategyOf, batchSizeOf, maxConcurrentOf.
  intros Hauto [HS HN] Hfuel Hover. unfold Enhanced.selectCall.
  destruct (Z.eqb_spec (JsArray.length ids) 0); [lia|].
  destruct (Z.leb_spec (JsArray.length ids)
              (Enhanced.field options Enhanced.batchSize Enhanced.BATCH_SIZE));
    [lia|].
  rewrite splitIntoBatches_total by assumption.
  rewrite Hauto. unfold Enhanced.executionStrategy.
  rewrite contiguousChunks_length by assumption.
  destruct (Z.leb_spec
              (ceilDiv (JsArray.length ids)
                 (Enhanced.field options Enhanced.batchSize Enhanced.BATCH_SIZE))
              (Enhanced.field options Enhanced.maxConcurrent
                 Enhanced.DEFAULT_MAX_POOL_SIZE)); [lia|reflexivity].
Qed.

Lemma expectedChunks_batched (ids : list T) (batchSize : Z) :
  batchSize < JsArray.length ids -> 0 < batchSize ->
  expectedChunks ids batchSize = contiguousChunks ids batchSize.
Proof.
  intros HN HS. unfold expectedChunks.
  destruct (Z.eqb_spec (JsArray.length ids) 0); [lia|].
  destruct (Z.leb_spec (JsArray.length ids) batchSize); [lia|reflexivity].
Qed.
End SelectStrategyFacts.

Section OverflowFacts.
Context {T U E : Type} {engine : Engine E}.
Variable queryFn : list T -> Promise U E.

Lemma invokedPrefix_one (b : list T) : invokedPrefix queryFn [b] = [b].
Proof.
  cbn [invokedPrefix]. destruct (settlement (queryFn b)) as [v|e];
    [|reflexivity].
  destruct (JsArray.length v <=? maxArguments); reflexivity.
Qed.

(** Under 'auto' with more chunks than maxConcurrent the call is a
    one-at-a-time run; once batching is reached it is the sequential
    executor on the batches. *)
Lemma auto_overflow_run
      (fuel : nat) (ids : list T) (options : option Enhanced.Options) :
  strategyOf options = Enhanced.auto ->
  0 < batchSizeOf options ->
  (length ids < fuel)%nat ->
  maxConcurrentOf options < ceilDiv (JsArray.length ids) (batchSizeOf options) ->
  exists run,
    Enhanced.executeBatchedQuerySmart queryFn fuel ids options = Some run /\
    events run =
      sequentialTrace
        (invokedPrefix queryFn (expectedChunks ids (batchSizeOf options))) /\
    (forall pre post, events run = pre ++ post -> inFlight pre <= 1) /\
    (batchSizeOf options < JsArray.length ids ->
     Enhanced.executeSequential queryFn
       (contiguousChunks ids (batchSizeOf options)) = Some run).
Proof.
  intros Hauto HS Hfuel Hover.
  assert (exists run,
            Enhanced.executeBatchedQuerySmart queryFn fuel ids options
              = Some run /\
            events run =
              sequentialTrace
                (invokedPrefix queryFn
                   (expectedChunks ids (batchSizeOf options))) /\
            (batchSizeOf options < JsArray.length ids ->
             Enhanced.executeSequential queryFn
               (contiguousChunks ids (batchSizeOf options)) = Some run))
    as (run & Hrun & Hev & Hseq).
  { unfold Enhanced.executeBatchedQuerySmart, expectedChunks.
    destruct (Z.eqb_spec (JsArray.length ids) 0) as [H0|H0].
    - unfold Enhanced.selectCall.
      destruct (Z.eqb_spec (JsArray.length ids) 0); [|lia].
      eexists. split; [reflexivity|]. split; [reflexivity|]. lia.
    - destruct (Z.leb_spec (JsArray.length ids) (batchSizeOf options))
        as [Hle|Hgt].
      + unfold Enhanced.selectCall.
        destruct (Z.eqb_spec (JsArray.length ids) 0); [lia|].
        fold (batchSizeOf options).
        destruct (Z.leb_spec (JsArray.length ids) (batchSizeOf options));
          [|lia].
        rewrite invokedPrefix_one.
        cbn. destruct (settlement (queryFn ids)); eexists;
          (split; [reflexivity|]); (split; [reflexivity|]); lia.
      + rewrite selectCall_auto_overflow by (try split; assumption).
        cbn [Enhanced.perform].
        destruct (executeSequential_sound queryFn
                    (contiguousChunks ids (batchSizeOf options)))
          as (run & Hrun & Hev & _).
        exists run. split; [exact Hrun|]. split; [exact Hev|]. now intros _. }
  exists run. split; [exact Hrun|]. split; [exact Hev|]. split; [|exact Hseq].
  intros pre post Hpre. rewrite Hev in Hpre.
  apply inFlight_sequentialTrace in Hpre. lia.
Qed.
End OverflowFacts.

(** * The claims *)

Section Claims.
Context {T U E : Type} {engine : Engine E}.
Variable queryFn : list T -> Promise U E.

(** C1. Whatever the input, the configuration, the strategy and the lookup
    (in particular whatever the latencies, hence the completion order, of
    its promises), an output that a call returns is the concatenation of
    the lookup results of its chunks, taken in the order in which the
    chunks were cut from the input.  That output is returned whenever
    every chunk's lookup fulfils with a result that the engine can spread
    into push; results need not be spreadable when the return reached is
    not the call of the sequential executor, and when it is and some
    result is not, the call rejects with the engine's RangeError instead
    of returning an output.  With a positive batch size and enough fuel
    the call does settle, and its chunks are the expected ones.  A lookup
    whose promises settle alike but after other delays gives the same
    output. *)
Theorem execute_output_in_chunk_order
        (fuel : nat) (ids : list T) (options : option Enhanced.Options) :
  (forall c, Enhanced.selectCall fuel ids options = Some c ->
     exists run,
       Enhanced.executeBatchedQuerySmart queryFn fuel ids options = Some run /\
       (forall out, result run = Fulfilled out ->
                    exists vs, Forall2 (fulfils queryFn) (Enhanced.chunksOf c) vs /\
                               out = concat vs) /\
       (forall vs, Forall2 (fulfils queryFn) (Enhanced.chunksOf c) vs ->
                   spreadable vs -> result run = Fulfilled (concat vs)) /\
       (callsSequential c = false ->
        forall vs, Forall2 (fulfils queryFn) (Enhanced.chunksOf c) vs ->
                   result run = Fulfilled (concat vs)) /\
       (callsSequential c = true ->
        forall vs, Forall2 (fulfils queryFn) (Enhanced.chunksOf c) vs ->
                   ~ spreadable vs -> result run = Rejected rangeError)) /\
  (0 < batchSizeOf options -> (length ids < fuel)%nat ->
   exists c, Enhanced.selectCall fuel ids options = Some c /\
             Enhanced.chunksOf c = expectedChunks ids (batchSizeOf options)) /\
  (forall (queryFn' : list T -> Promise U E) run run' out,
     (forall b, settlement (queryFn' b) = settlement (queryFn b)) ->
     Enhanced.executeBatchedQuerySmart queryFn fuel ids options = Some run ->
     Enhanced.executeBatchedQuerySmart queryFn' fuel ids options = Some run' ->
     result run = Fulfilled out -> result run' = Fulfilled out).
Proof.
  split; [|split].
  - intros c Hc. unfold Enhanced.executeBatchedQuerySmart. rewrite Hc.
    pose proof (selectCall_not_chunked _ _ _ _ Hc) as Hnc.
    destruct (callsSequential c) eqn:Hs.
    + destruct c as [|?|?|batches|? ?]; try discriminate.
      cbn [Enhanced.perform Enhanced.chunksOf].
      destruct (executeSequential_loop_run queryFn batches [])
        as (run & Hrun & Hev & Hfwd & Hbwd & Hrej & Hinv).
      exists run. split; [exact Hrun|]. split; [|split; [|split]].
      * intros out Hout. destruct (Hbwd out Hout) as (vs & Hvs & _ & ->).
        eauto.
      * exact Hfwd.
      * discriminate.
      * intros _ vs Hvs Hns.
        destruct (result run) as [out|e] eqn:Hres.
        -- exfalso. destruct (Hbwd out eq_refl) as (vs' & Hvs' & Hs' & _).
           apply Hns.
           now rewrite (fulfils_functional queryFn batches vs vs' Hvs Hvs').
        -- destruct (Hrej e eq_refl) as (b & Hb & [He|[-> _]]);
             [|reflexivity].
           exfalso.
           apply (fulfils_no_rejection queryFn batches vs b e Hvs);
             [|exact He].
           destruct (invokedPrefix_firstn queryFn batches) as [k Hk].
           rewrite Hk in Hb. eapply firstn_incl; eauto.
    + destruct (perform_faithful queryFn fuel c Hnc Hs)
        as (run & Hrun & _ & Hfwd & Hbwd & _).
      exists run. split; [exact Hrun|]. split; [exact Hbwd|].
      split; [|split].
      * intros vs Hvs _. now apply Hfwd.
      * intros _. exact Hfwd.
      * discriminate.
  - apply selectCall_total.
  - intros queryFn' run run' out.
    apply execute_latency_independent.
Qed.

(** C3. For a positive batch size S and an input of length N, the batching
    loop ends with exactly ceil(N/S) batches; batch j is the contiguous
    slice [j*S, j*S+S) of the input; every batch but the last has exactly S
    items and the last has between 1 and S; the batches concatenated in
    order give back the input.  When N > S these batches are the chunks of
    the call that executeBatchedQuerySmart goes on to make. *)
Theorem batching_partitions_input
        (fuel : nat) (ids : list T) (size : Z)
        (maxConcurrent : option Z) (strategy : option Enhanced.Strategy) :
  0 < size -> (length ids < fuel)%nat ->
  exists batches,
    Enhanced.splitIntoBatches fuel ids size = Some batches /\
    JsArray.length batches = ceilDiv (JsArray.length ids) size /\
    (JsArray.length batches - 1) * size < JsArray.length ids
      <= JsArray.length batches * size /\
    (forall j, Z.of_nat j < JsArray.length batches ->
       nth j batches [] =
       JsArray.slice ids (Z.of_nat j * size) (Z.of_nat j * size + size)) /\
    (forall j, Z.of_nat j < JsArray.length batches - 1 ->
       JsArray.length (nth j batches []) = size) /\
    (forall j, Z.of_nat j = JsArray.length batches - 1 ->
       0 < JsArray.length (nth j batches []) <= size) /\
    concat batches = ids /\
    (size < JsArray.length ids ->
     exists c,
       Enhanced.selectCall fuel ids
         (Some (Enhanced.mkOptions (Some size) maxConcurrent strategy)) = Some c /\
       Enhanced.chunksOf c = batches).
Proof.
  intros HS Hfuel. exists (contiguousChunks ids size).
  pose proof (contiguousChunks_length ids size HS) as Hlen.
  split; [now apply splitIntoBatches_total|].
  split; [exact Hlen|]. rewrite Hlen.
  split.
  { pose proof (ceilDiv_lt_iff (JsArray.length ids) size
                  (ceilDiv (JsArray.length ids) size - 1) HS).
    pose proof (ceilDiv_lt_iff (JsArray.length ids) size
                  (ceilDiv (JsArray.length ids) size) HS).
    lia. }
  split; [intros j Hj; now apply contiguousChunks_nth|].
  split; [intros j Hj; rewrite contiguousChunks_nth by lia;
          now apply chunkAt_full|].
  split; [intros j Hj; rewrite contiguousChunks_nth by lia;
          apply chunkAt_bounds; lia|].
  split; [now apply contiguousChunks_concat|].
  intros HN.
  destruct (selectCall_total fuel ids
              (Some (Enhanced.mkOptions (Some size) maxConcurrent strategy)))
    as (c & Hc & Hch); [exact HS|exact Hfuel|].
  exists c. split; [exact Hc|]. rewrite Hch.
  cbn [Enhanced.field Enhanced.batchSize]. unfold expectedChunks.
  destruct (Z.eqb_spec (JsArray.length ids) 0); [lia|].
  destruct (Z.leb_spec (JsArray.length ids) size); [lia|reflexivity].
Qed.

(** C7 (as amended). Whenever the input is not empty and
    items.length <= batchSize, executeBatchedQuerySmart invokes the lookup
    exactly once, with the entire input, whatever the strategy and
    maxConcurrent, and settles as that single invocation does. *)
Theorem fast_path_single_lookup
        (fuel : nat) (ids : list T) (options : option Enhanced.Options) :
  0 < JsArray.length ids <= batchSizeOf options ->
  exists run,
    Enhanced.executeBatchedQuerySmart queryFn fuel ids options = Some run /\
    events run = [Invoke ids; Settle ids] /\
    invocations (events run) = [ids] /\
    result run = settlement (queryFn ids).
Proof.
  unfold batchSizeOf. intros [Hpos Hle].
  unfold Enhanced.executeBatchedQuerySmart, Enhanced.selectCall.
  destruct (Z.eqb_spec (JsArray.length ids) 0); [lia|].
  destruct (Z.leb_spec (JsArray.length ids)
              (Enhanced.field options Enhanced.batchSize Enhanced.BATCH_SIZE));
    [|lia].
  cbn. destruct (settlement (queryFn ids)); eexists; repeat split.
Qed.

(** C8. On the empty input executeBatchedQuerySmart fulfils with the empty
    output and its trace is empty (the lookup is never invoked), for every
    lookup and every configuration, and without entering any loop. *)
Theorem empty_input_returns_empty
        (fuel : nat) (options : option Enhanced.Options) :
  Enhanced.executeBatchedQuerySmart queryFn fuel [] options =
    Some (mkRun [] (Fulfilled [])).
Proof. reflexivity. Qed.

(** C9. For every input and every configuration over the declared strategy
    set, the strategy that is switched on is 'parallel' or 'sequential',
    never 'auto', so the return that executeBatchedQuerySmart reaches is
    never the call of executeChunkedParallel. *)
Theorem chunked_parallel_unreachable
        (fuel : nat) (ids : list T) (options : option Enhanced.Options)
        (c : Enhanced.TailCall) :
  Enhanced.selectCall fuel ids options = Some c ->
  callsChunkedParallel c = false /\
  (forall (strategy : Enhanced.Strategy) (batches : list (list T))
          (maxConcurrent : Z),
     Enhanced.executionStrategy strategy batches maxConcurrent
       = Enhanced.parallel \/
     Enhanced.executionStrategy strategy batches maxConcurrent
       = Enhanced.sequential).
Proof.
  intros Hc. split.
  - exact (selectCall_not_chunked _ _ _ _ Hc).
  - apply executionStrategy_resolved.
Qed.

(** C2 (as amended). When the strategy is auto and the number of chunks B
    exceeds maxConcurrent, executeBatchedQuerySmart runs the chunks one at
    a time, not in groups: the lookup is invoked on one chunk after the
    other, in chunk order, each call being made only after the previous
    one has settled, and only if it fulfilled and its rows could be spread
    into push, with never more than one call in flight.  When batching is
    reached (N > batchSize) the return taken is the call of
    executeSequential on the B batches, and the call settles as that
    executor does. *)
Theorem auto_overflow_runs_sequentially
        (fuel : nat) (ids : list T) (options : option Enhanced.Options) :
  strategyOf options = Enhanced.auto ->
  0 < batchSizeOf options ->
  (length ids < fuel)%nat ->
  maxConcurrentOf options < ceilDiv (JsArray.length ids) (batchSizeOf options) ->
  exists run,
    Enhanced.executeBatchedQuerySmart queryFn fuel ids options = Some run /\
    events run =
      sequentialTrace
        (invokedPrefix queryFn (expectedChunks ids (batchSizeOf options))) /\
    (forall pre post, events run = pre ++ post -> inFlight pre <= 1) /\
    (batchSizeOf options < JsArray.length ids ->
     exists batches,
       Enhanced.splitIntoBatches fuel ids (batchSizeOf options) = Some batches /\
       JsArray.length batches
         = ceilDiv (JsArray.length ids) (batchSizeOf options) /\
       expectedChunks ids (batchSizeOf options) = batches /\
       Enhanced.selectCall fuel ids options
         = Some (Enhanced.CallSequential batches) /\
       Enhanced.executeSequential queryFn batches = Some run).
Proof.
  intros Hauto HS Hfuel Hover.
  destruct (auto_overflow_run queryFn fuel ids options Hauto HS Hfuel Hover)
    as (run & Hexec & Hev & Hone & Hseq).
  exists run. repeat (split; [assumption|]).
  intros HN. exists (contiguousChunks ids (batchSizeOf options)).
  split; [now apply splitIntoBatches_total|].
  split; [now apply contiguousChunks_length|].
  split; [now apply expectedChunks_batched|].
  split; [now apply selectCall_auto_overflow|].
  now apply Hseq.
Qed.

(** C4. Under the auto strategy, with a positive maxConcurrent, whenever
    the number of chunks B = ceil(N/batchSize) exceeds maxConcurrent, the
    call settles and at every point of its trace the number of lookup
    invocations made and not yet settled is at most maxConcurrent (it is
    at most one). *)
Theorem auto_overflow_respects_ceiling
        (fuel : nat) (ids : list T) (options : option Enhanced.Options) :
  strategyOf options = Enhanced.auto ->
  0 < batchSizeOf options ->
  0 < maxConcurrentOf options ->
  (length ids < fuel)%nat ->
  maxConcurrentOf options < ceilDiv (JsArray.length ids) (batchSizeOf options) ->
  exists run,
    Enhanced.executeBatchedQuerySmart queryFn fuel ids options = Some run /\
    (forall pre post, events run = pre ++ post ->
                      inFlight pre <= maxConcurrentOf options).
Proof.
  intros Hauto HS Hmc Hfuel Hover.
  destruct (auto_overflow_run queryFn fuel ids options Hauto HS Hfuel Hover)
    as (run & Hrun & _ & Hone & _).
  exists run. split; [exact Hrun|].
  intros pre post Hpre. specialize (Hone pre post Hpre). lia.
Qed.

(** C5. If the lookup of any chunk of a call rejects, the call settles
    rejected and no output value is returned.  If a lookup invocation that
    the call makes rejects, the call rejects with the error of a lookup
    invocation that was made on one of its chunks and rejected (the first
    rejection observed); under the sequential executor that is the error
    of the one invocation that rejected.  A rejection of the call is that
    of such an invocation or the engine's RangeError for a lookup result
    too long to be spread into push.  Under the sequential executor, if
    the chunk at index i rejects then the invocations made are the first
    k chunks for some k <= i + 1: no chunk after i is ever invoked.  With
    a positive batch size and enough fuel the chunks are the expected
    ones. *)
Theorem rejection_fails_whole_call
        (fuel : nat) (ids : list T) (options : option Enhanced.Options) :
  (forall c, Enhanced.selectCall fuel ids options = Some c ->
     exists run,
       Enhanced.executeBatchedQuerySmart queryFn fuel ids options = Some run /\
       ((exists b e, In b (Enhanced.chunksOf c) /\ rejects queryFn b e) ->
        exists e, result run = Rejected e) /\
       (forall b e, In b (invocations (events run)) -> rejects queryFn b e ->
          exists b' e',
            result run = Rejected e' /\
            In b' (invocations (events run)) /\
            In b' (Enhanced.chunksOf c) /\ rejects queryFn b' e') /\
       (forall e, result run = Rejected e ->
          (exists b, In b (invocations (events run)) /\ rejects queryFn b e) \/
          (e = rangeError /\
           exists b v, In b (invocations (events run)) /\
                       fulfils queryFn b v /\
                       maxArguments < JsArray.length v)) /\
       (forall batches, c = Enhanced.CallSequential batches ->
          (forall b e, In b (invocations (events run)) ->
                       rejects queryFn b e -> result run = Rejected e) /\
          (forall i b e, nth_error batches i = Some b -> rejects queryFn b e ->
             exists k, (k <= i + 1)%nat /\
                       invocations (events run) = firstn k batches))) /\
  (0 < batchSizeOf options -> (length ids < fuel)%nat ->
   exists c, Enhanced.selectCall fuel ids options = Some c /\
             Enhanced.chunksOf c = expectedChunks ids (batchSizeOf options)).
Proof.
  split; [|apply selectCall_total].
  intros c Hc.
  destruct (execute_sound queryFn fuel ids options c Hc)
    as (run & Hrun & Hfwd & Hbwd & [k Hk] & Hrej & Hinv).
  exists run. split; [exact Hrun|]. split; [|split; [|split]].
  - intros (b & e & Hb & He).
    destruct (result run) as [out|e0] eqn:Hres; [|eauto].
    exfalso. destruct (Hbwd out eq_refl) as (vs & Hvs & _).
    exact (fulfils_no_rejection queryFn _ vs b e Hvs Hb He).
  - intros b e Hb He. destruct (Hinv b e Hb He) as (b' & e' & H1 & H2 & H3).
    exists b', e'. split; [exact H1|]. split; [exact H2|].
    split; [|exact H3]. rewrite Hk in H2. eapply firstn_incl; eauto.
  - exact Hrej.
  - intros batches ->.
    unfold Enhanced.executeBatchedQuerySmart in Hrun. rewrite Hc in Hrun.
    cbn [Enhanced.perform] in Hrun.
    destruct (executeSequential_loop_run queryFn batches [])
      as (run' & Hrun' & Hev & _ & _ & _ & Hstop).
    assert (run' = run) as -> by (unfold Enhanced.executeSequential in Hrun;
                                  congruence).
    rewrite Hev, invocations_sequentialTrace. split; [exact Hstop|].
    intros i bi e' Hi Hbi.
    destruct (invokedPrefix_stops queryFn batches i bi e' Hi Hbi)
      as (k' & Hk' & Heq).
    exists k'. split; [lia|exact Heq].
Qed.

(** C6 (as amended). executeBatchedQuerySmart does not validate batchSize
    or maxConcurrent and does not reject a call on their account.
    Whatever the configuration, it never rejects before it has invoked
    the lookup, and on the empty input it fulfils with the empty output.
    With a positive batchSize it settles whatever maxConcurrent is; with a
    non-positive maxConcurrent under the auto strategy, once batching is
    reached, the return taken is the call of executeSequential on the
    batches.  With a non-positive batchSize and a non-empty input the
    batching loop does not exit: the call never settles. *)
Theorem configuration_never_rejected
        (fuel : nat) (ids : list T) (options : option Enhanced.Options) :
  (forall run e,
     Enhanced.executeBatchedQuerySmart queryFn fuel ids options = Some run ->
     result run = Rejected e ->
     invocations (events run) <> []) /\
  (ids = [] ->
   Enhanced.executeBatchedQuerySmart queryFn fuel ids options =
     Some (mkRun [] (Fulfilled []))) /\
  (0 < batchSizeOf options -> (length ids < fuel)%nat ->
   exists run,
     Enhanced.executeBatchedQuerySmart queryFn fuel ids options = Some run) /\
  (maxConcurrentOf options <= 0 -> strategyOf options = Enhanced.auto ->
   0 < batchSizeOf options < JsArray.length ids -> (length ids < fuel)%nat ->
   Enhanced.selectCall fuel ids options =
     Some (Enhanced.CallSequential
             (contiguousChunks ids (batchSizeOf options))) /\
   Enhanced.executeBatchedQuerySmart queryFn fuel ids options =
     Enhanced.executeSequential queryFn
       (contiguousChunks ids (batchSizeOf options))) /\
  (batchSizeOf options <= 0 -> ids <> [] ->
   Enhanced.executeBatchedQuerySmart queryFn fuel ids options = None).
Proof.
  split; [|split; [|split; [|split]]].
  - intros run e Hrun Hres.
    destruct (Enhanced.selectCall fuel ids options) as [c|] eqn:Hc.
    + destruct (execute_sound queryFn fuel ids options c Hc)
        as (run' & Hrun' & _ & _ & _ & Hrej & _).
      assert (run' = run) as -> by congruence.
      destruct (Hrej e Hres) as [(b & Hb & _)|(_ & b & v & Hb & _)];
        intros Hnil; rewrite Hnil in Hb; destruct Hb.
    + unfold Enhanced.executeBatchedQuerySmart in Hrun. rewrite Hc in Hrun.
      discriminate.
  - intros ->. reflexivity.
  - intros HS Hfuel.
    destruct (selectCall_total fuel ids options HS Hfuel) as (c & Hc & _).
    destruct (execute_sound queryFn fuel ids options c Hc) as (run & Hrun & _).
    eauto.
  - intros Hmc Hauto HS Hfuel.
    assert (Enhanced.selectCall fuel ids options =
            Some (Enhanced.CallSequential
                    (contiguousChunks ids (batchSizeOf options)))) as Hsel.
    { apply selectCall_auto_overflow; try assumption.
      pose proof (proj1 (ceilDiv_lt_iff (JsArray.length ids)
                           (batchSizeOf options) 0 (proj1 HS))).
      lia. }
    split; [exact Hsel|].
    unfold Enhanced.executeBatchedQuerySmart. now rewrite Hsel.
  - apply execute_spins.
Qed.

(** C10. For every ids array and every lookup, the stand-alone
    executeBatchedQueryParallel of performance-test.ts yields exactly what
    the wrapper executeBatchedQueryParallel of the orchestrator does, that
    is, what executeBatchedQuerySmart does with strategy 'parallel' and the
    default batchSize of 2000: same trace of lookup invocations, same
    settlement; with enough fuel both settle. *)
Theorem standalone_parallel_agrees (fuel : nat) (ids : list T) :
  PerformanceTest.executeBatchedQueryParallel queryFn fuel ids =
    Enhanced.executeBatchedQuerySmart queryFn fuel ids
      (Some (Enhanced.mkOptions None None (Some Enhanced.parallel))) /\
  Enhanced.executeBatchedQueryParallel queryFn fuel ids =
    Enhanced.executeBatchedQuerySmart queryFn fuel ids
      (Some (Enhanced.mkOptions None None (Some Enhanced.parallel))) /\
  batchSizeOf (Some (Enhanced.mkOptions None None (Some Enhanced.parallel)))
    = 2000 /\
  ((length ids < fuel)%nat ->
   exists run,
     PerformanceTest.executeBatchedQueryParallel queryFn fuel ids = Some run /\
     faithfulRun queryFn (expectedChunks ids 2000) run).
Proof.
  assert (PerformanceTest.executeBatchedQueryParallel queryFn fuel ids =
          Enhanced.executeBatchedQuerySmart queryFn fuel ids
            (Some (Enhanced.mkOptions None None (Some Enhanced.parallel))))
    as Heq.
  { unfold PerformanceTest.executeBatchedQueryParallel,
      Enhanced.executeBatchedQuerySmart, Enhanced.selectCall.
    cbn [Enhanced.field Enhanced.batchSize Enhanced.maxConcurrent
         Enhanced.strategy Enhanced.executionStrategy].
    destruct (JsArray.length ids =? 0); [reflexivity|].
    change PerformanceTest.BATCH_SIZE with Enhanced.BATCH_SIZE.
    destruct (JsArray.length ids <=? Enhanced.BATCH_SIZE); [reflexivity|].
    rewrite splitLoop_standalone. unfold Enhanced.splitIntoBatches.
    change PerformanceTest.BATCH_SIZE with Enhanced.BATCH_SIZE.
    destruct (Enhanced.splitLoop fuel ids Enhanced.BATCH_SIZE 0 [])
      as [batches|]; [|reflexivity].
    cbn [lift Enhanced.perform]. unfold ret at 1. cbn [bind result events app].
    fold (Enhanced.executeParallel queryFn batches).
    destruct (Enhanced.executeParallel queryFn batches) as [[evs res]|];
      reflexivity. }
  split; [exact Heq|]. split; [reflexivity|]. split; [reflexivity|].
  intros Hfuel. rewrite Heq.
  destruct (selectCall_total fuel ids
              (Some (Enhanced.mkOptions None None (Some Enhanced.parallel))))
    as (c & Hc & Hch); [reflexivity|exact Hfuel|].
  destruct (execute_faithful queryFn fuel ids _ c Hc) as (run & Hrun & _ & Hf).
  { now apply (selectCall_parallel_not_sequential fuel ids
                 (Some (Enhanced.mkOptions None None (Some Enhanced.parallel)))). }
  exists run. split; [exact Hrun|]. now rewrite Hch in Hf.
Qed.
End Claims.

(** * The statements at concrete inputs *)

(** C1 at five ids in batches of two, all three lookups in parallel: the
    output follows the batches, not the order in which they complete.
    On an engine that spreads at most two arguments, the same ids in
    batches of three run sequentially are rejected with the RangeError
    (code 0). *)
Lemma execute_output_in_chunk_order_witness :
  (exists run,
     Enhanced.executeBatchedQuerySmart Sample.lookup 10 [3; 2; 1; 5; 4]
       (Sample.config 2 3 Enhanced.parallel) = Some run /\
     result run = Fulfilled [30; 20; 10; 50; 40]) /\
  (exists run,
     Enhanced.executeBatchedQuerySmart (engine := Sample.tiny)
       Sample.lookup 10 [3; 2; 1; 5; 4]
       (Sample.config 3 3 Enhanced.sequential) = Some run /\
     result run = Rejected 0%nat).
Proof.
  split.
  - destruct (proj1 (execute_output_in_chunk_order Sample.lookup 10
                       [3; 2; 1; 5; 4] (Sample.config 2 3 Enhanced.parallel))
                (Enhanced.CallParallel [[3; 2]; [1; 5]; [4]]) eq_refl)
      as (run & Hexec & _ & _ & Hpar & _).
    exists run. split; [exact Hexec|].
    apply (Hpar eq_refl [[30; 20]; [10; 50]; [40]]).
    repeat constructor.
  - destruct (proj1 (execute_output_in_chunk_order (engine := Sample.tiny)
                       Sample.lookup 10 [3; 2; 1; 5; 4]
                       (Sample.config 3 3 Enhanced.sequential))
                (Enhanced.CallSequential [[3; 2; 1]; [5; 4]]) eq_refl)
      as (run & Hexec & _ & _ & _ & Hseq).
    exists run. split; [exact Hexec|].
    apply (Hseq eq_refl [[30; 20; 10]; [50; 40]]).
    + repeat constructor.
    + intros H. apply Forall_inv in H. vm_compute in H. now apply H.
Defined.

(** C3 at seven ids in batches of three. *)
Lemma batching_partitions_input_witness :
  0 < 3 /\ (length [1; 2; 3; 4; 5; 6; 7] < 10)%nat /\
  exists batches,
    Enhanced.splitIntoBatches 10 [1; 2; 3; 4; 5; 6; 7] 3 = Some batches /\
    JsArray.length batches = 3 /\
    concat batches = [1; 2; 3; 4; 5; 6; 7].
Proof.
  split; [reflexivity|]. split; [vm_compute; lia|].
  destruct (batching_partitions_input 10 [1; 2; 3; 4; 5; 6; 7] 3 None None
              eq_refl ltac:(vm_compute; lia))
    as (batches & Hsplit & Hlen & _ & _ & _ & _ & Hcat & _).
  exists batches. split; [exact Hsplit|]. split; [|exact Hcat].
  rewrite Hlen. reflexivity.
Defined.

(** C7 (as amended) at three ids and a batch size of five, strategy
    'sequential'. *)
Lemma fast_path_single_lookup_witness :
  0 < JsArray.length [3; 2; 1]
    <= batchSizeOf (Sample.config 5 10 Enhanced.sequential) /\
  exists run,
    Enhanced.executeBatchedQuerySmart Sample.lookup 0 [3; 2; 1]
      (Sample.config 5 10 Enhanced.sequential) = Some run /\
    events run = [Invoke [3; 2; 1]; Settle [3; 2; 1]] /\
    invocations (events run) = [[3; 2; 1]] /\
    result run = settlement (Sample.lookup [3; 2; 1]).
Proof.
  assert (0 < JsArray.length [3; 2; 1]
          <= batchSizeOf (Sample.config 5 10 Enhanced.sequential)) as H
    by (vm_compute; split; [reflexivity|discriminate]).
  split; [exact H|].
  exact (fast_path_single_lookup Sample.lookup 0 [3; 2; 1]
           (Sample.config 5 10 Enhanced.sequential) H).
Defined.

(** C7 as stated fails on the empty input: its length is at most the batch
    size, yet the lookup is not invoked at all. *)
Lemma fast_path_skipped_on_empty_input :
  JsArray.length (@nil Z) <= batchSizeOf (Sample.config 5 10 Enhanced.auto) /\
  Enhanced.executeBatchedQuerySmart Sample.lookup 0 []
    (Sample.config 5 10 Enhanced.auto) = Some (mkRun [] (Fulfilled [])) /\
  ~ (exists run,
       Enhanced.executeBatchedQuerySmart Sample.lookup 0 []
         (Sample.config 5 10 Enhanced.auto) = Some run /\
       invocations (events run) = [[]]).
Proof.
  split; [vm_compute; discriminate|]. split; [reflexivity|].
  intros (run & Hrun & Hinv). injection Hrun as <-. discriminate.
Qed.

(** C9 at three ids in batches of one with maxConcurrent 2: the call
    selected under 'auto' is the sequential one. *)
Lemma chunked_parallel_unreachable_witness :
  Enhanced.selectCall 10 [3; 2; 1] (Sample.config 1 2 Enhanced.auto) =
    Some (Enhanced.CallSequential [[3]; [2]; [1]]) /\
  callsChunkedParallel (Enhanced.CallSequential [[3]; [2]; [1]]) = false.
Proof.
  assert (Enhanced.selectCall 10 [3; 2; 1] (Sample.config 1 2 Enhanced.auto) =
          Some (Enhanced.CallSequential [[3]; [2]; [1]])) as H by reflexivity.
  split; [exact H|].
  exact (proj1 (chunked_parallel_unreachable 10 [3; 2; 1]
                  (Sample.config 1 2 Enhanced.auto) _ H)).
Defined.

(** C2 as stated fails: three batches, maxConcurrent 2, strategy auto.
    The call invokes the lookup on one batch at a time, whereas the
    chunked-parallel executor would have the first two in flight
    together. *)
Lemma auto_overflow_is_not_chunked_parallel :
  strategyOf (Sample.config 1 2 Enhanced.auto) = Enhanced.auto /\
  Enhanced.splitIntoBatches 10 [3; 2; 1] 1 = Some [[3]; [2]; [1]] /\
  maxConcurrentOf (Sample.config 1 2 Enhanced.auto)
    < JsArray.length [[3]; [2]; [1]] /\
  Enhanced.executeBatchedQuerySmart Sample.lookup 10 [3; 2; 1]
    (Sample.config 1 2 Enhanced.auto) =
    Some (mkRun [Invoke [3]; Settle [3]; Invoke [2]; Settle [2];
                 Invoke [1]; Settle [1]]
                (Fulfilled [30; 20; 10])) /\
  Enhanced.executeChunkedParallel Sample.lookup 10 [[3]; [2]; [1]] 2 =
    Some (mkRun [Invoke [3]; Invoke [2]; Settle [2]; Settle [3];
                 Invoke [1]; Settle [1]]
                (Fulfilled [30; 20; 10])) /\
  Enhanced.executeBatchedQuerySmart Sample.lookup 10 [3; 2; 1]
    (Sample.config 1 2 Enhanced.auto) <>
  Enhanced.executeChunkedParallel Sample.lookup 10 [[3]; [2]; [1]] 2 /\
  peakInFlight 0 [Invoke [3]; Settle [3]; Invoke [2]; Settle [2];
                  Invoke [1]; Settle [1]] = 1 /\
  peakInFlight 0 [Invoke [3]; Invoke [2]; Settle [2]; Settle [3];
                  Invoke [1]; Settle [1]] = 2.
Proof.
  repeat split; try reflexivity. vm_compute. discriminate.
Qed.

(** C2 (as amended) on the same input. *)
Lemma auto_overflow_runs_sequentially_witness :
  exists run,
    Enhanced.executeBatchedQuerySmart Sample.lookup 10 [3; 2; 1]
      (Sample.config 1 2 Enhanced.auto) = Some run /\
    Enhanced.executeSequential Sample.lookup [[3]; [2]; [1]] = Some run /\
    events run = [Invoke [3]; Settle [3]; Invoke [2]; Settle [2];
                  Invoke [1]; Settle [1]].
Proof.
  destruct (auto_overflow_runs_sequentially Sample.lookup 10 [3; 2; 1]
              (Sample.config 1 2 Enhanced.auto))
    as (run & H1 & H2 & _ & H3).
  - reflexivity.
  - reflexivity.
  - vm_compute. lia.
  - reflexivity.
  - destruct (H3 eq_refl) as (batches & Hsplit & _ & _ & _ & Hseq).
    injection Hsplit as <-.
    exists run. split; [exact H1|]. split; [exact Hseq|exact H2].
Defined.

(** C4 on the same input: never more than maxConcurrent = 2 in flight. *)
Lemma auto_overflow_respects_ceiling_witness :
  exists run,
    Enhanced.executeBatchedQuerySmart Sample.lookup 10 [3; 2; 1]
      (Sample.config 1 2 Enhanced.auto) = Some run /\
    (forall pre post, events run = pre ++ post -> inFlight pre <= 2).
Proof.
  apply (auto_overflow_respects_ceiling Sample.lookup 10 [3; 2; 1]
           (Sample.config 1 2 Enhanced.auto)).
  - reflexivity.
  - reflexivity.
  - reflexivity.
  - vm_compute. lia.
  - reflexivity.
Defined.

(** C5 with four batches of which the second and the fourth reject, run
    sequentially: the call rejects with the second batch's error and the
    last two batches are never invoked. *)
Lemma rejection_fails_whole_call_witness :
  exists run,
    Enhanced.executeBatchedQuerySmart Sample.lookup 10 [3; -13; 1; -7]
      (Sample.config 1 2 Enhanced.sequential) = Some run /\
    (exists e, result run = Rejected e) /\
    (exists k, (k <= 1 + 1)%nat /\
               invocations (events run) = firstn k [[3]; [-13]; [1]; [-7]]).
Proof.
  destruct (proj1 (rejection_fails_whole_call Sample.lookup 10 [3; -13; 1; -7]
                     (Sample.config 1 2 Enhanced.sequential))
              (Enhanced.CallSequential [[3]; [-13]; [1]; [-7]]) eq_refl)
    as (run & Hrun & Hres & _ & _ & Hseq).
  exists run. split; [exact Hrun|]. split.
  - apply Hres. exists [-13], 13%nat. split; [vm_compute; auto|reflexivity].
  - exact (proj2 (Hseq _ eq_refl) 1%nat [-13] 13%nat eq_refl eq_refl).
Defined.

(** C6 as stated fails: with maxConcurrent = 0 the call is not rejected,
    the lookup is invoked on both batches and the call fulfils; with
    batchSize = 0 and the empty input the call fulfils as well. *)
Lemma nonpositive_configuration_not_rejected :
  maxConcurrentOf (Sample.config 1 0 Enhanced.auto) <= 0 /\
  Enhanced.executeBatchedQuerySmart Sample.lookup 10 [1; 2]
    (Sample.config 1 0 Enhanced.auto) =
    Some (mkRun [Invoke [1]; Settle [1]; Invoke [2]; Settle [2]]
                (Fulfilled [10; 20])) /\
  batchSizeOf (Sample.config 0 10 Enhanced.auto) <= 0 /\
  Enhanced.executeBatchedQuerySmart Sample.lookup 10 []
    (Sample.config 0 10 Enhanced.auto) = Some (mkRun [] (Fulfilled [])).
Proof.
  repeat split; try reflexivity; vm_compute; discriminate.
Qed.

(** C6 (as amended) with maxConcurrent = 0 on three ids in batches of
    one: the call is the sequential executor on the three batches. *)
Lemma configuration_never_rejected_witness :
  Enhanced.selectCall 10 [3; -13; 1] (Sample.config 1 0 Enhanced.auto) =
    Some (Enhanced.CallSequential [[3]; [-13]; [1]]) /\
  Enhanced.executeBatchedQuerySmart Sample.lookup 10 [3; -13; 1]
    (Sample.config 1 0 Enhanced.auto) =
    Enhanced.executeSequential Sample.lookup [[3]; [-13]; [1]].
Proof.
  apply (configuration_never_rejected Sample.lookup 10 [3; -13; 1]
           (Sample.config 1 0 Enhanced.auto)).
  - vm_compute. discriminate.
  - reflexivity.
  - vm_compute. split; reflexivity.
  - vm_compute. lia.
Defined.

(** C10 at three ids. *)
Lemma standalone_parallel_agrees_witness :
  (length [1; 2; 3] < 5)%nat /\
  exists run,
    PerformanceTest.executeBatchedQueryParallel Sample.lookup 5 [1; 2; 3]
      = Some run /\
    Enhanced.executeBatchedQueryParallel Sample.lookup 5 [1; 2; 3] = Some run.
Proof.
  split; [vm_compute; lia|].
  destruct (standalone_parallel_agrees Sample.lookup 5 [1; 2; 3])
    as (Heq & Hwrap & _ & Hrun).
  destruct (Hrun ltac:(vm_compute; lia)) as (run & Hexec & _).
  exists run. split; [exact Hexec|]. now rewrite Hwrap, <- Heq.
Defined.

(** * Further properties of the code *)

(** ** Calls in flight *)

Section InFlightFacts.
Context {T U E : Type}.
Variable queryFn : list T -> Promise U E.

Lemma inFlight_Invoke (batches : list (list T)) :
  inFlight (map Invoke batches) = JsArray.length batches.
Proof.
  unfold JsArray.length.
  induction batches as [|b bs IH]; cbn [map inFlight List.length]; lia.
Qed.

Lemma inFlight_Settle {A : Type} (f : A -> list T) (l : list A) :
  inFlight (map (fun p => Settle (f p)) l) = - Z.of_nat (length l).
Proof.
  induction l as [|p l IH]; cbn [map inFlight List.length]; lia.
Qed.

Lemma insertByLatency_length (p : @Pending T U E) (l : list Pending) :
  length (insertByLatency p l) = S (length l).
Proof.
  induction l as [|x l IH]; cbn [insertByLatency]; [reflexivity|].
  destruct (latency (snd p) <=? latency (snd x))%nat; cbn [List.length]; lia.
Qed.

Lemma completionOrder_length (ps : list (@Pending T U E)) :
  length (completionOrder ps) = length ps.
Proof.
  induction ps as [|p ps IH]; [reflexivity|].
  cbn [completionOrder fold_right]. fold (completionOrder ps).
  rewrite insertByLatency_length. cbn [List.length]. lia.
Qed.

Lemma inFlightWithin_nil (m : Z) : 0 <= m -> inFlightWithin m (@nil (Event T)).
Proof.
  intros Hm pre post H. symmetry in H. apply app_eq_nil in H as [-> _].
  cbn. lia.
Qed.

Lemma inFlightWithin_mono (m m' : Z) (evs : list (Event T)) :
  m <= m' -> inFlightWithin m evs -> inFlightWithin m' evs.
Proof. intros Hm H pre post Heq. specialize (H pre post Heq). lia. Qed.

(** A trace that ends with nothing in flight can be followed by another. *)
Lemma inFlightWithin_app (m : Z) (l1 l2 : list (Event T)) :
  inFlightWithin m l1 -> inFlight l1 = 0 -> inFlightWithin m l2 ->
  inFlightWithin m (l1 ++ l2).
Proof.
  intros H1 H0 H2 pre post Heq.
  apply app_eq_app in Heq as [mid [[-> ->]|[-> ->]]].
  - apply (H1 pre mid eq_refl).
  - rewrite inFlight_app, H0. apply (H2 mid post eq_refl).
Qed.

(** A group of calls started together: never more in flight than the
    group has calls, and none once all have settled. *)
Lemma inFlightWithin_group {A : Type} (f : A -> list T)
      (batches : list (list T)) (done : list A) :
  length done = length batches ->
  inFlightWithin (JsArray.length batches)
    (map Invoke batches ++ map (fun p => Settle (f p)) done) /\
  inFlight (map Invoke batches ++ map (fun p => Settle (f p)) done) = 0.
Proof.
  intros Hlen. split.
  - intros pre post Heq.
    apply app_eq_app in Heq as [mid [[Hpre ->]|[-> Hpost]]].
    + apply map_eq_app in Hpre as (b1 & b2 & -> & <- & _).
      rewrite inFlight_Invoke. unfold JsArray.length.
      rewrite length_app. lia.
    + apply map_eq_app in Hpost as (d1 & d2 & Hd & <- & _).
      rewrite inFlight_app, inFlight_Invoke, inFlight_Settle.
      unfold JsArray.length. rewrite <- Hlen, Hd, length_app. lia.
  - rewrite inFlight_app, inFlight_Invoke, inFlight_Settle.
    unfold JsArray.length. lia.
Qed.

Lemma inFlightWithin_sequentialTrace (batches : list (list T)) :
  inFlightWithin 1 (sequentialTrace batches).
Proof.
  intros pre post H. now apply inFlight_sequentialTrace in H.
Qed.

Lemma pendingOf_length (batches : list (list T)) :
  length (pendingOf queryFn batches) = length batches.
Proof. unfold pendingOf. apply length_map. Qed.

(** The trace of [executeParallel]. *)
Lemma executeParallel_events (batches : list (list T)) :
  exists run,
    Enhanced.executeParallel queryFn batches = Some run /\
    events run =
      map Invoke batches ++
      map (fun p => Settle (fst p)) (completionOrder (pendingOf queryFn batches)) /\
    inFlightWithin (JsArray.length batches) (events run).
Proof.
  rewrite executeParallel_eq. cbn zeta. eexists.
  split; [reflexivity|]. cbn [events]. split; [reflexivity|].
  apply inFlightWithin_group.
  now rewrite completionOrder_length, pendingOf_length.
Qed.
End InFlightFacts.

(** ** The expected chunks and the call selected *)

Section ExpectedChunkFacts.
Context {T : Type}.
Variables (ids : list T) (batchSize : Z).
Hypothesis batchSize_pos : 0 < batchSize.

Lemma ceilDiv_small :
  (JsArray.length ids = 0 -> ceilDiv (JsArray.length ids) batchSize = 0) /\
  (0 < JsArray.length ids <= batchSize ->
   ceilDiv (JsArray.length ids) batchSize = 1).
Proof.
  pose proof (ceilDiv_lt_iff (JsArray.length ids) batchSize 0 batchSize_pos).
  pose proof (ceilDiv_lt_iff (JsArray.length ids) batchSize 1 batchSize_pos).
  pose proof (ceilDiv_le_self (JsArray.length ids) batchSize batchSize_pos
                ltac:(unfold JsArray.length; lia)).
  split; intros; lia.
Qed.

Lemma expectedChunks_concat : concat (expectedChunks ids batchSize) = ids.
Proof.
  unfold expectedChunks.
  destruct (Z.eqb_spec (JsArray.length ids) 0) as [H0|H0].
  - destruct ids; [reflexivity|]. unfold JsArray.length in H0.
    cbn [List.length] in H0. lia.
  - destruct (JsArray.length ids <=? batchSize).
    + cbn. apply app_nil_r.
    + now apply contiguousChunks_concat.
Qed.

Lemma expectedChunks_length :
  JsArray.length (expectedChunks ids batchSize) =
  ceilDiv (JsArray.length ids) batchSize.
Proof.
  unfold expectedChunks.
  destruct (Z.eqb_spec (JsArray.length ids) 0) as [H0|H0].
  - now rewrite (proj1 ceilDiv_small H0).
  - destruct (Z.leb_spec (JsArray.length ids) batchSize).
    + rewrite (proj2 ceilDiv_small); [reflexivity|].
      unfold JsArray.length in *. lia.
    + now apply contiguousChunks_length.
Qed.

Lemma expectedChunks_bounds (b : list T) :
  In b (expectedChunks ids batchSize) -> 0 < JsArray.length b <= batchSize.
Proof.
  unfold expectedChunks.
  destruct (Z.eqb_spec (JsArray.length ids) 0) as [H0|H0]; [intros []|].
  destruct (Z.leb_spec (JsArray.length ids) batchSize).
  - intros [<-|[]]. unfold JsArray.length in *. lia.
  - unfold contiguousChunks. rewrite in_map_iff.
    intros (j & <- & Hj). apply in_seq in Hj.
    apply chunkAt_bounds; [assumption|].
    pose proof (ceilDiv_le_self (JsArray.length ids) batchSize batchSize_pos
                  ltac:(unfold JsArray.length; lia)).
    lia.
Qed.
End ExpectedChunkFacts.

Section SelectMoreFacts.
Context {T : Type}.

(** Once batching is reached the return taken is fixed by the resolved
    strategy. *)
Lemma selectCall_batched (fuel : nat) (ids : list T)
      (options : option Enhanced.Options) :
  0 < batchSizeOf options < JsArray.length ids ->
  (length ids < fuel)%nat ->
  Enhanced.selectCall fuel ids options =
  Some (match Enhanced.executionStrategy (strategyOf options)
                (contiguousChunks ids (batchSizeOf options))
                (maxConcurrentOf options) with
        | Enhanced.parallel =>
            Enhanced.CallParallel (contiguousChunks ids (batchSizeOf options))
        | Enhanced.sequential =>
            Enhanced.CallSequential (contiguousChunks ids (batchSizeOf options))
        | Enhanced.auto =>
            Enhanced.CallChunkedParallel
              (contiguousChunks ids (batchSizeOf options))
              (maxConcurrentOf options)
        end).
Proof.
  unfold batchSizeOf, maxConcurrentOf, strategyOf.
  intros [HS HN] Hfuel. unfold Enhanced.selectCall.
  destruct (Z.eqb_spec (JsArray.length ids) 0); [lia|].
  destruct (Z.leb_spec (JsArray.length ids)
              (Enhanced.field options Enhanced.batchSize Enhanced.BATCH_SIZE));
    [lia|].
  rewrite splitIntoBatches_total by assumption.
  destruct (Enhanced.executionStrategy _ _ _); reflexivity.
Qed.
End SelectMoreFacts.

Section RunMoreFacts.
Context {T U E : Type} {engine : Engine E}.
Variable queryFn : list T -> Promise U E.

Lemma execute_run (fuel : nat) (ids : list T)
      (options : option Enhanced.Options) :
  0 < batchSizeOf options -> (length ids < fuel)%nat ->
  exists run,
    Enhanced.executeBatchedQuerySmart queryFn fuel ids options = Some run /\
    soundRun queryFn (expectedChunks ids (batchSizeOf options)) run.
Proof.
  intros HS Hfuel.
  destruct (selectCall_total fuel ids options HS Hfuel) as (c & Hc & Hch).
  destruct (execute_sound queryFn fuel ids options c Hc) as (run & Hrun & Hf).
  exists run. split; [exact Hrun|]. fold (batchSizeOf options) in Hch.
  now rewrite <- Hch.
Qed.

(** With the strategy 'parallel' the whole call is the parallel executor
    on the expected chunks, direct returns included; with the strategy
    'sequential' it is the sequential executor once batching is
    reached. *)
Lemma execute_explicit (fuel : nat) (ids : list T)
      (options : option Enhanced.Options) :
  0 < batchSizeOf options -> (length ids < fuel)%nat ->
  (strategyOf options = Enhanced.parallel ->
   Enhanced.executeBatchedQuerySmart queryFn fuel ids options =
   Enhanced.executeParallel queryFn (expectedChunks ids (batchSizeOf options))) /\
  (strategyOf options = Enhanced.sequential ->
   batchSizeOf options < JsArray.length ids ->
   Enhanced.executeBatchedQuerySmart queryFn fuel ids options =
   Enhanced.executeSequential queryFn (expectedChunks ids (batchSizeOf options))).
Proof.
  intros HS Hfuel.
  unfold Enhanced.executeBatchedQuerySmart, expectedChunks.
  destruct (Z.eqb_spec (JsArray.length ids) 0) as [H0|H0].
  { unfold Enhanced.selectCall.
    destruct (Z.eqb_spec (JsArray.length ids) 0); [|lia].
    split; [reflexivity|lia]. }
  destruct (Z.leb_spec (JsArray.length ids) (batchSizeOf options)) as [Hle|Hgt].
  { unfold Enhanced.selectCall.
    destruct (Z.eqb_spec (JsArray.length ids) 0); [lia|].
    fold (batchSizeOf options).
    destruct (Z.leb_spec (JsArray.length ids) (batchSizeOf options)); [|lia].
    split; [intros _; apply perform_direct|lia]. }
  rewrite selectCall_batched by (try split; assumption).
  split; [intros ->|intros -> _]; reflexivity.
Qed.

(** Whatever the options, a call with a positive batch size is one of the
    two reachable executors run on the expected chunks; the direct
    returns are the parallel executor on no chunk or on one. *)
Lemma execute_is_executor (fuel : nat) (ids : list T)
      (options : option Enhanced.Options) :
  0 < batchSizeOf options -> (length ids < fuel)%nat ->
  Enhanced.executeBatchedQuerySmart queryFn fuel ids options =
    Enhanced.executeParallel queryFn (expectedChunks ids (batchSizeOf options)) \/
  Enhanced.executeBatchedQuerySmart queryFn fuel ids options =
    Enhanced.executeSequential queryFn (expectedChunks ids (batchSizeOf options)).
Proof.
  intros HS Hfuel.
  unfold Enhanced.executeBatchedQuerySmart, expectedChunks.
  destruct (Z.eqb_spec (JsArray.length ids) 0) as [H0|H0].
  { unfold Enhanced.selectCall.
    destruct (Z.eqb_spec (JsArray.length ids) 0); [|lia]. now left. }
  destruct (Z.leb_spec (JsArray.length ids) (batchSizeOf options)) as [Hle|Hgt].
  { unfold Enhanced.selectCall.
    destruct (Z.eqb_spec (JsArray.length ids) 0); [lia|].
    fold (batchSizeOf options).
    destruct (Z.leb_spec (JsArray.length ids) (batchSizeOf options)); [|lia].
    left. apply perform_direct. }
  rewrite selectCall_batched by (try split; assumption).
  destruct (executionStrategy_resolved (strategyOf options)
              (contiguousChunks ids (batchSizeOf options))
              (maxConcurrentOf options)) as [-> | ->]; [now left|now right].
Qed.

(** A call whose batches, if any, go to the sequential executor: the
    lookup is invoked on the chunks one at a time, up to and including
    the first one whose lookup rejects or whose result cannot be spread;
    an invoked chunk that rejects gives the call its error. *)
Lemma oneAtATime_run (fuel : nat) (ids : list T)
      (options : option Enhanced.Options) :
  0 < batchSizeOf options -> (length ids < fuel)%nat ->
  (batchSizeOf options < JsArray.length ids ->
   Enhanced.selectCall fuel ids options =
   Some (Enhanced.CallSequential (contiguousChunks ids (batchSizeOf options)))) ->
  exists run,
    Enhanced.executeBatchedQuerySmart queryFn fuel ids options = Some run /\
    events run =
      sequentialTrace
        (invokedPrefix queryFn (expectedChunks ids (batchSizeOf options))) /\
    (forall b e,
       In b (invokedPrefix queryFn (expectedChunks ids (batchSizeOf options))) ->
       rejects queryFn b e -> result run = Rejected e).
Proof.
  intros HS Hfuel Hsel.
  unfold Enhanced.executeBatchedQuerySmart, expectedChunks.
  destruct (Z.eqb_spec (JsArray.length ids) 0) as [H0|H0].
  - unfold Enhanced.selectCall.
    destruct (Z.eqb_spec (JsArray.length ids) 0); [|lia].
    eexists. split; [reflexivity|]. split; [reflexivity|]. intros b e' [].
  - destruct (Z.leb_spec (JsArray.length ids) (batchSizeOf options))
      as [Hle|Hgt].
    + unfold Enhanced.selectCall.
      destruct (Z.eqb_spec (JsArray.length ids) 0); [lia|].
      fold (batchSizeOf options).
      destruct (Z.leb_spec (JsArray.length ids) (batchSizeOf options));
        [|lia].
      rewrite invokedPrefix_one. unfold rejects.
      cbn. destruct (settlement (queryFn ids)) eqn:Hs; eexists;
        (split; [reflexivity|]); (split; [reflexivity|]);
        intros b e' [<-|[]] He; cbn [result]; congruence.
    + rewrite (Hsel Hgt). cbn [Enhanced.perform].
      destruct (executeSequential_loop_run queryFn
                  (contiguousChunks ids (batchSizeOf options)) [])
        as (run & Hrun & Hev & _ & _ & _ & Hstop).
      exists run. split; [exact Hrun|]. split; [exact Hev|exact Hstop].
Qed.

(** Up to the first batch that rejects, when the earlier ones fulfil with
    results that can be spread. *)
Lemma invokedPrefix_first_rejection (pre post : list (list T))
      (b : list T) (e : E) :
  Forall (fun x => exists v, fulfils queryFn x v /\
                             JsArray.length v <= maxArguments) pre ->
  rejects queryFn b e ->
  invokedPrefix queryFn (pre ++ b :: post) = pre ++ [b].
Proof.
  intros Hpre Hb. induction Hpre as [|x pre (v & Hx & Hv) _ IH].
  - cbn [app invokedPrefix]. unfold rejects in Hb. now rewrite Hb.
  - cbn [app invokedPrefix]. unfold fulfils in Hx. rewrite Hx.
    destruct (Z.leb_spec (JsArray.length v) maxArguments); [|lia].
    now rewrite IH.
Qed.

Lemma fulfils_spreadable (chunks : list (list T)) (vs : list (list U)) :
  Forall2 (fulfils queryFn) chunks vs ->
  (forall b v, In b chunks -> fulfils queryFn b v ->
               JsArray.length v <= maxArguments) ->
  spreadable vs.
Proof.
  intros Hvs. unfold spreadable.
  induction Hvs as [|b v bs vs' Hb _ IH]; intros Hall; constructor.
  - apply (Hall b v); [now left|exact Hb].
  - apply IH. intros b' v' Hb'. apply Hall. now right.
Qed.
End RunMoreFacts.

(** ** Lookups that distribute over concatenation *)

Section Transparency.
Context {T U E : Type} {engine : Engine E}.
Variable queryFn : list T -> Promise U E.
Variable g : list T -> list U.
Hypothesis g_app : forall a b, g (a ++ b) = g a ++ g b.

Lemma distributes_nil : g [] = [].
Proof.
  pose proof (g_app [] []) as H. cbn [app] in H.
  apply (f_equal (@List.length U)) in H. rewrite length_app in H.
  destruct (g []); [reflexivity|cbn [List.length] in H; lia].
Qed.

Lemma distributes_concat (chunks : list (list T)) :
  concat (map g chunks) = g (concat chunks).
Proof.
  induction chunks as [|c cs IH]; cbn [map concat];
    [now rewrite distributes_nil|now rewrite g_app, IH].
Qed.

Lemma fulfils_all (chunks : list (list T)) :
  (forall b, In b chunks -> fulfils queryFn b (g b)) ->
  Forall2 (fulfils queryFn) chunks (map g chunks).
Proof.
  intros Hq. induction chunks as [|c cs IH]; constructor.
  - apply Hq. now left.
  - apply IH. intros b Hb. apply Hq. now right.
Qed.

Lemma spreadable_all (chunks : list (list T)) :
  (forall b, In b chunks -> JsArray.length (g b) <= maxArguments) ->
  spreadable (map g chunks).
Proof.
  intros Hq. induction chunks as [|c cs IH]; constructor.
  - apply Hq. now left.
  - apply IH. intros b Hb. apply Hq. now right.
Qed.

Lemma faithfulRun_transparent (chunks : list (list T))
      (run : Run T E (list U)) :
  faithfulRun queryFn chunks run ->
  (forall b, In b chunks -> fulfils queryFn b (g b)) ->
  result run = Fulfilled (g (concat chunks)).
Proof.
  intros (Hfwd & _) Hq.
  now rewrite (Hfwd _ (fulfils_all chunks Hq)), distributes_concat.
Qed.

(** The rows of a run of consecutive chunks are no more than the rows of
    all the chunks. *)
Lemma group_rows_bounded (chunks : list (list T)) (a b : nat)
      (ws : list (list U)) :
  (forall c, In c chunks -> fulfils queryFn c (g c)) ->
  Forall2 (fulfils queryFn) (firstn a (skipn b chunks)) ws ->
  (length (concat ws) <= length (g (concat chunks)))%nat.
Proof.
  intros Hq Hws.
  assert (Forall2 (fulfils queryFn) (firstn a (skipn b chunks))
            (map g (firstn a (skipn b chunks)))) as Hg.
  { apply fulfils_all. intros c Hc. apply Hq.
    apply firstn_incl in Hc.
    rewrite <- (firstn_skipn b chunks). apply in_or_app. now right. }
  rewrite (fulfils_functional queryFn _ _ _ Hws Hg), distributes_concat.
  rewrite <- (firstn_skipn b chunks) at 2.
  rewrite <- (firstn_skipn a (skipn b chunks)) at 2.
  rewrite !concat_app, !g_app, !length_app. lia.
Qed.

Lemma soundRun_transparent (chunks : list (list T))
      (run : Run T E (list U)) :
  soundRun queryFn chunks run ->
  (forall b, In b chunks -> fulfils queryFn b (g b)) ->
  (forall b, In b chunks -> JsArray.length (g b) <= maxArguments) ->
  result run = Fulfilled (g (concat chunks)).
Proof.
  intros (Hfwd & _) Hq Hs.
  now rewrite (Hfwd _ (fulfils_all chunks Hq) (spreadable_all chunks Hs)),
    distributes_concat.
Qed.
End Transparency.

(** ** Properties of the orchestrator *)

Section OrchestratorProperties.
Context {T U E : Type} {engine : Engine E}.
Variable queryFn : list T -> Promise U E.

(** X1. With a positive batchSize, every batch handed to the lookup by
    executeBatchedQuerySmart holds at least one id and at most batchSize
    ids (at most 2000 with the default, below the limit of 2100
    parameters), whatever the strategy and maxConcurrent. *)
Theorem lookup_batches_within_batchSize
        (fuel : nat) (ids : list T) (options : option Enhanced.Options) :
  0 < batchSizeOf options -> (length ids < fuel)%nat ->
  exists run,
    Enhanced.executeBatchedQuerySmart queryFn fuel ids options = Some run /\
    (forall b, In b (invocations (events run)) ->
               0 < JsArray.length b <= batchSizeOf options).
Proof.
  intros HS Hfuel.
  destruct (execute_run queryFn fuel ids options HS Hfuel)
    as (run & Hrun & _ & _ & (k & Hk) & _).
  exists run. split; [exact Hrun|].
  intros b Hb. rewrite Hk in Hb. apply firstn_incl in Hb.
  now apply (expectedChunks_bounds ids (batchSizeOf options)).
Qed.

(** X2. With the strategy 'parallel' given explicitly, the lookup is
    invoked on every chunk before any invocation settles, so the number of
    invocations in flight reaches the number of chunks ceil(N/batchSize):
    maxConcurrent is not consulted, and when it is smaller than the number
    of chunks it is exceeded. *)
Theorem explicit_parallel_starts_every_chunk
        (fuel : nat) (ids : list T) (options : option Enhanced.Options) :
  strategyOf options = Enhanced.parallel ->
  0 < batchSizeOf options -> (length ids < fuel)%nat ->
  exists run,
    Enhanced.executeBatchedQuerySmart queryFn fuel ids options = Some run /\
    events run =
      map Invoke (expectedChunks ids (batchSizeOf options)) ++
      map (fun p => Settle (fst p))
          (completionOrder
             (pendingOf queryFn (expectedChunks ids (batchSizeOf options)))) /\
    inFlight (map Invoke (expectedChunks ids (batchSizeOf options)))
      = ceilDiv (JsArray.length ids) (batchSizeOf options) /\
    (maxConcurrentOf options
       < ceilDiv (JsArray.length ids) (batchSizeOf options) ->
     ~ inFlightWithin (maxConcurrentOf options) (events run)).
Proof.
  intros Hpar HS Hfuel.
  destruct (executeParallel_events queryFn
              (expectedChunks ids (batchSizeOf options)))
    as (run & Hrun & Hev & _).
  exists run.
  split; [rewrite <- Hrun; now apply execute_explicit|].
  split; [exact Hev|].
  assert (inFlight (map Invoke (expectedChunks ids (batchSizeOf options)))
          = ceilDiv (JsArray.length ids) (batchSizeOf options)) as Hpeak
    by (rewrite inFlight_Invoke; now apply expectedChunks_length).
  split; [exact Hpeak|].
  intros Hover Hwithin. specialize (Hwithin _ _ Hev). lia.
Qed.

(** X3. Under the auto strategy, with positive batchSize and maxConcurrent,
    at no point of a call are more than maxConcurrent lookup invocations
    in flight, whatever the number of chunks: up to maxConcurrent chunks
    run in parallel, more run one at a time. *)
Theorem auto_never_exceeds_maxConcurrent
        (fuel : nat) (ids : list T) (options : option Enhanced.Options) :
  strategyOf options = Enhanced.auto ->
  0 < batchSizeOf options -> 0 < maxConcurrentOf options ->
  (length ids < fuel)%nat ->
  exists run,
    Enhanced.executeBatchedQuerySmart queryFn fuel ids options = Some run /\
    inFlightWithin (maxConcurrentOf options) (events run).
Proof.
  intros Hauto HS Hmc Hfuel.
  assert (forall chunks,
            JsArray.length chunks <= maxConcurrentOf options ->
            exists run, Enhanced.executeParallel queryFn chunks = Some run /\
                        inFlightWithin (maxConcurrentOf options) (events run))
    as Hpar.
  { intros chunks Hfit.
    destruct (executeParallel_events queryFn chunks) as (run & Hrun & _ & Hin).
    exists run. split; [exact Hrun|].
    now apply inFlightWithin_mono with (m := JsArray.length chunks). }
  unfold Enhanced.executeBatchedQuerySmart.
  destruct (Z.eqb_spec (JsArray.length ids) 0) as [H0|H0].
  { unfold Enhanced.selectCall.
    destruct (Z.eqb_spec (JsArray.length ids) 0); [|lia].
    rewrite (proj1 (perform_direct queryFn fuel ids)). apply Hpar.
    unfold JsArray.length. cbn [List.length]. lia. }
  destruct (Z.leb_spec (JsArray.length ids) (batchSizeOf options)) as [Hle|Hgt].
  { unfold Enhanced.selectCall.
    destruct (Z.eqb_spec (JsArray.length ids) 0); [lia|].
    fold (batchSizeOf options).
    destruct (Z.leb_spec (JsArray.length ids) (batchSizeOf options)); [|lia].
    rewrite (proj2 (perform_direct queryFn fuel ids)). apply Hpar.
    unfold JsArray.length. cbn [List.length]. lia. }
  rewrite selectCall_batched by (try split; assumption).
  rewrite Hauto. unfold Enhanced.executionStrategy.
  destruct (Z.leb_spec
              (JsArray.length (contiguousChunks ids (batchSizeOf options)))
              (maxConcurrentOf options)) as [Hfit|Hover].
  - cbn [Enhanced.perform]. now apply Hpar.
  - cbn [Enhanced.perform].
    destruct (executeSequential_sound queryFn
                (contiguousChunks ids (batchSizeOf options)))
      as (run & Hrun & Hev & _).
    exists run. split; [exact Hrun|]. rewrite Hev.
    apply inFlightWithin_mono with (m := 1); [lia|].
    apply inFlightWithin_sequentialTrace.
Qed.

(** X4. For a given positive batchSize the output does not depend on the
    strategy or on maxConcurrent: two calls on the same input and lookup
    that differ only in those options never fulfil with different
    outputs; and when no chunk's lookup result is too long to be spread
    into push, either both fulfil, with the same output, or both
    reject. *)
Theorem output_independent_of_strategy
        (fuel : nat) (ids : list T) (options options' : option Enhanced.Options) :
  batchSizeOf options' = batchSizeOf options ->
  0 < batchSizeOf options -> (length ids < fuel)%nat ->
  exists run run',
    Enhanced.executeBatchedQuerySmart queryFn fuel ids options = Some run /\
    Enhanced.executeBatchedQuerySmart queryFn fuel ids options' = Some run' /\
    (forall out out', result run = Fulfilled out ->
                      result run' = Fulfilled out' -> out = out') /\
    ((forall b v, In b (expectedChunks ids (batchSizeOf options)) ->
                  fulfils queryFn b v -> JsArray.length v <= maxArguments) ->
     forall out, result run = Fulfilled out <-> result run' = Fulfilled out).
Proof.
  intros Hsame HS Hfuel.
  destruct (execute_run queryFn fuel ids options HS Hfuel)
    as (run & Hrun & Hfwd & Hbwd & _).
  destruct (execute_run queryFn fuel ids options')
    as (run' & Hrun' & Hfwd' & Hbwd' & _); [lia|exact Hfuel|].
  rewrite Hsame in Hfwd', Hbwd'.
  exists run, run'. split; [exact Hrun|]. split; [exact Hrun'|].
  split.
  - intros out out' Hout Hout'.
    destruct (Hbwd out Hout) as (vs & Hvs & ->).
    destruct (Hbwd' out' Hout') as (vs' & Hvs' & ->).
    now rewrite (fulfils_functional queryFn _ vs vs' Hvs Hvs').
  - intros Hall out. split; intros Hout.
    + destruct (Hbwd out Hout) as (vs & Hvs & ->).
      apply Hfwd'; [exact Hvs|].
      now apply (fulfils_spreadable queryFn _ vs Hvs).
    + destruct (Hbwd' out Hout) as (vs & Hvs & ->).
      apply Hfwd; [exact Hvs|].
      now apply (fulfils_spreadable queryFn _ vs Hvs).
Qed.

(** X5. Batching is transparent for a lookup that answers every batch b
    with g(b) where g distributes over concatenation (a per-id map or
    filter, for instance) and g(b) is not too long to be spread into push
    for any chunk b: with a positive batchSize, whatever the strategy and
    maxConcurrent, executeBatchedQuerySmart fulfils with g(ids), what a
    single lookup on the whole input would return. *)
Theorem batching_is_transparent
        (g : list T -> list U)
        (fuel : nat) (ids : list T) (options : option Enhanced.Options) :
  (forall b, fulfils queryFn b (g b)) ->
  (forall a b, g (a ++ b) = g a ++ g b) ->
  (forall b, In b (expectedChunks ids (batchSizeOf options)) ->
             JsArray.length (g b) <= maxArguments) ->
  0 < batchSizeOf options -> (length ids < fuel)%nat ->
  exists run,
    Enhanced.executeBatchedQuerySmart queryFn fuel ids options = Some run /\
    result run = Fulfilled (g ids).
Proof.
  intros Hq Hg Hs HS Hfuel.
  destruct (execute_run queryFn fuel ids options HS Hfuel)
    as (run & Hrun & Hf).
  exists run. split; [exact Hrun|].
  rewrite (soundRun_transparent queryFn g Hg _ run Hf) by auto.
  now rewrite expectedChunks_concat.
Qed.

(** X6. With a non-positive batchSize and a non-empty input the call never
    settles: the batching loop does not exit (its index never reaches
    ids.length), whatever the fuel, and the lookup is never reached. *)
Theorem nonpositive_batchSize_never_settles
        (fuel : nat) (ids : list T) (options : option Enhanced.Options) :
  batchSizeOf options <= 0 -> ids <> [] ->
  Enhanced.splitIntoBatches fuel ids (batchSizeOf options) = None /\
  Enhanced.executeBatchedQuerySmart queryFn fuel ids options = None.
Proof.
  intros HS Hne. split; [|now apply execute_spins].
  unfold Enhanced.splitIntoBatches. apply splitLoop_spins; [exact HS|].
  destruct ids; [congruence|]. unfold JsArray.length. cbn [List.length]. lia.
Qed.

(** X7. With the strategy 'sequential' given explicitly, and so through
    the wrapper executeBatchedQuerySequential, which passes that strategy
    and nothing else, at most one lookup invocation is in flight at any
    point; and when the first chunk, in chunk order, whose lookup rejects
    is b with error e, the chunks before it fulfilling with results that
    can be spread into push, the call rejects with e after invoking
    exactly the chunks up to and including b. *)
Theorem explicit_sequential_stops_at_first_rejection
        (fuel : nat) (ids : list T) (options : option Enhanced.Options) :
  strategyOf options = Enhanced.sequential ->
  0 < batchSizeOf options -> (length ids < fuel)%nat ->
  exists run,
    Enhanced.executeBatchedQuerySmart queryFn fuel ids options = Some run /\
    (options = Some (Enhanced.mkOptions None None (Some Enhanced.sequential)) ->
     Enhanced.executeBatchedQuerySequential queryFn fuel ids = Some run) /\
    inFlightWithin 1 (events run) /\
    (forall pre b post e,
       expectedChunks ids (batchSizeOf options) = pre ++ b :: post ->
       Forall (fun x => exists v, fulfils queryFn x v /\
                                  JsArray.length v <= maxArguments) pre ->
       rejects queryFn b e ->
       result run = Rejected e /\
       events run = sequentialTrace (pre ++ [b])).
Proof.
  intros Hseq HS Hfuel.
  destruct (oneAtATime_run queryFn fuel ids options HS Hfuel)
    as (run & Hrun & Hev & Hstop).
  { intros HN. rewrite selectCall_batched by (try split; assumption).
    now rewrite Hseq. }
  exists run. split; [exact Hrun|].
  split; [intros ->; exact Hrun|].
  split; [rewrite Hev; apply inFlightWithin_sequentialTrace|].
  intros pre b post e Hchunks Hpre Hb.
  rewrite Hchunks in Hev, Hstop.
  rewrite (invokedPrefix_first_rejection queryFn pre post b e Hpre Hb)
    in Hev, Hstop.
  split; [|exact Hev].
  apply (Hstop b e); [|exact Hb]. apply in_or_app. right. now left.
Qed.

(** X8. When the lookup fulfils on every chunk with a result that can be
    spread into push, executeBatchedQuerySmart invokes it exactly once per
    chunk, in chunk order, whatever the strategy and maxConcurrent:
    ceil(N/batchSize) invocations in all, whose arguments put end to end
    are the input (no id is dropped, repeated or moved). *)
Theorem one_lookup_per_chunk
        (fuel : nat) (ids : list T) (options : option Enhanced.Options)
        (vs : list (list U)) :
  0 < batchSizeOf options -> (length ids < fuel)%nat ->
  Forall2 (fulfils queryFn) (expectedChunks ids (batchSizeOf options)) vs ->
  spreadable vs ->
  exists run,
    Enhanced.executeBatchedQuerySmart queryFn fuel ids options = Some run /\
    invocations (events run) = expectedChunks ids (batchSizeOf options) /\
    JsArray.length (invocations (events run))
      = ceilDiv (JsArray.length ids) (batchSizeOf options) /\
    concat (invocations (events run)) = ids.
Proof.
  intros HS Hfuel Hvs Hsp.
  assert (exists run,
            Enhanced.executeBatchedQuerySmart queryFn fuel ids options = Some run /\
            invocations (events run) = expectedChunks ids (batchSizeOf options))
    as (run & Hrun & Hinv).
  { destruct (execute_is_executor queryFn fuel ids options HS Hfuel) as [-> | ->].
    - destruct (executeParallel_faithful queryFn
                  (expectedChunks ids (batchSizeOf options)))
        as (run & Hrun & Hinv & _).
      eauto.
    - destruct (executeSequential_sound queryFn
                  (expectedChunks ids (batchSizeOf options)))
        as (run & Hrun & Hev & _).
      exists run. split; [exact Hrun|].
      rewrite Hev, invocations_sequentialTrace.
      now apply invokedPrefix_all with (vs := vs). }
  exists run. split; [exact Hrun|]. split; [exact Hinv|].
  rewrite Hinv. split; [now apply expectedChunks_length|].
  now apply expectedChunks_concat.
Qed.

(** X9. Under the auto strategy, once batching is reached (N > batchSize >
    0), the batches run in parallel exactly when N <= batchSize *
    maxConcurrent and sequentially otherwise; with the defaults the
    switch is at 20000 ids. *)
Theorem auto_threshold
        (fuel : nat) (ids : list T) (options : option Enhanced.Options) :
  strategyOf options = Enhanced.auto ->
  0 < batchSizeOf options < JsArray.length ids ->
  (length ids < fuel)%nat ->
  (JsArray.length ids <= batchSizeOf options * maxConcurrentOf options ->
   Enhanced.selectCall fuel ids options =
   Some (Enhanced.CallParallel (contiguousChunks ids (batchSizeOf options)))) /\
  (batchSizeOf options * maxConcurrentOf options < JsArray.length ids ->
   Enhanced.selectCall fuel ids options =
   Some (Enhanced.CallSequential (contiguousChunks ids (batchSizeOf options)))) /\
  batchSizeOf None * maxConcurrentOf None = 20000.
Proof.
  intros Hauto HS Hfuel.
  rewrite selectCall_batched by assumption.
  rewrite Hauto. unfold Enhanced.executionStrategy.
  rewrite contiguousChunks_length by apply HS.
  pose proof (ceilDiv_lt_iff (JsArray.length ids) (batchSizeOf options)
                (maxConcurrentOf options) (proj1 HS)) as Hiff.
  split; [|split; [|reflexivity]]; intros H;
    destruct (Z.leb_spec
                (ceilDiv (JsArray.length ids) (batchSizeOf options))
                (maxConcurrentOf options)); try reflexivity; lia.
Qed.
End OrchestratorProperties.

(** ** Properties of the chunked-parallel executor

    No return of [executeBatchedQuerySmart] reaches it (see the claims
    above); these are properties of the function run on its own. *)

Section ChunkedFacts.
Context {T U E : Type} {engine : Engine E}.
Variable queryFn : list T -> Promise U E.

Lemma groupJoin_eq (group : list (list T)) :
  (ps <- mapCalls queryFn group ;; awaitAll ps) =
  let done := completionOrder (pendingOf queryFn group) in
  Some (mkRun (map Invoke group ++ map (fun p => Settle (fst p)) done)
              (match firstRejection done with
               | Some e => Rejected e
               | None => Fulfilled (map valueOf (pendingOf queryFn group))
               end)).
Proof.
  rewrite mapCalls_eq. cbn [bind result events awaitAll].
  destruct (firstRejection (completionOrder (pendingOf queryFn group)));
    reflexivity.
Qed.

(** One turn of the chunked-parallel loop. *)
Lemma executeChunkedParallel_loop_step
      (batches : list (list T)) (maxConcurrent i : Z)
      (fuel : nat) (results : list U) :
  i < JsArray.length batches ->
  Enhanced.executeChunkedParallel_loop queryFn (S fuel) batches maxConcurrent
    i results =
  let group := JsArray.slice batches i (i + maxConcurrent) in
  let done := completionOrder (pendingOf queryFn group) in
  let evs := map Invoke group ++ map (fun p => Settle (fst p)) done in
  let rows := JsArray.flat (map valueOf (pendingOf queryFn group)) in
  match firstRejection done with
  | Some e => Some (mkRun evs (Rejected e))
  | None =>
      if JsArray.length rows <=? maxArguments then
        match Enhanced.executeChunkedParallel_loop queryFn fuel batches
                maxConcurrent (i + maxConcurrent) (results ++ rows) with
        | None => None
        | Some r => Some (mkRun (evs ++ events r) (result r))
        end
      else Some (mkRun evs (Rejected rangeError))
  end.
Proof.
  intros Hi. cbn [Enhanced.executeChunkedParallel_loop].
  destruct (Z.ltb_spec i (JsArray.length batches)); [|lia].
  rewrite groupJoin_eq. cbn zeta.
  destruct (firstRejection _) as [e|]; cbn [bind result events];
    [reflexivity|].
  unfold pushSpread.
  destruct (JsArray.length _ <=? maxArguments);
    cbn [bind ret throw result events app].
  - destruct (Enhanced.executeChunkedParallel_loop _ _ _ _ _ _); reflexivity.
  - now rewrite app_nil_r.
Qed.

Lemma executeChunkedParallel_loop_exit
      (batches : list (list T)) (maxConcurrent i : Z)
      (fuel : nat) (results : list U) :
  JsArray.length batches <= i ->
  Enhanced.executeChunkedParallel_loop queryFn (S fuel) batches maxConcurrent
    i results = Some (mkRun [] (Fulfilled results)).
Proof.
  intros Hi. cbn [Enhanced.executeChunkedParallel_loop].
  destruct (Z.ltb_spec i (JsArray.length batches)); [lia|reflexivity].
Qed.

Lemma executeChunkedParallel_loop_run
      (batches : list (list T)) (maxConcurrent : Z)
      (fuel k : nat) (results : list U) :
  0 < maxConcurrent ->
  let count := Z.to_nat (ceilDiv (JsArray.length batches) maxConcurrent) in
  let rest := concat (map (chunkAt batches maxConcurrent) (seq k (count - k))) in
  (k <= count)%nat -> (count - k < fuel)%nat ->
  exists run,
    Enhanced.executeChunkedParallel_loop queryFn fuel batches maxConcurrent
      (Z.of_nat k * maxConcurrent) results = Some run /\
    (forall vs, Forall2 (fulfils queryFn) rest vs ->
                (forall j ws, (j < count)%nat ->
                   Forall2 (fulfils queryFn) (chunkAt batches maxConcurrent j) ws ->
                   JsArray.length (concat ws) <= maxArguments) ->
                result run = Fulfilled (results ++ concat vs)) /\
    (forall out, result run = Fulfilled out ->
                 exists vs, Forall2 (fulfils queryFn) rest vs /\
                            out = results ++ concat vs) /\
    (forall e, result run = Rejected e ->
               (exists b, In b (invocations (events run)) /\
                          rejects queryFn b e) \/
               e = rangeError) /\
    (exists n, invocations (events run) = firstn n rest).
Proof.
  intros Hm count. cbn zeta. revert k results.
  pose proof (ceilDiv_le_self (JsArray.length batches) maxConcurrent Hm
                ltac:(unfold JsArray.length; lia)) as Hc.
  induction fuel as [|fuel IH]; intros k results Hk Hfuel; [lia|].
  pose proof (ceilDiv_lt_iff (JsArray.length batches) maxConcurrent
                (Z.of_nat k) Hm) as Hiff.
  destruct (Z_lt_le_dec (Z.of_nat k * maxConcurrent) (JsArray.length batches))
    as [Hlt|Hge].
  - assert (k < count)%nat as Hk' by (subst count; lia).
    rewrite executeChunkedParallel_loop_step by exact Hlt. cbn zeta.
    replace (count - k)%nat with (S (count - S k)) by lia.
    cbn [seq map concat].
    fold (chunkAt batches maxConcurrent k).
    set (group := chunkAt batches maxConcurrent k).
    set (rest' := concat (map (chunkAt batches maxConcurrent)
                              (seq (S k) (count - S k)))).
    set (done := completionOrder (pendingOf queryFn group)).
    assert (invocations
              (map Invoke group ++ map (fun p => Settle (fst p)) done)
            = group) as Hinvs
      by (now rewrite invocations_app, invocations_Invoke,
            invocations_Settle, app_nil_r).
    destruct (firstRejection done) as [e|] eqn:Hr.
    + (* a lookup of the group rejects: the loop is abandoned *)
      eexists. split; [reflexivity|]. cbn [result events]. rewrite Hinvs.
      apply firstRejection_Some in Hr as (p & Hp & Hs).
      apply completionOrder_In, pendingOf_In in Hp as [Hin Hq].
      assert (rejects queryFn (fst p) e) as Hrej
        by (unfold rejects; now rewrite <- Hq).
      split; [|split; [|split]].
      * intros vs Hvs _. exfalso.
        apply (fulfils_no_rejection queryFn _ _ (fst p) e Hvs); [|exact Hrej].
        apply in_or_app. now left.
      * discriminate.
      * intros e' [= <-]. left. eauto.
      * exists (length group + 0)%nat. rewrite firstn_app_2.
        cbn [firstn]. now rewrite app_nil_r.
    + (* the whole group fulfils *)
      assert (Forall2 (fulfils queryFn) group
                (map valueOf (pendingOf queryFn group))) as Hgroup.
      { apply pendingOf_all_fulfilled. intros p Hp.
        apply (proj1 (firstRejection_None _) Hr).
        now apply completionOrder_In. }
      destruct (Z.leb_spec
                  (JsArray.length
                     (JsArray.flat (map valueOf (pendingOf queryFn group))))
                  maxArguments) as [Hle|Hgt].
      * (* its rows are appended: on to the next group *)
        replace (Z.of_nat k * maxConcurrent + maxConcurrent)
          with (Z.of_nat (S k) * maxConcurrent) by lia.
        destruct (IH (S k)
                    (results ++
                     JsArray.flat (map valueOf (pendingOf queryFn group))))
          as (run & Hrun & Hfwd & Hbwd & Hrej & n & Hn); [lia|lia|].
        rewrite Hrun. eexists. split; [reflexivity|]. cbn [result events].
        fold rest' in Hfwd, Hbwd, Hn.
        rewrite invocations_app, Hinvs.
        split; [|split; [|split]].
        -- intros vs Hvs Hsp.
           apply Forall2_app_inv_l in Hvs as (vs1 & vs2 & H1 & H2 & ->).
           rewrite (Hfwd vs2 H2 Hsp).
           destruct (pendingOf_fulfilled queryFn group vs1 H1) as [<- _].
           unfold JsArray.flat. now rewrite concat_app, !app_assoc.
        -- intros out Hout. destruct (Hbwd out Hout) as (vs2 & H2 & ->).
           exists (map valueOf (pendingOf queryFn group) ++ vs2).
           split; [now apply Forall2_app|].
           unfold JsArray.flat. now rewrite concat_app, !app_assoc.
        -- intros e He. destruct (Hrej e He) as [(b & Hb & Hbe)| ->];
             [left|now right].
           exists b. split; [|exact Hbe]. apply in_or_app. now right.
        -- exists (length group + n)%nat. rewrite Hn.
           now rewrite firstn_app_2.
      * (* its rows cannot be spread: the loop is abandoned *)
        eexists. split; [reflexivity|]. cbn [result events]. rewrite Hinvs.
        split; [|split; [|split]].
        -- intros vs Hvs Hsp. exfalso.
           apply Forall2_app_inv_l in Hvs as (vs1 & vs2 & H1 & H2 & ->).
           destruct (pendingOf_fulfilled queryFn group vs1 H1) as [Hv _].
           specialize (Hsp k vs1 Hk' H1).
           unfold JsArray.flat in Hgt. rewrite Hv in Hgt. lia.
        -- discriminate.
        -- intros e [= <-]. now right.
        -- exists (length group + 0)%nat. rewrite firstn_app_2.
           cbn [firstn]. now rewrite app_nil_r.
  - assert (k = count) as -> by (subst count; lia).
    rewrite executeChunkedParallel_loop_exit by exact Hge.
    rewrite Nat.sub_diag. cbn [seq map concat].
    eexists. split; [reflexivity|]. cbn [result events invocations].
    split; [|split; [|split]].
    + intros vs Hvs _. inversion Hvs. cbn [concat]. now rewrite app_nil_r.
    + intros out [= <-]. exists []. split; [constructor|].
      cbn [concat]. now rewrite app_nil_r.
    + discriminate.
    + exists 0%nat. reflexivity.
Qed.

Lemma groupJoin_within (group : list (list T)) :
  inFlightWithin (JsArray.length group)
    (map Invoke group ++
     map (fun p => Settle (fst p)) (completionOrder (pendingOf queryFn group))) /\
  inFlight
    (map Invoke group ++
     map (fun p => Settle (fst p)) (completionOrder (pendingOf queryFn group)))
  = 0.
Proof.
  apply inFlightWithin_group.
  transitivity (length (pendingOf queryFn group));
    [apply completionOrder_length|apply pendingOf_length].
Qed.

(** The model's trace lists the settling of every call of a group, also of
    those that settle after a rejection has made the function return; it
    ends with nothing in flight, which lets the bound be carried from one
    group to the next. *)
Lemma executeChunkedParallel_loop_within
      (batches : list (list T)) (maxConcurrent : Z)
      (fuel k : nat) (results : list U) :
  0 < maxConcurrent ->
  let count := Z.to_nat (ceilDiv (JsArray.length batches) maxConcurrent) in
  (k <= count)%nat -> (count - k < fuel)%nat ->
  exists run,
    Enhanced.executeChunkedParallel_loop queryFn fuel batches maxConcurrent
      (Z.of_nat k * maxConcurrent) results = Some run /\
    inFlightWithin maxConcurrent (events run) /\
    inFlight (events run) = 0.
Proof.
  intros Hm count. revert k results.
  pose proof (ceilDiv_le_self (JsArray.length batches) maxConcurrent Hm
                ltac:(unfold JsArray.length; lia)) as Hc.
  induction fuel as [|fuel IH]; intros k results Hk Hfuel; [lia|].
  pose proof (ceilDiv_lt_iff (JsArray.length batches) maxConcurrent
                (Z.of_nat k) Hm) as Hiff.
  destruct (Z_lt_le_dec (Z.of_nat k * maxConcurrent) (JsArray.length batches))
    as [Hlt|Hge].
  - assert (k < count)%nat as Hk' by (subst count; lia).
    rewrite executeChunkedParallel_loop_step by exact Hlt. cbn zeta.
    fold (chunkAt batches maxConcurrent k).
    pose proof (chunkAt_bounds batches maxConcurrent Hm k ltac:(lia)) as Hsize.
    destruct (groupJoin_within (chunkAt batches maxConcurrent k))
      as (Hwithin & Hzero).
    apply inFlightWithin_mono with (m' := maxConcurrent) in Hwithin; [|lia].
    destruct (firstRejection _) as [e|].
    + eexists. split; [reflexivity|]. cbn [events]. auto.
    + destruct (JsArray.length _ <=? maxArguments).
      * replace (Z.of_nat k * maxConcurrent + maxConcurrent)
          with (Z.of_nat (S k) * maxConcurrent) by lia.
        destruct (IH (S k)
                    (results ++
                     JsArray.flat
                       (map valueOf
                          (pendingOf queryFn (chunkAt batches maxConcurrent k)))))
          as (run & Hrun & Hw & Hz); [lia|lia|].
        rewrite Hrun. eexists. split; [reflexivity|]. cbn [events].
        split; [now apply inFlightWithin_app|].
        rewrite inFlight_app. lia.
      * eexists. split; [reflexivity|]. cbn [events]. auto.
  - rewrite executeChunkedParallel_loop_exit by exact Hge.
    eexists. split; [reflexivity|]. cbn [events].
    split; [apply inFlightWithin_nil; lia|reflexivity].
Qed.

Lemma skipn_step {A : Type} (k : nat) (l : list A) (x : A) (rest : list A) :
  skipn k l = x :: rest -> skipn (S k) l = rest.
Proof.
  revert l. induction k as [|k IH]; intros l H.
  - cbn in H. subst l. reflexivity.
  - destruct l as [|y l]; [discriminate|]. cbn [skipn] in *. now apply IH.
Qed.

(** With groups of one the loop is the sequential loop. *)
Lemma executeChunkedParallel_loop_one
      (batches : list (list T)) (fuel k : nat) (results : list U) :
  (k <= length batches)%nat -> (length batches - k < fuel)%nat ->
  Enhanced.executeChunkedParallel_loop queryFn fuel batches 1
    (Z.of_nat k) results =
  Enhanced.executeSequential_loop queryFn (skipn k batches) results.
Proof.
  revert k results.
  induction fuel as [|fuel IH]; intros k results Hk Hfuel; [lia|].
  destruct (Z_lt_le_dec (Z.of_nat k) (JsArray.length batches)) as [Hlt|Hge].
  - rewrite executeChunkedParallel_loop_step by exact Hlt. cbn zeta.
    unfold JsArray.length in Hlt.
    destruct (skipn k batches) as [|b rest] eqn:Hskip.
    { apply (f_equal (@List.length _)) in Hskip.
      rewrite length_skipn in Hskip. cbn [List.length] in Hskip. lia. }
    assert (JsArray.slice batches (Z.of_nat k) (Z.of_nat k + 1) = [b]) as ->.
    { rewrite slice_nonneg by lia. unfold JsArray.length.
      replace (Z.to_nat (Z.min (Z.of_nat k) (Z.of_nat (length batches))))
        with k by lia.
      replace (Z.to_nat _) with 1%nat by lia.
      now rewrite Hskip. }
    rewrite executeSequential_loop_cons.
    cbn [pendingOf map completionOrder fold_right insertByLatency
         firstRejection snd fst app].
    unfold valueOf. cbn [snd].
    destruct (settlement (queryFn b)) as [v|e]; [|reflexivity].
    unfold JsArray.flat. cbn [concat]. rewrite app_nil_r.
    replace (Z.of_nat k + 1) with (Z.of_nat (S k)) by lia.
    rewrite IH by lia. now rewrite (skipn_step k batches b rest Hskip).
  - rewrite executeChunkedParallel_loop_exit by exact Hge.
    unfold JsArray.length in Hge. rewrite skipn_all2 by lia. reflexivity.
Qed.

(** With a non-positive step the index stays below the length: the loop
    can only be left through a rejection. *)
Lemma executeChunkedParallel_loop_no_exit
      (batches : list (list T)) (maxConcurrent i : Z)
      (fuel : nat) (results : list U) (run : Run T E (list U)) :
  maxConcurrent <= 0 -> i < JsArray.length batches ->
  Enhanced.executeChunkedParallel_loop queryFn fuel batches maxConcurrent
    i results = Some run ->
  exists e, result run = Rejected e.
Proof.
  intros Hm. revert i results run.
  induction fuel as [|fuel IH]; intros i results run Hi; [discriminate|].
  rewrite executeChunkedParallel_loop_step by exact Hi. cbn zeta.
  destruct (firstRejection _) as [e|].
  - intros [= <-]. cbn [result]. eauto.
  - destruct (JsArray.length _ <=? maxArguments).
    + destruct (Enhanced.executeChunkedParallel_loop queryFn fuel batches
                  maxConcurrent (i + maxConcurrent) _) as [r|] eqn:Hr;
        [|discriminate].
      intros [= <-]. cbn [result]. eapply IH; [|exact Hr]. lia.
    + intros [= <-]. cbn [result]. eauto.
Qed.

Lemma chunked_within
      (batches : list (list T)) (maxConcurrent : Z) (fuel : nat) :
  0 < maxConcurrent -> (length batches < fuel)%nat ->
  exists run,
    Enhanced.executeChunkedParallel queryFn fuel batches maxConcurrent
      = Some run /\
    inFlightWithin maxConcurrent (events run).
Proof.
  intros Hm Hfuel.
  pose proof (ceilDiv_le_self (JsArray.length batches) maxConcurrent Hm
                ltac:(unfold JsArray.length; lia)) as Hc.
  unfold JsArray.length in Hc.
  destruct (executeChunkedParallel_loop_within batches maxConcurrent fuel 0 []
              Hm) as (run & Hrun & Hw & _);
    [lia|unfold JsArray.length; lia|].
  exists run. split; [exact Hrun|exact Hw].
Qed.

Lemma chunked_run
      (batches : list (list T)) (maxConcurrent : Z) (fuel : nat) :
  0 < maxConcurrent -> (length batches < fuel)%nat ->
  exists run,
    Enhanced.executeChunkedParallel queryFn fuel batches maxConcurrent
      = Some run /\
    (forall vs, Forall2 (fulfils queryFn) batches vs ->
                (forall j ws,
                   Z.of_nat j < ceilDiv (JsArray.length batches) maxConcurrent ->
                   Forall2 (fulfils queryFn) (chunkAt batches maxConcurrent j) ws ->
                   JsArray.length (concat ws) <= maxArguments) ->
                result run = Fulfilled (concat vs)).
Proof.
  intros Hm Hfuel.
  pose proof (ceilDiv_le_self (JsArray.length batches) maxConcurrent Hm
                ltac:(unfold JsArray.length; lia)) as Hc.
  unfold JsArray.length in Hc.
  destruct (executeChunkedParallel_loop_run batches maxConcurrent
              fuel 0 [] Hm) as (run & Hrun & Hfwd & _);
    [lia|unfold JsArray.length; lia|].
  rewrite Nat.sub_0_r in Hfwd.
  fold (contiguousChunks batches maxConcurrent) in Hfwd.
  rewrite contiguousChunks_concat in Hfwd by assumption.
  exists run. split; [exact Hrun|].
  intros vs Hvs Hsp. apply (Hfwd vs Hvs).
  intros j ws Hj. apply Hsp. unfold JsArray.length in *. lia.
Qed.

(** X10. Run on any list of batches with a positive maxConcurrent (and
    enough fuel), executeChunkedParallel settles.  An output it returns is
    the concatenation of the lookup results in batch order, and it returns
    that output when every lookup fulfils and the rows of each group of
    maxConcurrent batches, put together, can be spread into push.  The
    invocations made are an initial segment of the batches, and a
    rejection is that of an invocation that was made or the engine's
    RangeError. *)
Theorem chunked_parallel_keeps_batch_order
        (fuel : nat) (batches : list (list T)) (maxConcurrent : Z) :
  0 < maxConcurrent -> (length batches < fuel)%nat ->
  exists run,
    Enhanced.executeChunkedParallel queryFn fuel batches maxConcurrent
      = Some run /\
    (forall out, result run = Fulfilled out ->
                 exists vs, Forall2 (fulfils queryFn) batches vs /\
                            out = concat vs) /\
    (forall vs, Forall2 (fulfils queryFn) batches vs ->
                (forall j ws,
                   Z.of_nat j < ceilDiv (JsArray.length batches) maxConcurrent ->
                   Forall2 (fulfils queryFn) (chunkAt batches maxConcurrent j) ws ->
                   JsArray.length (concat ws) <= maxArguments) ->
                result run = Fulfilled (concat vs)) /\
    (forall e, result run = Rejected e ->
               (exists b, In b (invocations (events run)) /\
                          rejects queryFn b e) \/
               e = rangeError) /\
    (exists k, invocations (events run) = firstn k batches).
Proof.
  intros Hm Hfuel.
  pose proof (ceilDiv_le_self (JsArray.length batches) maxConcurrent Hm
                ltac:(unfold JsArray.length; lia)) as Hc.
  unfold JsArray.length in Hc.
  destruct (executeChunkedParallel_loop_run batches maxConcurrent
              fuel 0 [] Hm) as (run & Hrun & Hfwd & Hbwd & Hrej & Hpre);
    [lia|unfold JsArray.length; lia|].
  rewrite Nat.sub_0_r in Hfwd, Hbwd, Hpre.
  fold (contiguousChunks batches maxConcurrent) in Hfwd, Hbwd, Hpre.
  rewrite contiguousChunks_concat in Hfwd, Hbwd, Hpre by assumption.
  exists run. split; [exact Hrun|].
  split; [exact Hbwd|]. split; [|split; [exact Hrej|exact Hpre]].
  intros vs Hvs Hsp. apply (Hfwd vs Hvs).
  intros j ws Hj. apply Hsp. unfold JsArray.length in *. lia.
Qed.

(** X11. Run with a positive maxConcurrent, executeChunkedParallel never
    has more than maxConcurrent lookup invocations in flight. *)
Theorem chunked_parallel_respects_ceiling
        (fuel : nat) (batches : list (list T)) (maxConcurrent : Z) :
  0 < maxConcurrent -> (length batches < fuel)%nat ->
  exists run,
    Enhanced.executeChunkedParallel queryFn fuel batches maxConcurrent
      = Some run /\
    inFlightWithin maxConcurrent (events run).
Proof.
  intros Hm Hfuel.
  pose proof (ceilDiv_le_self (JsArray.length batches) maxConcurrent Hm
                ltac:(unfold JsArray.length; lia)) as Hc.
  unfold JsArray.length in Hc.
  destruct (executeChunkedParallel_loop_within batches maxConcurrent fuel 0 []
              Hm) as (run & Hrun & Hw & _);
    [lia|unfold JsArray.length; lia|].
  exists run. split; [exact Hrun|exact Hw].
Qed.

(** X12. When maxConcurrent is at least the number of batches,
    executeChunkedParallel makes the calls of executeParallel, as one
    group.  It settles as executeParallel does when that rejects or
    fulfils with an output that can be spread into push; when
    executeParallel fulfils with a longer output, executeChunkedParallel
    rejects with the engine's RangeError after the same calls. *)
Theorem chunked_parallel_is_parallel_when_wide
        (fuel : nat) (batches : list (list T)) (maxConcurrent : Z) :
  0 < maxConcurrent -> JsArray.length batches <= maxConcurrent ->
  (2 <= fuel)%nat ->
  exists runP,
    Enhanced.executeParallel queryFn batches = Some runP /\
    ((forall out, result runP = Fulfilled out ->
                  JsArray.length out <= maxArguments) ->
     Enhanced.executeChunkedParallel queryFn fuel batches maxConcurrent
       = Some runP) /\
    (forall out, batches <> [] -> result runP = Fulfilled out ->
                 maxArguments < JsArray.length out ->
     Enhanced.executeChunkedParallel queryFn fuel batches maxConcurrent
       = Some (mkRun (events runP) (Rejected rangeError))).
Proof.
  intros Hm Hwide Hfuel.
  destruct fuel as [|[|fuel]]; [lia|lia|].
  rewrite executeParallel_eq. cbn zeta. eexists. split; [reflexivity|].
  cbn [result events].
  unfold Enhanced.executeChunkedParallel.
  destruct (Z_lt_le_dec 0 (JsArray.length batches)) as [Hpos|Hzero].
  - rewrite executeChunkedParallel_loop_step by exact Hpos. cbn zeta.
    assert (JsArray.slice batches 0 (0 + maxConcurrent) = batches) as ->.
    { rewrite slice_nonneg by lia.
      replace (Z.to_nat (Z.min 0 (JsArray.length batches))) with 0%nat by lia.
      cbn [skipn]. apply firstn_all2. unfold JsArray.length in *. lia. }
    rewrite executeChunkedParallel_loop_exit by lia.
    destruct (firstRejection _) as [e|].
    + split; [reflexivity|]. discriminate.
    + cbn [app events result]. rewrite app_nil_r.
      destruct (Z.leb_spec
                  (JsArray.length
                     (JsArray.flat (map valueOf (pendingOf queryFn batches))))
                  maxArguments) as [Hle|Hgt].
      * split; [reflexivity|]. intros out _ [= <-].
        unfold JsArray.flat in Hle. lia.
      * split; [|reflexivity]. intros Hall.
        specialize (Hall _ eq_refl). unfold JsArray.flat in *. lia.
  - destruct batches; [|unfold JsArray.length in Hzero;
                        cbn [List.length] in Hzero; lia].
    split; [reflexivity|]. intros out Hne. congruence.
Qed.

(** X13. With maxConcurrent = 1, executeChunkedParallel is
    executeSequential: same trace, same settlement. *)
Theorem chunked_parallel_of_one_is_sequential
        (fuel : nat) (batches : list (list T)) :
  (length batches < fuel)%nat ->
  Enhanced.executeChunkedParallel queryFn fuel batches 1 =
  Enhanced.executeSequential queryFn batches.
Proof.
  intros Hfuel. unfold Enhanced.executeChunkedParallel.
  exact (executeChunkedParallel_loop_one batches fuel 0 [] ltac:(lia) ltac:(lia)).
Qed.

(** X14. With a non-positive maxConcurrent and at least one batch,
    executeChunkedParallel never fulfils: its loop index never reaches
    batches.length, so it either rejects (a lookup of some group rejected,
    or a spread into push failed) or does not settle. *)
Theorem chunked_parallel_needs_positive_maxConcurrent
        (fuel : nat) (batches : list (list T)) (maxConcurrent : Z)
        (run : Run T E (list U)) :
  maxConcurrent <= 0 -> batches <> [] ->
  Enhanced.executeChunkedParallel queryFn fuel batches maxConcurrent
    = Some run ->
  exists e, result run = Rejected e.
Proof.
  intros Hm Hne. unfold Enhanced.executeChunkedParallel.
  apply executeChunkedParallel_loop_no_exit; [exact Hm|].
  destruct batches; [congruence|]. unfold JsArray.length. cbn [List.length]. lia.
Qed.
End ChunkedFacts.

(** ** Which rejection a parallel join reports *)

Section EarliestRejection.
Context {T U E : Type} {engine : Engine E}.
Variable queryFn : list T -> Promise U E.

Lemma insertByLatency_sorted (p : @Pending T U E) (l : list Pending) :
  byLatency l -> byLatency (insertByLatency p l).
Proof.
  induction l as [|x l IH]; intros Hl; cbn [insertByLatency].
  - cbn. split; [intros q []|exact I].
  - destruct Hl as [Hx Hl].
    destruct (Nat.leb_spec (latency (snd p)) (latency (snd x))) as [Hle|Hgt].
    + cbn [byLatency]. split; [|split; assumption].
      intros q [<-|Hq]; [exact Hle|]. specialize (Hx q Hq). lia.
    + cbn [byLatency]. split; [|now apply IH].
      intros q Hq. apply insertByLatency_In in Hq as [->|Hq]; [lia|auto].
Qed.

Lemma completionOrder_sorted (ps : list (@Pending T U E)) :
  byLatency (completionOrder ps).
Proof.
  induction ps as [|p ps IH]; [exact I|].
  cbn [completionOrder fold_right]. now apply insertByLatency_sorted.
Qed.

Lemma firstRejection_earliest (l : list (@Pending T U E))
      (p : Pending) (e : E) :
  byLatency l -> In p l -> settlement (snd p) = Rejected e ->
  (forall q e', In q l -> settlement (snd q) = Rejected e' ->
                q = p \/ (latency (snd p) < latency (snd q))%nat) ->
  firstRejection l = Some e.
Proof.
  induction l as [|x l IH]; intros Hl Hp He Hmin; [destruct Hp|].
  destruct Hl as [Hx Hl]. cbn [firstRejection].
  destruct (settlement (snd x)) as [v|ex] eqn:Hsx.
  - destruct Hp as [->|Hp]; [congruence|].
    apply IH; auto. intros q e' Hq. apply Hmin. now right.
  - destruct (Hmin x ex (or_introl eq_refl) Hsx) as [->|Hlt]; [congruence|].
    destruct Hp as [->|Hp]; [lia|]. specialize (Hx p Hp). lia.
Qed.

(** X15. With the strategy 'parallel', when the lookup of a chunk b
    rejects with e and every other rejecting chunk's promise settles
    strictly later than b's, the call rejects with e: of several
    rejections the one reported is the earliest to settle, not the first
    in chunk order. *)
Theorem parallel_rejects_with_earliest_rejection
        (fuel : nat) (ids : list T) (options : option Enhanced.Options)
        (b : list T) (e : E) :
  strategyOf options = Enhanced.parallel ->
  0 < batchSizeOf options -> (length ids < fuel)%nat ->
  In b (expectedChunks ids (batchSizeOf options)) ->
  rejects queryFn b e ->
  (forall b' e', In b' (expectedChunks ids (batchSizeOf options)) ->
                 rejects queryFn b' e' ->
                 b' = b \/ (latency (queryFn b) < latency (queryFn b'))%nat) ->
  exists run,
    Enhanced.executeBatchedQuerySmart queryFn fuel ids options = Some run /\
    result run = Rejected e.
Proof.
  intros Hpar HS Hfuel Hb He Hmin.
  rewrite (proj1 (execute_explicit queryFn fuel ids options HS Hfuel) Hpar).
  rewrite executeParallel_eq. cbn zeta.
  eexists. split; [reflexivity|]. cbn [result].
  rewrite (firstRejection_earliest _ (b, queryFn b) e); [reflexivity| | | |].
  - apply completionOrder_sorted.
  - apply completionOrder_In. unfold pendingOf. apply in_map_iff. eauto.
  - exact He.
  - intros q e' Hq Hs.
    apply completionOrder_In, pendingOf_In in Hq as [Hin Heq].
    destruct q as [b' p']. cbn [fst snd] in *. subst p'.
    destruct (Hmin b' e' Hin Hs) as [->|Hlt]; [now left|now right].
Qed.
End EarliestRejection.

(** ** The mock query and the test driver *)

Section MonadFacts.
Context {T E A B : Type}.

Lemma bind_ret (m : Async T E A) (f : A -> B) :
  (x <- m ;; ret (f x)) =
  match m with
  | None => None
  | Some r =>
      Some (mkRun (events r)
                  (match result r with
                   | Fulfilled a => Fulfilled (f a)
                   | Rejected e => Rejected e
                   end))
  end.
Proof.
  destruct m as [[evs [a|e]]|]; cbn; rewrite ?app_nil_r; reflexivity.
Qed.
End MonadFacts.

Section PerformanceRunFacts.
Context {E : Type} {engine : Engine E}.
Variable queryTime : list Z -> nat.
Variable numberToString : Z -> String.string.

Lemma mockRows_app (a b : list Z) :
  mockRows numberToString (a ++ b) =
  mockRows numberToString a ++ mockRows numberToString b.
Proof. apply map_app. Qed.

Lemma mockRows_length (b : list Z) :
  JsArray.length (mockRows numberToString b) = JsArray.length b.
Proof. unfold mockRows, JsArray.length. now rewrite length_map. Qed.

Lemma mockDatabaseQuery_fulfils (b : list Z) :
  fulfils (PerformanceRun.mockDatabaseQuery (E := E) queryTime numberToString)
    b (mockRows numberToString b).
Proof. reflexivity. Qed.

Lemma standalone_is_parallel_strategy {T U : Type}
      (queryFn : list T -> Promise U E) (fuel : nat) (ids : list T) :
  PerformanceTest.executeBatchedQueryParallel queryFn fuel ids =
  Enhanced.executeBatchedQuerySmart queryFn fuel ids
    (Some (Enhanced.mkOptions None None (Some Enhanced.parallel))).
Proof.
  unfold PerformanceTest.executeBatchedQueryParallel,
    Enhanced.executeBatchedQuerySmart, Enhanced.selectCall.
  cbn [Enhanced.field Enhanced.batchSize Enhanced.maxConcurrent
       Enhanced.strategy Enhanced.executionStrategy].
  destruct (JsArray.length ids =? 0); [reflexivity|].
  change PerformanceTest.BATCH_SIZE with Enhanced.BATCH_SIZE.
  destruct (JsArray.length ids <=? Enhanced.BATCH_SIZE); [reflexivity|].
  rewrite splitLoop_standalone. unfold Enhanced.splitIntoBatches.
  change PerformanceTest.BATCH_SIZE with Enhanced.BATCH_SIZE.
  destruct (Enhanced.splitLoop fuel ids Enhanced.BATCH_SIZE 0 [])
    as [batches|]; [|reflexivity].
  cbn [lift Enhanced.perform]. unfold ret at 1. cbn [bind result events app].
  fold (Enhanced.executeParallel queryFn batches).
  destruct (Enhanced.executeParallel queryFn batches) as [[evs res]|];
    reflexivity.
Qed.

(** X16. Over the mock query, executeBatchedQuerySmart with a positive
    batchSize that is no more than the number of arguments the engine can
    spread into push returns exactly one row per id, in input order,
    carrying that id, whatever the strategy, maxConcurrent and the
    simulated query times: reading the ids back from the rows gives the
    input. *)
Theorem mock_query_returns_one_row_per_id
        (fuel : nat) (ids : list Z) (options : option Enhanced.Options) :
  0 < batchSizeOf options -> batchSizeOf options <= maxArguments ->
  (length ids < fuel)%nat ->
  exists run rows,
    Enhanced.executeBatchedQuerySmart
      (PerformanceRun.mockDatabaseQuery (E := E) queryTime numberToString)
      fuel ids options
      = Some run /\
    result run = Fulfilled rows /\
    map PerformanceRun.id rows = ids /\
    JsArray.length rows = JsArray.length ids.
Proof.
  intros HS Hmax Hfuel.
  destruct (execute_run
              (PerformanceRun.mockDatabaseQuery (E := E) queryTime numberToString)
              fuel ids options HS Hfuel) as (run & Hrun & Hf).
  exists run, (mockRows numberToString ids). split; [exact Hrun|].
  split.
  - rewrite (soundRun_transparent _ (mockRows numberToString) mockRows_app
               _ run Hf).
    + now rewrite expectedChunks_concat.
    + intros; apply mockDatabaseQuery_fulfils.
    + intros b Hb. rewrite mockRows_length.
      apply (expectedChunks_bounds ids (batchSizeOf options) HS) in Hb. lia.
  - unfold mockRows, JsArray.length. rewrite map_map, length_map.
    cbn [PerformanceRun.id].
    split; [apply map_id|reflexivity].
Qed.

(** X17. runPerformanceTest, driving the stand-alone
    executeBatchedQueryParallel over the mock query on the ids
    1..datasetSize, reports itemCount = datasetSize and batches =
    ceil(datasetSize / 2000), which is the number of lookup invocations
    that were actually made; the duration is the difference of the two
    clock readings. *)
Theorem performance_test_reports_actual_counts
        (startTime endTime : Z) (name : String.string)
        (datasetSize fuel : nat) :
  (datasetSize < fuel)%nat ->
  exists run,
    PerformanceRun.runPerformanceTest (E := E) queryTime numberToString
      startTime endTime name datasetSize
      (fun ids queryFn =>
         PerformanceTest.executeBatchedQueryParallel queryFn fuel ids)
      = Some run /\
    result run =
      Fulfilled (PerformanceRun.mkTestResult (endTime - startTime)
                   (ceilDiv (Z.of_nat datasetSize) 2000)
                   (Z.of_nat datasetSize)) /\
    JsArray.length (invocations (events run))
      = ceilDiv (Z.of_nat datasetSize) 2000.
Proof.
  intros Hfuel. unfold PerformanceRun.runPerformanceTest. cbn zeta.
  set (ids := map (fun i => Z.of_nat i + 1) (seq 0 datasetSize)).
  assert (length ids = datasetSize) as Hlen
    by (unfold ids; now rewrite length_map, length_seq).
  set (options := Some (Enhanced.mkOptions None None (Some Enhanced.parallel))).
  assert (0 < batchSizeOf options) as HS by reflexivity.
  rewrite standalone_is_parallel_strategy. fold options.
  rewrite (proj1 (execute_explicit _ fuel ids options HS ltac:(lia)) eq_refl).
  destruct (executeParallel_faithful
              (PerformanceRun.mockDatabaseQuery (E := E) queryTime numberToString)
              (expectedChunks ids (batchSizeOf options)))
    as (run & Hrun & Hinv & Hf).
  rewrite Hrun.
  rewrite (bind_ret (Some run)
             (fun result =>
                PerformanceRun.mkTestResult (endTime - startTime)
                  (ceilDiv (Z.of_nat datasetSize) PerformanceTest.BATCH_SIZE)
                  (JsArray.length result))).
  eexists. split; [reflexivity|]. cbn [events result].
  rewrite (faithfulRun_transparent _ (mockRows numberToString) mockRows_app
             _ run Hf)
    by (intros; apply mockDatabaseQuery_fulfils).
  rewrite expectedChunks_concat by exact HS.
  split.
  - unfold mockRows, JsArray.length. rewrite length_map, Hlen. reflexivity.
  - rewrite Hinv, expectedChunks_length by exact HS.
    unfold JsArray.length. now rewrite Hlen.
Qed.
End PerformanceRunFacts.

(** ** The benchmark strategies *)

Section SingleBatchFacts.
Context {T U E : Type} {engine : Engine E}.
Variable queryFn : list T -> Promise U E.

(** The sequential executor on one batch is the direct call of the lookup
    as long as the result can be spread. *)
Lemma executeSequential_one (b : list T) :
  (forall v, fulfils queryFn b v -> JsArray.length v <= maxArguments) ->
  Enhanced.executeSequential queryFn [b] = (p <- call queryFn b ;; await p).
Proof.
  intros Hv. unfold Enhanced.executeSequential.
  rewrite executeSequential_loop_cons. unfold call, await.
  cbn [bind result events fst snd app Enhanced.executeSequential_loop ret].
  destruct (settlement (queryFn b)) as [v|e] eqn:Hb; [|reflexivity].
  destruct (Z.leb_spec (JsArray.length v) maxArguments) as [_|Hgt];
    [reflexivity|].
  specialize (Hv v Hb). lia.
Qed.

(** When the result cannot be spread the sequential executor rejects where
    the direct call fulfils. *)
Lemma executeSequential_one_overflow (b : list T) (v : list U) :
  fulfils queryFn b v -> maxArguments < JsArray.length v ->
  Enhanced.executeSequential queryFn [b] =
    Some (mkRun [Invoke b; Settle b] (Rejected rangeError)) /\
  (p <- call queryFn b ;; await p) =
    Some (mkRun [Invoke b; Settle b] (Fulfilled v)).
Proof.
  intros Hb Hgt. unfold Enhanced.executeSequential.
  rewrite executeSequential_loop_cons. unfold call, await.
  cbn [bind result events fst snd app].
  unfold fulfils in Hb. rewrite Hb.
  destruct (Z.leb_spec (JsArray.length v) maxArguments); [lia|].
  split; reflexivity.
Qed.
End SingleBatchFacts.

Section BenchmarkFacts.
Context {T Time : Type} {engine : Engine Benchmark.JsError}.
Variable elapsed : Time -> Time -> Time.

Lemma mockResults_app (a b : list T) :
  mockResults (a ++ b) = mockResults a ++ mockResults b.
Proof. unfold mockResults. now rewrite length_app, repeat_app. Qed.

Lemma mockResults_length (b : list T) :
  JsArray.length (mockResults b) = JsArray.length b.
Proof. unfold mockResults, JsArray.length. now rewrite repeat_length. Qed.

Lemma query_fulfils (batch : list T) :
  JsArray.length batch <= Benchmark.MAX_ARRAY_LENGTH ->
  fulfils Benchmark.query batch (mockResults batch).
Proof.
  intros Hlen. unfold fulfils, Benchmark.query, Benchmark.simulateQuery,
    Benchmark.arrayFill, mockResults.
  cbn [settlement].
  destruct (Z.ltb_spec (JsArray.length batch) 0);
    [unfold JsArray.length in *; lia|].
  destruct (Z.ltb_spec Benchmark.MAX_ARRAY_LENGTH (JsArray.length batch));
    [lia|].
  cbn [orb]. unfold JsArray.length. now rewrite Nat2Z.id.
Qed.

(** Whatever a simulated query fulfils with has one result per item. *)
Lemma query_fulfils_length (batch : list T) (v : list Benchmark.MockResult) :
  fulfils Benchmark.query batch v -> JsArray.length v = JsArray.length batch.
Proof.
  unfold fulfils, Benchmark.query, Benchmark.simulateQuery,
    Benchmark.arrayFill.
  cbn [settlement].
  destruct (_ || _); [discriminate|]. intros [= <-].
  unfold JsArray.length. rewrite repeat_length. lia.
Qed.

Lemma in_concat_length {A : Type} (l : list (list A)) (b : list A) :
  In b l -> (length b <= length (concat l))%nat.
Proof.
  induction l as [|x l IH]; [intros []|].
  cbn [concat]. rewrite length_app. intros [<-|Hb]; [lia|].
  specialize (IH Hb). lia.
Qed.

Lemma contiguousChunks_expected (items : list T) (batchSize : Z) :
  0 < batchSize ->
  contiguousChunks items batchSize = expectedChunks items batchSize.
Proof.
  intros HS. unfold expectedChunks.
  destruct (Z.eqb_spec (JsArray.length items) 0) as [H0|H0].
  - unfold contiguousChunks.
    now rewrite (proj1 (ceilDiv_small items batchSize HS) H0).
  - destruct (Z.leb_spec (JsArray.length items) batchSize) as [Hle|Hgt];
      [|reflexivity].
    unfold contiguousChunks.
    rewrite (proj2 (ceilDiv_small items batchSize HS))
      by (unfold JsArray.length in *; lia).
    change (Z.to_nat 1) with 1%nat. cbn [seq map]. f_equal.
    unfold chunkAt. rewrite slice_nonneg by lia.
    cbn [Z.of_nat Z.mul]. rewrite Z.add_0_l.
    replace (Z.to_nat (Z.min 0 (JsArray.length items))) with 0%nat
      by (unfold JsArray.length; lia).
    cbn [skipn]. apply firstn_all2. unfold JsArray.length in *. lia.
Qed.

Lemma chunks_fulfil (items : list T) (batchSize : Z) (b : list T) :
  0 < batchSize ->
  JsArray.length items <= Benchmark.MAX_ARRAY_LENGTH ->
  In b (contiguousChunks items batchSize) ->
  fulfils Benchmark.query b (mockResults b).
Proof.
  intros HS Hmax Hb. apply query_fulfils.
  apply in_concat_length in Hb.
  rewrite contiguousChunks_concat in Hb by exact HS.
  unfold JsArray.length in *. lia.
Qed.

(** The fused loop of [sequentialExecution] is the sequential executor on
    the contiguous chunks. *)
Lemma sequentialExecution_loop_eq (items : list T) (batchSize : Z)
      (fuel k : nat) (results : list Benchmark.MockResult) :
  0 < batchSize ->
  let count := Z.to_nat (ceilDiv (JsArray.length items) batchSize) in
  (k <= count)%nat -> (count - k < fuel)%nat ->
  Benchmark.sequentialExecution_loop fuel items batchSize
    (Z.of_nat k * batchSize) results =
  Enhanced.executeSequential_loop Benchmark.query
    (map (chunkAt items batchSize) (seq k (count - k))) results.
Proof.
  intros HS count. revert k results.
  pose proof (ceilDiv_le_self (JsArray.length items) batchSize HS
                ltac:(unfold JsArray.length; lia)) as Hc.
  induction fuel as [|fuel IH]; intros k results Hk Hfuel; [lia|].
  cbn [Benchmark.sequentialExecution_loop].
  pose proof (ceilDiv_lt_iff (JsArray.length items) batchSize (Z.of_nat k) HS)
    as Hiff.
  destruct (Z.ltb_spec (Z.of_nat k * batchSize) (JsArray.length items))
    as [Hlt|Hge].
  - assert (k < count)%nat as Hk' by (subst count; lia).
    replace (count - k)%nat with (S (count - S k)) by lia.
    cbn [seq map Enhanced.executeSequential_loop].
    fold (chunkAt items batchSize k).
    destruct (p <- call Benchmark.query (chunkAt items batchSize k) ;; await p)
      as [[evs [v|e]]|]; cbn [bind result events]; try reflexivity.
    destruct (pushSpread results v) as [[evs' [w|e]]|];
      cbn [bind result events]; try reflexivity.
    replace (Z.of_nat k * batchSize + batchSize)
      with (Z.of_nat (S k) * batchSize) by lia.
    now rewrite IH by lia.
  - assert (k = count) as -> by (subst count; lia).
    rewrite Nat.sub_diag. reflexivity.
Qed.

Lemma chunkedParallelExecution_loop_eq (batches : list (list T))
      (maxConcurrent i : Z) (fuel : nat)
      (results : list Benchmark.MockResult) :
  Benchmark.chunkedParallelExecution_loop fuel batches maxConcurrent i results =
  Enhanced.executeChunkedParallel_loop Benchmark.query fuel batches
    maxConcurrent i results.
Proof.
  revert i results. induction fuel as [|fuel IH]; intros i results;
    [reflexivity|].
  cbn [Benchmark.chunkedParallelExecution_loop
       Enhanced.executeChunkedParallel_loop].
  destruct (i <? JsArray.length batches); [|reflexivity].
  destruct (ps <- mapCalls Benchmark.query _ ;; awaitAll ps)
    as [[evs [v|e]]|]; cbn [bind result events]; reflexivity.
Qed.

Lemma sequentialExecution_eq (startTime endTime : Time) (fuel : nat)
      (items : list T) (batchSize : Z) :
  0 < batchSize -> (length items < fuel)%nat ->
  Benchmark.sequentialExecution elapsed startTime endTime fuel items batchSize =
  (results <- Enhanced.executeSequential Benchmark.query
                (contiguousChunks items batchSize) ;;
   ret (Benchmark.mkOutcome results (elapsed endTime startTime))).
Proof.
  intros HS Hfuel.
  pose proof (ceilDiv_le_self (JsArray.length items) batchSize HS
                ltac:(unfold JsArray.length; lia)) as Hc.
  unfold JsArray.length in Hc.
  unfold Benchmark.sequentialExecution. cbn zeta.
  pose proof (sequentialExecution_loop_eq items batchSize fuel 0 [] HS) as H.
  cbn zeta in H. rewrite Nat.sub_0_r in H. cbn [Z.of_nat Z.mul] in H.
  rewrite H by (unfold JsArray.length; lia). reflexivity.
Qed.

Lemma parallelExecution_eq (startTime endTime : Time) (fuel : nat)
      (items : list T) (batchSize : Z) :
  0 < batchSize -> (length items < fuel)%nat ->
  Benchmark.parallelExecution elapsed startTime endTime fuel items batchSize =
  (results <- Enhanced.executeParallel Benchmark.query
                (contiguousChunks items batchSize) ;;
   ret (Benchmark.mkOutcome results (elapsed endTime startTime))).
Proof.
  intros HS Hfuel. unfold Benchmark.parallelExecution. cbn zeta.
  rewrite splitIntoBatches_total by assumption.
  generalize (contiguousChunks items batchSize). intros chunks.
  unfold Enhanced.executeParallel.
  cbn [lift ret bind result events app]. rewrite mapCalls_eq.
  cbn [bind result events awaitAll app].
  destruct (firstRejection _); cbn [bind result events ret app];
    rewrite ?app_nil_r; reflexivity.
Qed.

Lemma chunkedParallelExecution_eq (startTime endTime : Time) (fuel : nat)
      (items : list T) (batchSize : Z) (maxConcurrent : option Z) :
  0 < batchSize -> (length items < fuel)%nat ->
  Benchmark.chunkedParallelExecution elapsed startTime endTime fuel items
    batchSize maxConcurrent =
  (results <- Enhanced.executeChunkedParallel Benchmark.query fuel
                (contiguousChunks items batchSize)
                (match maxConcurrent with Some m => m | None => 10 end) ;;
   ret (Benchmark.mkOutcome results (elapsed endTime startTime))).
Proof.
  intros HS Hfuel. unfold Benchmark.chunkedParallelExecution. cbn zeta.
  rewrite splitIntoBatches_total by assumption.
  unfold Enhanced.executeChunkedParallel.
  rewrite <- chunkedParallelExecution_loop_eq.
  cbn [lift ret bind result events app].
  destruct (Benchmark.chunkedParallelExecution_loop fuel
              (contiguousChunks items batchSize)
              (match maxConcurrent with Some m => m | None => 10 end) 0 [])
    as [[evs [v|e]]|]; cbn [result events]; rewrite ?app_nil_r; reflexivity.
Qed.

Lemma contiguousChunks_count (items : list T) (batchSize : Z) :
  0 < batchSize ->
  (length (contiguousChunks items batchSize) <= length items)%nat.
Proof.
  intros HS.
  pose proof (contiguousChunks_length items batchSize HS) as H.
  pose proof (ceilDiv_le_self (JsArray.length items) batchSize HS
                ltac:(unfold JsArray.length; lia)).
  unfold JsArray.length in *. lia.
Qed.

(** On a single batch the orchestrator takes the direct return, whatever
    the strategy. *)
Lemma execute_single_batch {U E : Type} {eng : Engine E}
      (queryFn : list T -> Promise U E) (fuel : nat) (items : list T)
      (options : option Enhanced.Options) :
  0 < JsArray.length items <= batchSizeOf options ->
  Enhanced.executeBatchedQuerySmart queryFn fuel items options =
  (p <- call queryFn items ;; await p).
Proof.
  intros [Hpos Hle].
  unfold Enhanced.executeBatchedQuerySmart, Enhanced.selectCall.
  destruct (Z.eqb_spec (JsArray.length items) 0); [lia|].
  fold (batchSizeOf options).
  destruct (Z.leb_spec (JsArray.length items) (batchSizeOf options)); [|lia].
  reflexivity.
Qed.

(** X18. The benchmark's parallelExecution is the orchestrator's strategy
    'parallel': for a positive batchSize it yields the lookup trace and
    the results of executeBatchedQuerySmart run with that strategy on the
    lookup batch => simulateQuery(batch.length), paired with the elapsed
    time.  Its sequentialExecution is the orchestrator's strategy
    'sequential' in the same way when there are more items than
    batchSize, or no more items than the engine can spread into push.
    On a single batch with more items than that the two differ: the
    benchmark spreads the batch's results and rejects with RangeError,
    the orchestrator returns the lookup's promise, which fulfils. *)
Theorem benchmark_strategies_match_orchestrator
        (startTime endTime : Time) (fuel : nat) (items : list T)
        (batchSize : Z) (maxConcurrent : option Z) :
  0 < batchSize -> (length items < fuel)%nat ->
  (batchSize < JsArray.length items \/ JsArray.length items <= maxArguments ->
   Benchmark.sequentialExecution elapsed startTime endTime fuel items batchSize =
     (results <- Enhanced.executeBatchedQuerySmart Benchmark.query fuel items
                   (Some (Enhanced.mkOptions (Some batchSize) maxConcurrent
                            (Some Enhanced.sequential))) ;;
      ret (Benchmark.mkOutcome results (elapsed endTime startTime)))) /\
  Benchmark.parallelExecution elapsed startTime endTime fuel items batchSize =
    (results <- Enhanced.executeBatchedQuerySmart Benchmark.query fuel items
                  (Some (Enhanced.mkOptions (Some batchSize) maxConcurrent
                           (Some Enhanced.parallel))) ;;
     ret (Benchmark.mkOutcome results (elapsed endTime startTime))) /\
  (0 < JsArray.length items <= batchSize ->
   maxArguments < JsArray.length items <= Benchmark.MAX_ARRAY_LENGTH ->
   Benchmark.sequentialExecution elapsed startTime endTime fuel items batchSize =
     Some (mkRun [Invoke items; Settle items]
                 (Rejected Benchmark.RangeError)) /\
   Enhanced.executeBatchedQuerySmart Benchmark.query fuel items
     (Some (Enhanced.mkOptions (Some batchSize) maxConcurrent
              (Some Enhanced.sequential))) =
     Some (mkRun [Invoke items; Settle items]
                 (Fulfilled (mockResults items)))).
Proof.
  intros HS Hfuel.
  pose proof (ceilDiv_le_self (JsArray.length items) batchSize HS
                ltac:(unfold JsArray.length; lia)) as Hc.
  unfold JsArray.length in Hc.
  split; [|split].
  - intros Hcase. rewrite sequentialExecution_eq by assumption.
    f_equal. rewrite contiguousChunks_expected by exact HS.
    destruct (Z.eqb_spec (JsArray.length items) 0) as [H0|H0].
    { destruct items; [reflexivity|].
      unfold JsArray.length in H0. cbn [List.length] in H0. lia. }
    destruct (Z.leb_spec (JsArray.length items) batchSize) as [Hle|Hgt].
    + rewrite execute_single_batch
        by (cbn; unfold JsArray.length in *; lia).
      unfold expectedChunks.
      destruct (Z.eqb_spec (JsArray.length items) 0); [lia|].
      destruct (Z.leb_spec (JsArray.length items) batchSize); [|lia].
      apply executeSequential_one. intros v Hv.
      rewrite (query_fulfils_length items v Hv). lia.
    + symmetry.
      exact (proj2 (execute_explicit Benchmark.query fuel items
                      (Some (Enhanced.mkOptions (Some batchSize) maxConcurrent
                               (Some Enhanced.sequential))) HS Hfuel)
               eq_refl Hgt).
  - rewrite (proj1 (execute_explicit Benchmark.query fuel items
                      (Some (Enhanced.mkOptions (Some batchSize) maxConcurrent
                               (Some Enhanced.parallel))) HS Hfuel) eq_refl).
    rewrite parallelExecution_eq by assumption.
    now rewrite contiguousChunks_expected by exact HS.
  - intros Hone Hbig.
    assert (fulfils Benchmark.query items (mockResults items)) as Hq
      by (apply query_fulfils; lia).
    destruct (executeSequential_one_overflow Benchmark.query items
                (mockResults items) Hq) as [Hseq Hdirect].
    { rewrite mockResults_length. lia. }
    split.
    + rewrite sequentialExecution_eq by assumption.
      rewrite contiguousChunks_expected by exact HS. unfold expectedChunks.
      destruct (Z.eqb_spec (JsArray.length items) 0); [lia|].
      destruct (Z.leb_spec (JsArray.length items) batchSize); [|lia].
      rewrite Hseq. destruct rangeError. reflexivity.
    + rewrite execute_single_batch by (cbn; lia). exact Hdirect.
Qed.

(** X19. For a positive batchSize and maxConcurrent and no more items than
    the engine can spread into push, the three benchmark strategies
    settle with the same results: one mock result per item
    (results.length = items.length), together with the elapsed time. *)
Theorem benchmark_strategies_agree
        (startTime endTime : Time) (fuel : nat) (items : list T)
        (batchSize : Z) (maxConcurrent : option Z) :
  0 < batchSize ->
  0 < match maxConcurrent with Some m => m | None => 10 end ->
  JsArray.length items <= Benchmark.MAX_ARRAY_LENGTH ->
  JsArray.length items <= maxArguments ->
  (length items < fuel)%nat ->
  exists r1 r2 r3,
    Benchmark.sequentialExecution elapsed startTime endTime fuel items
      batchSize = Some r1 /\
    Benchmark.parallelExecution elapsed startTime endTime fuel items
      batchSize = Some r2 /\
    Benchmark.chunkedParallelExecution elapsed startTime endTime fuel items
      batchSize maxConcurrent = Some r3 /\
    result r1 =
      Fulfilled
        (Benchmark.mkOutcome
           (repeat (Benchmark.mkMockResult "mock result"%string) (length items))
           (elapsed endTime startTime)) /\
    result r2 = result r1 /\ result r3 = result r1.
Proof.
  intros HS Hm Hmax Hspread Hfuel.
  set (chunks := contiguousChunks items batchSize).
  assert (forall b, In b chunks -> fulfils Benchmark.query b (mockResults b))
    as Hq by (intros b Hb; now apply (chunks_fulfil items batchSize)).
  assert (concat chunks = items) as Hcat
    by now apply contiguousChunks_concat.
  assert (Forall2 (fulfils Benchmark.query) chunks (map mockResults chunks))
    as Hall by now apply fulfils_all.
  assert (concat (map mockResults chunks) = mockResults items) as Hout
    by (rewrite (distributes_concat mockResults mockResults_app); now rewrite Hcat).
  rewrite sequentialExecution_eq, parallelExecution_eq,
    chunkedParallelExecution_eq by assumption.
  fold chunks.
  destruct (executeSequential_sound Benchmark.query chunks)
    as (s1 & Hs1 & _ & Hf1 & _).
  destruct (executeParallel_faithful Benchmark.query chunks)
    as (s2 & Hs2 & _ & Hf2 & _).
  destruct (chunked_run Benchmark.query chunks
              (match maxConcurrent with Some m => m | None => 10 end) fuel Hm)
    as (s3 & Hs3 & Hf3).
  { pose proof (contiguousChunks_count items batchSize HS).
    unfold chunks. lia. }
  rewrite Hs1, Hs2, Hs3, !bind_ret.
  do 3 eexists. do 3 (split; [reflexivity|]). cbn [result].
  rewrite (Hf1 _ Hall), (Hf2 _ Hall), (Hf3 _ Hall), Hout.
  - repeat split.
  - intros j ws Hj Hws. unfold chunkAt in Hws.
    rewrite slice_nonneg in Hws by lia.
    pose proof (group_rows_bounded Benchmark.query mockResults mockResults_app
                  chunks _ _ ws Hq Hws) as Hb.
    rewrite Hcat in Hb. pose proof (mockResults_length items) as Hl.
    unfold JsArray.length in *. lia.
  - apply spreadable_all. intros b Hb. rewrite mockResults_length.
    apply in_concat_length in Hb. rewrite Hcat in Hb.
    unfold JsArray.length in *. lia.
Qed.

(** X20. The connections the benchmark strategies use, for a positive
    batchSize and maxConcurrent: sequentialExecution has at most one
    simulated query in flight, chunkedParallelExecution at most
    maxConcurrent (10 by default), and parallelExecution starts all
    ceil(N/batchSize) queries before any settles. *)
Theorem benchmark_concurrency_profile
        (startTime endTime : Time) (fuel : nat) (items : list T)
        (batchSize : Z) (maxConcurrent : option Z) :
  0 < batchSize ->
  0 < match maxConcurrent with Some m => m | None => 10 end ->
  (length items < fuel)%nat ->
  exists r1 r2 r3,
    Benchmark.sequentialExecution elapsed startTime endTime fuel items
      batchSize = Some r1 /\
    Benchmark.parallelExecution elapsed startTime endTime fuel items
      batchSize = Some r2 /\
    Benchmark.chunkedParallelExecution elapsed startTime endTime fuel items
      batchSize maxConcurrent = Some r3 /\
    inFlightWithin 1 (events r1) /\
    (exists settles,
       events r2 = map Invoke (contiguousChunks items batchSize) ++ settles /\
       inFlight (map Invoke (contiguousChunks items batchSize))
         = ceilDiv (JsArray.length items) batchSize) /\
    inFlightWithin (match maxConcurrent with Some m => m | None => 10 end)
      (events r3).
Proof.
  intros HS Hm Hfuel.
  rewrite sequentialExecution_eq, parallelExecution_eq,
    chunkedParallelExecution_eq by assumption.
  destruct (executeSequential_sound Benchmark.query
              (contiguousChunks items batchSize)) as (s1 & Hs1 & Hev1 & _).
  destruct (executeParallel_events Benchmark.query
              (contiguousChunks items batchSize)) as (s2 & Hs2 & Hev2 & _).
  destruct (chunked_within Benchmark.query (contiguousChunks items batchSize)
              (match maxConcurrent with Some m => m | None => 10 end) fuel Hm)
    as (s3 & Hs3 & Hw3).
  { pose proof (contiguousChunks_count items batchSize HS). lia. }
  rewrite Hs1, Hs2, Hs3, !bind_ret.
  do 3 eexists. do 3 (split; [reflexivity|]). cbn [events].
  split; [rewrite Hev1; apply inFlightWithin_sequentialTrace|].
  split; [|exact Hw3].
  eexists. split; [exact Hev2|].
  rewrite inFlight_Invoke. now apply contiguousChunks_length.
Qed.
End BenchmarkFacts.

(** * The further properties at concrete inputs *)

(** X1 at five ids in batches of two. *)
Lemma lookup_batches_within_batchSize_witness :
  exists run,
    Enhanced.executeBatchedQuerySmart Sample.lookup 10 [3; 2; 1; 5; 4]
      (Sample.config 2 3 Enhanced.auto) = Some run /\
    (forall b, In b (invocations (events run)) -> 0 < JsArray.length b <= 2).
Proof.
  apply (lookup_batches_within_batchSize Sample.lookup 10 [3; 2; 1; 5; 4]
           (Sample.config 2 3 Enhanced.auto)).
  - reflexivity.
  - vm_compute. lia.
Defined.

(** X2 at three batches with maxConcurrent = 2 and strategy 'parallel'. *)
Lemma explicit_parallel_starts_every_chunk_witness :
  exists run,
    Enhanced.executeBatchedQuerySmart Sample.lookup 10 [3; 2; 1]
      (Sample.config 1 2 Enhanced.parallel) = Some run /\
    ~ inFlightWithin 2 (events run).
Proof.
  destruct (explicit_parallel_starts_every_chunk Sample.lookup 10 [3; 2; 1]
              (Sample.config 1 2 Enhanced.parallel))
    as (run & Hrun & _ & _ & Hover).
  - reflexivity.
  - reflexivity.
  - vm_compute. lia.
  - exists run. split; [exact Hrun|]. apply Hover. reflexivity.
Defined.

(** X3 at three batches with maxConcurrent = 3 (parallel) under auto. *)
Lemma auto_never_exceeds_maxConcurrent_witness :
  exists run,
    Enhanced.executeBatchedQuerySmart Sample.lookup 10 [3; 2; 1]
      (Sample.config 1 3 Enhanced.auto) = Some run /\
    inFlightWithin 3 (events run).
Proof.
  apply (auto_never_exceeds_maxConcurrent Sample.lookup 10 [3; 2; 1]
           (Sample.config 1 3 Enhanced.auto)).
  - reflexivity.
  - reflexivity.
  - reflexivity.
  - vm_compute. lia.
Defined.

(** X4: 'parallel' against 'sequential' with another maxConcurrent. *)
Lemma output_independent_of_strategy_witness :
  exists run run',
    Enhanced.executeBatchedQuerySmart Sample.lookup 10 [3; 2; 1]
      (Sample.config 1 2 Enhanced.parallel) = Some run /\
    Enhanced.executeBatchedQuerySmart Sample.lookup 10 [3; 2; 1]
      (Sample.config 1 7 Enhanced.sequential) = Some run' /\
    (forall out, result run = Fulfilled out <-> result run' = Fulfilled out).
Proof.
  destruct (output_independent_of_strategy Sample.lookup 10 [3; 2; 1]
              (Sample.config 1 2 Enhanced.parallel)
              (Sample.config 1 7 Enhanced.sequential))
    as (run & run' & Hrun & Hrun' & _ & Hiff).
  - reflexivity.
  - reflexivity.
  - vm_compute. lia.
  - exists run, run'. split; [exact Hrun|]. split; [exact Hrun'|].
    apply Hiff. intros b v Hb Hv. vm_compute in Hb.
    destruct Hb as [<-|[<-|[<-|[]]]]; vm_compute in Hv;
      injection Hv as <-; vm_compute; discriminate.
Defined.

(** X5 for the lookup that multiplies every id by ten. *)
Lemma batching_is_transparent_witness :
  exists run,
    Enhanced.executeBatchedQuerySmart
      (fun b => mkPromise (E := nat) 0 (Fulfilled (map (Z.mul 10) b)))
      10 [3; 2; 1; 5; 4] (Sample.config 2 1 Enhanced.auto) = Some run /\
    result run = Fulfilled (map (Z.mul 10) [3; 2; 1; 5; 4]).
Proof.
  apply (batching_is_transparent
           (fun b => mkPromise (E := nat) 0 (Fulfilled (map (Z.mul 10) b)))
           (map (Z.mul 10)) 10 [3; 2; 1; 5; 4]
           (Sample.config 2 1 Enhanced.auto)).
  - intros b. reflexivity.
  - intros a b. apply map_app.
  - intros b Hb. vm_compute in Hb.
    destruct Hb as [<-|[<-|[<-|[]]]]; vm_compute; discriminate.
  - reflexivity.
  - vm_compute. lia.
Defined.

(** X6 at one id with batchSize = 0. *)
Lemma nonpositive_batchSize_never_settles_witness :
  Enhanced.splitIntoBatches 1000 [7] 0 = None /\
  Enhanced.executeBatchedQuerySmart Sample.lookup 1000 [7]
    (Sample.config 0 10 Enhanced.auto) = None.
Proof.
  apply (nonpositive_batchSize_never_settles Sample.lookup 1000 [7]
           (Sample.config 0 10 Enhanced.auto)).
  - vm_compute. discriminate.
  - discriminate.
Defined.

(** X7 with four batches of which the second and the fourth reject. *)
Lemma explicit_sequential_stops_at_first_rejection_witness :
  exists run,
    Enhanced.executeBatchedQuerySmart Sample.lookup 10 [3; -13; 1; -7]
      (Sample.config 1 5 Enhanced.sequential) = Some run /\
    result run = Rejected 13%nat /\
    events run = [Invoke [3]; Settle [3]; Invoke [-13]; Settle [-13]].
Proof.
  destruct (explicit_sequential_stops_at_first_rejection Sample.lookup 10
              [3; -13; 1; -7] (Sample.config 1 5 Enhanced.sequential))
    as (run & Hrun & _ & _ & Hstop).
  - reflexivity.
  - reflexivity.
  - vm_compute. lia.
  - exists run. split; [exact Hrun|].
    apply (Hstop [[3]] [-13] [[1]; [-7]] 13%nat).
    + reflexivity.
    + constructor; [|constructor]. exists [30].
      split; [reflexivity|vm_compute; discriminate].
    + reflexivity.
Defined.

(** X8 at five ids in batches of two, all fulfilling. *)
Lemma one_lookup_per_chunk_witness :
  exists run,
    Enhanced.executeBatchedQuerySmart Sample.lookup 10 [3; 2; 1; 5; 4]
      (Sample.config 2 1 Enhanced.auto) = Some run /\
    invocations (events run) = [[3; 2]; [1; 5]; [4]].
Proof.
  destruct (one_lookup_per_chunk Sample.lookup 10 [3; 2; 1; 5; 4]
              (Sample.config 2 1 Enhanced.auto) [[30; 20]; [10; 50]; [40]])
    as (run & Hrun & Hinv & _).
  - reflexivity.
  - vm_compute. lia.
  - vm_compute. repeat constructor.
  - repeat constructor; vm_compute; discriminate.
  - exists run. split; [exact Hrun|exact Hinv].
Defined.

(** X9 at three ids in batches of one: parallel with maxConcurrent = 3. *)
Lemma auto_threshold_witness :
  Enhanced.selectCall 10 [3; 2; 1] (Sample.config 1 3 Enhanced.auto) =
  Some (Enhanced.CallParallel [[3]; [2]; [1]]).
Proof.
  apply (proj1 (auto_threshold 10 [3; 2; 1] (Sample.config 1 3 Enhanced.auto)
                  eq_refl (conj eq_refl eq_refl) ltac:(vm_compute; lia))).
  vm_compute. discriminate.
Defined.

(** X10 at three batches in groups of two. *)
Lemma chunked_parallel_keeps_batch_order_witness :
  exists run,
    Enhanced.executeChunkedParallel Sample.lookup 10 [[3]; [2]; [1]] 2
      = Some run /\
    result run = Fulfilled [30; 20; 10].
Proof.
  destruct (chunked_parallel_keeps_batch_order Sample.lookup 10
              [[3]; [2]; [1]] 2) as (run & Hrun & _ & Hfwd & _).
  - reflexivity.
  - vm_compute. lia.
  - exists run. split; [exact Hrun|].
    apply (Hfwd [[30]; [20]; [10]]); [repeat constructor|].
    intros j ws Hj Hws.
    destruct (pendingOf_fulfilled Sample.lookup _ ws Hws) as [<- _].
    change (ceilDiv (JsArray.length [[3]; [2]; [1]]) 2) with 2 in Hj.
    destruct j as [|[|j]]; [vm_compute; discriminate ..|lia].
Defined.

(** X11 on the same input. *)
Lemma chunked_parallel_respects_ceiling_witness :
  exists run,
    Enhanced.executeChunkedParallel Sample.lookup 10 [[3]; [2]; [1]] 2
      = Some run /\
    inFlightWithin 2 (events run).
Proof.
  apply (chunked_parallel_respects_ceiling Sample.lookup 10 [[3]; [2]; [1]] 2).
  - reflexivity.
  - vm_compute. lia.
Defined.

(** X12 at three batches with maxConcurrent = 5. *)
Lemma chunked_parallel_is_parallel_when_wide_witness :
  Enhanced.executeChunkedParallel Sample.lookup 10 [[3]; [2]; [1]] 5 =
    Enhanced.executeParallel Sample.lookup [[3]; [2]; [1]] /\
  Enhanced.executeChunkedParallel (engine := Sample.tiny) Sample.lookup 10
    [[3]; [2]; [1]] 5 =
    Some (mkRun [Invoke [3]; Invoke [2]; Invoke [1];
                 Settle [1]; Settle [2]; Settle [3]]
                (Rejected 0%nat)).
Proof.
  split.
  - destruct (chunked_parallel_is_parallel_when_wide Sample.lookup 10
                [[3]; [2]; [1]] 5) as (runP & HP & Hsame & _).
    + reflexivity.
    + vm_compute. discriminate.
    + vm_compute. lia.
    + rewrite HP. apply Hsame. intros out Hout.
      vm_compute in HP. injection HP as <-. injection Hout as <-.
      vm_compute. discriminate.
  - destruct (chunked_parallel_is_parallel_when_wide (engine := Sample.tiny)
                Sample.lookup 10 [[3]; [2]; [1]] 5) as (runP & HP & _ & Hover).
    + reflexivity.
    + vm_compute. discriminate.
    + vm_compute. lia.
    + vm_compute in HP. injection HP as <-.
      apply (Hover [30; 20; 10]); [discriminate|reflexivity|reflexivity].
Defined.

(** X13 at three batches of which the second rejects. *)
Lemma chunked_parallel_of_one_is_sequential_witness :
  Enhanced.executeChunkedParallel Sample.lookup 10 [[3]; [-2]; [1]] 1 =
  Enhanced.executeSequential Sample.lookup [[3]; [-2]; [1]].
Proof.
  apply (chunked_parallel_of_one_is_sequential Sample.lookup 10
           [[3]; [-2]; [1]]).
  vm_compute. lia.
Defined.

(** X14 with maxConcurrent = -1: the first group is the first two batches,
    of which the second rejects. *)
Lemma chunked_parallel_needs_positive_maxConcurrent_witness :
  Enhanced.executeChunkedParallel Sample.lookup 10 [[3]; [-2]; [1]] (-1) =
    Some (mkRun [Invoke [3]; Invoke [-2]; Settle [-2]; Settle [3]]
                (Rejected 2%nat)) /\
  exists e,
    result (mkRun (A := list Z)
              [Invoke [3]; Invoke [-2]; Settle [-2]; Settle [3]]
              (Rejected 2%nat)) = Rejected e.
Proof.
  split; [reflexivity|].
  apply (chunked_parallel_needs_positive_maxConcurrent Sample.lookup 10
           [[3]; [-2]; [1]] (-1)).
  - vm_compute. discriminate.
  - discriminate.
  - reflexivity.
Defined.

(** X15 with rejections after 13 and after 7 time units: the later chunk's
    error is the one reported. *)
Lemma parallel_rejects_with_earliest_rejection_witness :
  exists run,
    Enhanced.executeBatchedQuerySmart Sample.lookup 10 [3; -13; 1; -7]
      (Sample.config 1 5 Enhanced.parallel) = Some run /\
    result run = Rejected 7%nat.
Proof.
  apply (parallel_rejects_with_earliest_rejection Sample.lookup 10
           [3; -13; 1; -7] (Sample.config 1 5 Enhanced.parallel) [-7] 7%nat).
  - reflexivity.
  - reflexivity.
  - vm_compute. lia.
  - vm_compute. auto.
  - reflexivity.
  - intros b' e' Hin Hrej. vm_compute in Hin.
    destruct Hin as [<-|[<-|[<-|[<-|[]]]]].
    + discriminate Hrej.
    + right. vm_compute. lia.
    + discriminate Hrej.
    + now left.
Defined.

(** X16 at five ids in batches of two. *)
Lemma mock_query_returns_one_row_per_id_witness :
  exists run rows,
    Enhanced.executeBatchedQuerySmart
      (PerformanceRun.mockDatabaseQuery (E := nat) (fun _ => 50%nat)
         Sample.decimal)
      10 [3; 2; 1; 5; 4] (Sample.config 2 3 Enhanced.auto) = Some run /\
    result run = Fulfilled rows /\
    map PerformanceRun.id rows = [3; 2; 1; 5; 4] /\
    JsArray.length rows = JsArray.length [3; 2; 1; 5; 4].
Proof.
  apply (mock_query_returns_one_row_per_id (E := nat) (fun _ => 50%nat)
           Sample.decimal 10 [3; 2; 1; 5; 4] (Sample.config 2 3 Enhanced.auto)).
  - reflexivity.
  - vm_compute. discriminate.
  - vm_compute. lia.
Defined.

(** X17 at a data set of three ids. *)
Lemma performance_test_reports_actual_counts_witness :
  exists run,
    PerformanceRun.runPerformanceTest (E := nat) (fun _ => 50%nat)
      Sample.decimal 1000 1250 "Parallel"%string 3
      (fun ids queryFn =>
         PerformanceTest.executeBatchedQueryParallel queryFn 5 ids)
      = Some run /\
    result run = Fulfilled (PerformanceRun.mkTestResult 250 1 3).
Proof.
  destruct (performance_test_reports_actual_counts (E := nat)
              (fun _ => 50%nat) Sample.decimal 1000 1250 "Parallel"%string 3 5)
    as (run & Hrun & Hres & _).
  - vm_compute. lia.
  - exists run. split; [exact Hrun|exact Hres].
Defined.

(** X18 at five items in batches of two. *)
Lemma benchmark_strategies_match_orchestrator_witness :
  Benchmark.sequentialExecution Z.sub 0 7 10 [1; 2; 3; 4; 5] 2 =
    (results <- Enhanced.executeBatchedQuerySmart Benchmark.query 10
                  [1; 2; 3; 4; 5]
                  (Some (Enhanced.mkOptions (Some 2) None
                           (Some Enhanced.sequential))) ;;
     ret (Benchmark.mkOutcome results (7 - 0))) /\
  Benchmark.parallelExecution Z.sub 0 7 10 [1; 2; 3; 4; 5] 2 =
    (results <- Enhanced.executeBatchedQuerySmart Benchmark.query 10
                  [1; 2; 3; 4; 5]
                  (Some (Enhanced.mkOptions (Some 2) None
                           (Some Enhanced.parallel))) ;;
     ret (Benchmark.mkOutcome results (7 - 0))).
Proof.
  destruct (benchmark_strategies_match_orchestrator Z.sub 0 7 10
              [1; 2; 3; 4; 5] 2 None eq_refl ltac:(vm_compute; lia))
    as (Hseq & Hpar & _).
  split; [|exact Hpar].
  apply Hseq. left. reflexivity.
Defined.

(** X19 at five items in batches of two, groups of two. *)
Lemma benchmark_strategies_agree_witness :
  exists r1 r2 r3,
    Benchmark.sequentialExecution Z.sub 0 7 10 [1; 2; 3; 4; 5] 2 = Some r1 /\
    Benchmark.parallelExecution Z.sub 0 7 10 [1; 2; 3; 4; 5] 2 = Some r2 /\
    Benchmark.chunkedParallelExecution Z.sub 0 7 10 [1; 2; 3; 4; 5] 2 (Some 2)
      = Some r3 /\
    result r1 =
      Fulfilled
        (Benchmark.mkOutcome
           (repeat (Benchmark.mkMockResult "mock result"%string) 5) 7) /\
    result r2 = result r1 /\ result r3 = result r1.
Proof.
  apply (benchmark_strategies_agree Z.sub 0 7 10 [1; 2; 3; 4; 5] 2 (Some 2)).
  - reflexivity.
  - reflexivity.
  - vm_compute. discriminate.
  - vm_compute. discriminate.
  - vm_compute. lia.
Defined.

(** X20 on the same input. *)
Lemma benchmark_concurrency_profile_witness :
  exists r1 r3,
    Benchmark.sequentialExecution Z.sub 0 7 10 [1; 2; 3; 4; 5] 2 = Some r1 /\
    Benchmark.chunkedParallelExecution Z.sub 0 7 10 [1; 2; 3; 4; 5] 2 (Some 2)
      = Some r3 /\
    inFlightWithin 1 (events r1) /\ inFlightWithin 2 (events r3).
Proof.
  destruct (benchmark_concurrency_profile Z.sub 0 7 10 [1; 2; 3; 4; 5] 2
              (Some 2)) as (r1 & r2 & r3 & H1 & _ & H3 & Hw1 & _ & Hw3).
  - reflexivity.
  - reflexivity.
  - vm_compute. lia.
  - exists r1, r3. auto.
Defined.

(** * The limit on spreading a lookup result *)

Section SpreadLimit.
Context {T U E : Type} {engine : Engine E}.
Variable queryFn : list T -> Promise U E.

(** Up to the first batch whose result cannot be spread, when the earlier
    ones fulfil with results that can. *)
Lemma invokedPrefix_first_overflow (pre post : list (list T))
      (b : list T) (v : list U) :
  Forall (fun x => exists w, fulfils queryFn x w /\
                             JsArray.length w <= maxArguments) pre ->
  fulfils queryFn b v -> maxArguments < JsArray.length v ->
  invokedPrefix queryFn (pre ++ b :: post) = pre ++ [b].
Proof.
  intros Hpre Hb Hv. induction Hpre as [|x pre (w & Hx & Hw) _ IH].
  - cbn [app invokedPrefix]. unfold fulfils in Hb. rewrite Hb.
    destruct (Z.leb_spec (JsArray.length v) maxArguments); [lia|reflexivity].
  - cbn [app invokedPrefix]. unfold fulfils in Hx. rewrite Hx.
    destruct (Z.leb_spec (JsArray.length w) maxArguments); [|lia].
    now rewrite IH.
Qed.

(** X21. With the strategy 'sequential', once batching is reached, a
    lookup result with more rows than the engine can spread into push
    fails the call: when the chunks before b fulfil with results that can
    be spread and b fulfils with one that cannot, the call rejects with
    the engine's RangeError after invoking exactly the chunks up to and
    including b, although no lookup rejected.  With the strategy
    'parallel' and the same batchSize the call fulfils whenever every
    chunk's lookup does, however long the results. *)
Theorem long_result_fails_sequential_only
        (fuel : nat) (ids : list T) (options options' : option Enhanced.Options)
        (pre post : list (list T)) (b : list T) (v : list U) :
  strategyOf options = Enhanced.sequential ->
  strategyOf options' = Enhanced.parallel ->
  batchSizeOf options' = batchSizeOf options ->
  0 < batchSizeOf options < JsArray.length ids ->
  (length ids < fuel)%nat ->
  expectedChunks ids (batchSizeOf options) = pre ++ b :: post ->
  Forall (fun x => exists w, fulfils queryFn x w /\
                             JsArray.length w <= maxArguments) pre ->
  fulfils queryFn b v -> maxArguments < JsArray.length v ->
  (exists run,
     Enhanced.executeBatchedQuerySmart queryFn fuel ids options = Some run /\
     result run = Rejected rangeError /\
     events run = sequentialTrace (pre ++ [b])) /\
  (forall vs,
     Forall2 (fulfils queryFn) (expectedChunks ids (batchSizeOf options)) vs ->
     exists run',
       Enhanced.executeBatchedQuerySmart queryFn fuel ids options' = Some run' /\
       result run' = Fulfilled (concat vs)).
Proof.
  intros Hseq Hpar Hsame [HS HN] Hfuel Hchunks Hpre Hb Hv. split.
  - rewrite (proj2 (execute_explicit queryFn fuel ids options HS Hfuel)
               Hseq HN).
    rewrite Hchunks.
    destruct (executeSequential_loop_run queryFn (pre ++ b :: post) [])
      as (run & Hrun & Hev & _ & Hbwd & Hrej & _).
    rewrite (invokedPrefix_first_overflow pre post b v Hpre Hb Hv)
      in Hev, Hrej.
    exists run. split; [exact Hrun|]. split; [|exact Hev].
    destruct (result run) as [out|e] eqn:Hres.
    + exfalso. destruct (Hbwd out eq_refl) as (vs & Hvs & Hsp & _).
      apply Forall2_app_inv_l in Hvs as (vs1 & vs2 & _ & H2 & ->).
      inversion H2 as [|? v' ? vs3 Hb' _]; subst.
      apply Forall_app in Hsp as [_ Hsp]. apply Forall_inv in Hsp.
      unfold fulfils in Hb, Hb'. assert (v' = v) as -> by congruence. lia.
    + destruct (Hrej e eq_refl) as (b' & Hb' & [He|[-> _]]); [|reflexivity].
      exfalso. apply in_app_or in Hb' as [Hb'|[<-|[]]].
      * rewrite Forall_forall in Hpre.
        destruct (Hpre b' Hb') as (w & Hw & _).
        unfold fulfils, rejects in *. congruence.
      * unfold fulfils, rejects in *. congruence.
  - intros vs Hvs.
    assert (0 < batchSizeOf options') as HS' by lia.
    rewrite (proj1 (execute_explicit queryFn fuel ids options' HS' Hfuel)
               Hpar).
    rewrite Hsame.
    destruct (executeParallel_faithful queryFn
                (expectedChunks ids (batchSizeOf options)))
      as (run' & Hrun' & _ & Hfwd & _).
    exists run'. split; [exact Hrun'|now apply Hfwd].
Qed.
End SpreadLimit.

(** X21 on an engine that spreads at most two arguments: five ids in
    batches of three, the first batch answered with three rows. *)
Lemma long_result_fails_sequential_only_witness :
  (exists run,
     Enhanced.executeBatchedQuerySmart (engine := Sample.tiny) Sample.lookup
       10 [3; 2; 1; 5; 4] (Sample.config 3 3 Enhanced.sequential) = Some run /\
     result run = Rejected 0%nat /\
     events run = [Invoke [3; 2; 1]; Settle [3; 2; 1]]) /\
  (exists run',
     Enhanced.executeBatchedQuerySmart (engine := Sample.tiny) Sample.lookup
       10 [3; 2; 1; 5; 4] (Sample.config 3 3 Enhanced.parallel) = Some run' /\
     result run' = Fulfilled [30; 20; 10; 50; 40]).
Proof.
  destruct (long_result_fails_sequential_only (engine := Sample.tiny)
              Sample.lookup 10 [3; 2; 1; 5; 4]
              (Sample.config 3 3 Enhanced.sequential)
              (Sample.config 3 3 Enhanced.parallel)
              [] [[5; 4]] [3; 2; 1] [30; 20; 10]) as [Hseq Hpar].
  - reflexivity.
  - reflexivity.
  - reflexivity.
  - vm_compute. split; reflexivity.
  - vm_compute. lia.
  - reflexivity.
  - constructor.
  - reflexivity.
  - reflexivity.
  - split; [exact Hseq|].
    apply (Hpar [[30; 20; 10]; [50; 40]]). repeat constructor.
Defined.
